(** * Struct combinators of fp-ts ([src/struct.ts]) over an explicit object store

    A JavaScript struct is an object, that is a reference into a store of
    property tables.  The combinators of [struct.ts] allocate objects, read
    and write their properties and hand references around, so they are
    embedded here as programs of a small store-and-exception monad.  Field
    values are primitives or references; handlers supplied by the caller are
    pure functions of the field value, and a handler table is an object
    literal, so that looking a key up in it also finds the members of
    [Object.prototype]. *)

From stdpp Require Import gmap strings list fin_maps sorting pretty.
From Stdlib Require Import ZArith.

Open Scope string_scope.
Open Scope Z_scope.
Open Scope nat_scope.
Open Scope list_scope.
Open Scope stdpp_scope.

(** ** Values, objects and the store *)

Definition loc := nat.

(** A JavaScript value: the primitives, or a reference to an object. *)
Inductive val : Type :=
  | VUndefined
  | VNull
  | VBool (b : bool)
  | VNum (n : Z)
  | VStr (s : string)
  | VRef (l : loc).

(** An object: [own] holds its own enumerable string-keyed properties (what
    [Object.keys], [for..in] guarded by [hasOwnProperty], spread and
    [Object.assign] see); [inherited] holds the data properties that only
    property reads and the [in] operator see, i.e. those found along the
    prototype chain (or own but not enumerable), the chain being kept
    flattened; [ordinary] says whether [Object.prototype] is on that chain, as
    it is for every object made by a literal.  The members of
    [Object.prototype] are not values of the model: they are met only where a
    handler table is indexed ([Object_prototype] below) and where [__proto__]
    is assigned ([set_prop]). *)
Record obj : Type := Obj {
  own : gmap string val;
  inherited : gmap string val;
  ordinary : bool
}.

Abbreviation heap := (list obj).

(** [o[k]]: own property first, then the prototype chain, else [undefined]. *)
Definition obj_get (o : obj) (k : string) : val :=
  match own o !! k with
  | Some v => v
  | None => default VUndefined (inherited o !! k)
  end.

(** [k in o] *)
Definition obj_has (o : obj) (k : string) : bool :=
  bool_decide (is_Some (own o !! k)) || bool_decide (is_Some (inherited o !! k)).

(** [Object.keys(o)] (the enumeration order of the host is not significant
    for any combinator below; [traverseS] sorts the keys explicitly). *)
Definition own_keys (o : obj) : list string := (map_to_list (own o)).*1.

(** Defining the own property [k] of [o], as an object literal, a computed
    key and a spread do: it is created or overwritten. *)
Definition obj_set (o : obj) (k : string) (v : val) : obj :=
  Obj (<[k := v]> (own o)) (inherited o) (ordinary o).

(** [delete o[k]] removes an own property only. *)
Definition obj_delete (o : obj) (k : string) : obj :=
  Obj (delete k (own o)) (inherited o) (ordinary o).

(** An object literal [{ ... }]: given own properties, plain prototype. *)
Definition literal (m : gmap string val) : obj := Obj m ∅ true.

(** [a == null] *)
Definition nullish (v : val) : bool :=
  match v with
  | VUndefined | VNull => true
  | _ => false
  end.

(** ** The store-and-exception monad *)

Inductive error : Type :=
  | TypeError   (* property access on [null]/[undefined], write to a primitive *)
  | Dangling.   (* a reference outside the store; never arises on a real heap *)

Inductive outcome (A : Type) : Type :=
  | Ret (a : A) (h : heap)
  | Throw (e : error) (h : heap).
Arguments Ret {A} a h.
Arguments Throw {A} e h.

Definition M (A : Type) : Type := heap → outcome A.

Definition ret {A} (a : A) : M A := λ h, Ret a h.

Definition bind {A B} (m : M A) (k : A → M B) : M B :=
  λ h, match m h with
       | Ret a h' => k a h'
       | Throw e h' => Throw e h'
       end.

Definition throw {A} (e : error) : M A := λ h, Throw e h.

Declare Scope store_scope.
Delimit Scope store_scope with store.
Notation "'let*' x ':=' m 'in' k" := (bind m (λ x, k))
  (at level 10, x name, m at level 100, k at level 200) : store_scope.
Notation "m ';;' k" := (bind m (λ _, k))
  (at level 100, k at level 200, right associativity) : store_scope.
Open Scope store_scope.

(** The final store of a run, whether it returned or threw. *)
Definition final {A} (r : outcome A) : heap :=
  match r with
  | Ret _ h => h
  | Throw _ h => h
  end.

(** [{...}]/[new]: a fresh object is placed at the end of the store. *)
Definition alloc (o : obj) : M loc := λ h, Ret (length h) (h ++ [o]).

Definition read (l : loc) : M obj :=
  λ h, match h !! l with
       | Some o => Ret o h
       | None => Throw Dangling h
       end.

Definition write (l : loc) (o : obj) : M unit :=
  λ h, match h !! l with
       | Some _ => Ret tt (<[l := o]> h)
       | None => Throw Dangling h
       end.

(** [v[k]] for an arbitrary value [v].  Reading a property of [null] or
    [undefined] throws; the wrapper prototypes of the other primitives define
    none of the keys the combinators read ([_tag], [value], field names). *)
Definition get_prop (v : val) (k : string) : M val :=
  match v with
  | VRef l => let* o := read l in ret (obj_get o k)
  | VUndefined | VNull => throw TypeError
  | _ => ret VUndefined
  end.

(** Defining an own property of the object [v]: [{ [k]: x }] and the spread
    [{ ...src }] create or overwrite the own property whatever its name. *)
Definition define_prop (v : val) (k : string) (x : val) : M unit :=
  match v with
  | VRef l => let* o := read l in write l (obj_set o k x)
  | _ => throw TypeError
  end.

(** Whether an assignment to [__proto__] on [o] reaches the accessor that
    [Object.prototype] defines under that name: it does unless [o] has a data
    property of that name, own or inherited, or [Object.prototype] is not on
    its chain. *)
Definition reaches_proto_setter (o : obj) : bool :=
  ordinary o
  && bool_decide (own o !! "__proto__" = None)
  && bool_decide (inherited o !! "__proto__" = None).

(** The setter of [__proto__] on the object [o] at [l]: an object becomes
    the prototype, so that [o] inherits what is visible on it (a cycle is a
    [TypeError]); [null] removes the prototype; any other value is ignored. *)
Definition set_prototype (l : loc) (o : obj) (x : val) : M unit :=
  match x with
  | VRef p =>
      if bool_decide (p = l) then throw TypeError
      else let* po := read p in
           write l (Obj (own o) (own po ∪ inherited po) (ordinary po))
  | VNull => write l (Obj (own o) ∅ false)
  | _ => ret tt
  end.

(** [v[k] = x] (the module is strict code: writing to a primitive throws).
    An assignment creates or overwrites an own property, except for the key
    [__proto__], where it runs the setter of [Object.prototype] and creates no
    property. *)
Definition set_prop (v : val) (k : string) (x : val) : M unit :=
  match v with
  | VRef l =>
      let* o := read l in
      if bool_decide (k = "__proto__") && reaches_proto_setter o
      then set_prototype l o x
      else write l (obj_set o k x)
  | _ => throw TypeError
  end.

(** [delete v[k]] *)
Definition delete_prop (v : val) (k : string) : M unit :=
  match v with
  | VRef l => let* o := read l in write l (obj_delete o k)
  | _ => throw TypeError
  end.

(** [Object.keys(l)] *)
Definition object_keys (l : loc) : M (list string) :=
  let* o := read l in ret (own_keys o).

(** [for (const x of xs) body] *)
Fixpoint for_of {A} (xs : list A) (body : A → M unit) : M unit :=
  match xs with
  | [] => ret tt
  | x :: xs' => body x ;; for_of xs' body
  end.

(** [for (...) acc = step(acc, x)]: a loop threading an accumulator. *)
Fixpoint fold_of {A S} (xs : list A) (s : S) (body : S → A → M S) : M S :=
  match xs with
  | [] => ret s
  | x :: xs' => let* s' := body s x in fold_of xs' s' body
  end.

(** The spread [{ ...src }] into the literal [dst]: the own enumerable
    properties of [src] are defined on [dst], key by key. *)
Definition copy_own (src dst : loc) : M unit :=
  let* ks := object_keys src in
  for_of ks (λ k,
    let* v := get_prop (VRef src) k in
    define_prop (VRef dst) k v).

(** One source of [Object.assign(dst, src)]: the own enumerable properties
    of [src] are assigned to [dst], key by key. *)
Definition assign_own (src dst : loc) : M unit :=
  let* ks := object_keys src in
  for_of ks (λ k,
    let* v := get_prop (VRef src) k in
    set_prop (VRef dst) k v).

(** The rest pattern [{ [p]: _, ...rest }]: a new object with the own
    enumerable properties of [src] other than [p]. *)
Definition rest_without (p : string) (src : loc) : M loc :=
  let* rest := alloc (literal ∅) in
  let* ks := object_keys src in
  for_of ks (λ k,
    if bool_decide (k = p) then ret tt
    else let* v := get_prop (VRef src) k in define_prop (VRef rest) k v) ;;
  ret rest.

(** [v === 'tag'] for a string literal. *)
Definition is_str (v : val) (tag : string) : bool :=
  match v with
  | VStr s => bool_decide (s = tag)
  | _ => false
  end.

(** Truthiness of a value (there is no [NaN] among the numbers of the
    model). *)
Definition truthy (v : val) : bool :=
  match v with
  | VUndefined | VNull => false
  | VBool b => b
  | VNum n => negb (n =? 0)%Z
  | VStr s => negb (bool_decide (s = ""))
  | VRef _ => true
  end.

(** ** [Object.prototype]

    The handler tables that the combinators index ([f[k]], [predicates[k]])
    are objects, so a key that is not an own key of the table is looked up
    along its prototype chain.  For a table written as an object literal that
    finds the members of [Object.prototype]. *)

Inductive member : Type :=
  | Constructor
  | DefineGetter
  | DefineSetter
  | HasOwnProperty
  | LookupGetter
  | LookupSetter
  | IsPrototypeOf
  | PropertyIsEnumerable
  | ToString
  | ValueOf
  | ProtoAccessor
  | ToLocaleString.

(** The property names that [Object.prototype] defines. *)
Definition Object_prototype : gmap string member :=
  {[ "constructor" := Constructor;
     "__defineGetter__" := DefineGetter;
     "__defineSetter__" := DefineSetter;
     "hasOwnProperty" := HasOwnProperty;
     "__lookupGetter__" := LookupGetter;
     "__lookupSetter__" := LookupSetter;
     "isPrototypeOf" := IsPrototypeOf;
     "propertyIsEnumerable" := PropertyIsEnumerable;
     "toString" := ToString;
     "valueOf" := ValueOf;
     "__proto__" := ProtoAccessor;
     "toLocaleString" := ToLocaleString ]}.

(** What [f[k]] finds in a handler table [f] written as an object literal
    with the own entries [f]: the own entry, else the member of
    [Object.prototype] of that name, else nothing ([undefined]). *)
Inductive found (H : Type) : Type :=
  | Own (fk : H)
  | Inherited (m : member)
  | Absent.
Arguments Own {H} fk.
Arguments Inherited {H} m.
Arguments Absent {H}.

Definition table_get {H} (f : gmap string H) (k : string) : found H :=
  match f !! k with
  | Some fk => Own fk
  | None =>
      match Object_prototype !! k with
      | Some m => Inherited m
      | None => Absent
      end
  end.

(** The object [Object(s)] for a string [s]: its characters as own indexed
    properties, and [length] (characters are those of the model's strings). *)
Definition string_wrapper (s : string) : obj :=
  Obj (list_to_map (imap (λ i c, (pretty i, VStr (String c EmptyString)))
                         (String.list_ascii_of_string s)))
      {[ "length" := VNum (Z.of_nat (String.length s)) ]} true.

(** [m(v)]: a member of [Object.prototype] called as a handler, that is as a
    plain function of one argument, without receiver ([this] is [undefined]
    in strict code).  [toString] answers for the missing receiver;
    [isPrototypeOf] answers [false] for an argument that is not an object
    before it looks at the receiver; [Object] converts its argument to an
    object; the other functions start by converting the receiver to an object,
    which throws; what [__proto__] reads is an object, not a function, and
    calling it throws. *)
Definition call_member (m : member) (v : val) : M val :=
  match m with
  | ToString => ret (VStr "[object Undefined]")
  | IsPrototypeOf =>
      match v with
      | VRef _ => throw TypeError
      | _ => ret (VBool false)
      end
  | Constructor =>
      match v with
      | VRef _ => ret v
      | VStr s => let* l := alloc (string_wrapper s) in ret (VRef l)
      | _ => let* l := alloc (literal ∅) in ret (VRef l)
      end
  | _ => throw TypeError
  end.

(** ** Effects

    A value of type [HKT<F, A>] is embedded as a value of a Rocq type [F A].
    The capability's operations run callbacks of [struct.ts], which allocate
    and assign, so they live in the store monad. *)

(** [Apply<F>] in the curried style of the first listing: [F.map(f)(fa)] and
    [F.ap(fa)(fab)].  [as_effect] is what the operations of the capability
    take an arbitrary JavaScript value for when it is handed to them where an
    effect is expected (an [as any] cast in the source). *)
Record Apply (F : Type → Type) : Type := {
  map : ∀ {A B : Type}, (A → M B) → F A → M (F B);
  ap : ∀ {A B : Type}, F A → F (A → M B) → M (F B);
  as_effect : val → M (F val)
}.
Arguments map {F} _ {A B} _ _.
Arguments ap {F} _ {A B} _ _.
Arguments as_effect {F} _ _.

(** [Applicative<F>]: [Apply<F>] with [of]. *)
Record Applicative (F : Type → Type) : Type := {
  apply_of :> Apply F;
  of_ : ∀ {A : Type}, A → F A
}.
Arguments apply_of {F} _.
Arguments of_ {F} _ {A} _.

(** [Ord<string>]: [compare O first second] is the ordering of [first]
    relative to [second]. *)
Record Ord : Type := { compare : string → string → comparison }.

(** Modelled from the spec: the [Ord] instance of [./string] ("default
    lexicographic string ordering"). *)
Definition StringOrd : Ord := {| compare := String.compare |}.

(** ** [Option]: stored wrappers and the optional effect *)

Module O.

(** The location of the constant [none] of [./Option]. *)
Definition none_loc : loc := 0.

(** Modelled from the spec: the two variants of the optional container of
    [./Option] as objects, "a tagged value with a present tag carrying
    exactly one payload field, or an absent tag carrying no payload"; the tags
    and the payload key are those [isOption] tests. *)
Definition none_obj : obj := literal {[ "_tag" := VStr "None" ]}.

Definition some_obj (a : val) : obj :=
  literal {[ "_tag" := VStr "Some"; "value" := a ]}.

(** Modelled from the spec: [none], the "absent" variant, one shared
    object. *)
Definition none : val := VRef none_loc.

(** Modelled from the spec: [some(a)], the "present" variant: a tagged
    object "carrying exactly one payload field". *)
Definition some (a : val) : M val :=
  let* l := alloc (some_obj a) in ret (VRef l).

(** Modelled from the spec: [fromNullable]: "nullish values (both null and
    undefined sentinels) map to absent, everything else maps to
    present". *)
Definition fromNullable (a : val) : M val :=
  if nullish a then ret none else some a.

(** Modelled from the spec: [isSome], "tag discrimination between present
    with payload and absent". *)
Definition isSome (fa : val) : M bool :=
  let* t := get_prop fa "_tag" in ret (is_str t "Some").

(** Modelled from the spec: [isNone], the same discrimination. *)
Definition isNone (fa : val) : M bool :=
  let* t := get_prop fa "_tag" in ret (is_str t "None").

(** Modelled from the spec: the optional effect, "success/failure, no
    further computation on failure".  [map] and [ap] are those of
    [./Option]: [isNone(fa) ? none : some(f(fa.value))] and
    [isNone(fab) ? none : isNone(fa) ? none : some(fab.value(fa.value))];
    [as_effect] is the way these read their argument, by [_tag] and
    [value]. *)
Definition Apply : Apply option := {|
  map A B f fa :=
    match fa with
    | None => ret None
    | Some a => let* b := f a in ret (Some b)
    end;
  ap A B fa fab :=
    match fab with
    | None => ret None
    | Some g =>
        match fa with
        | None => ret None
        | Some a => let* b := g a in ret (Some b)
        end
    end;
  as_effect v :=
    let* absent := isNone v in
    if absent then ret None
    else let* x := get_prop v "value" in ret (Some x)
|}.

Definition Applicative : Applicative option :=
  {| apply_of := Apply; of_ A a := Some a |}.

(** Modelled from the spec: [fromPredicate(p)(a)] is present when the
    predicate holds and absent otherwise. *)
Definition fromPredicate (p : val → bool) (a : val) : option val :=
  if p a then Some a else None.

End O.

(** ** [Either] *)

Module E.

Inductive Either (E A : Type) : Type :=
  | left (e : E)
  | right (a : A).
Arguments left {E A} e.
Arguments right {E A} a.

(** Modelled from the spec: how [./ReadonlyRecord] reads a value handed to
    it where a result container is expected (an [as any] cast in the source),
    the "two-variant Result container": a failure when its tag says so, with
    the error it carries, and a success with the value it carries otherwise. *)
Definition as_either (y : val) : M (Either val val) :=
  let* t := get_prop y "_tag" in
  if is_str t "Left" then let* e := get_prop y "left" in ret (left e)
  else let* a := get_prop y "right" in ret (right a).

End E.

(** ** [Identity] *)

Module I.

(** Modelled from the spec: the identity ("no-op") effect; [map] applies
    the function and [ap] applies the function to the argument. *)
Definition Apply : Apply (λ A, A) := {|
  map A B f fa := f fa;
  ap A B fa fab := fab fa;
  as_effect v := ret v
|}.

End I.

(** ** [ReadonlyRecord] helpers used by [struct.ts] *)

Module R.

(** Modelled from the spec: [ReadonlyRecord.mapWithIndex] is imported, not
    part of [struct.ts].  It builds a new record holding [f(k, r[k])] for
    every own field [k] of [r] ("reconstructs a fresh struct", "only own,
    enumerable fields participate"). *)
Definition mapWithIndex (f : string → val → M val) (r : loc) : M loc :=
  let* out := alloc (literal ∅) in
  let* ks := object_keys r in
  for_of ks (λ k,
    let* v := get_prop (VRef r) k in
    let* y := f k v in
    define_prop (VRef out) k y) ;;
  ret out.

(** Modelled from the spec: [ReadonlyRecord.keys(O)], "the ordered sequence
    of field names from the Ordering Provider applied to the struct's own
    keys": [Object.keys(r)] sorted by [O]. *)
Definition keys (O : Ord) (r : loc) : M (list string) :=
  let* ks := object_keys r in
  ret (merge_sort (λ a b, compare O a b ≠ Gt) ks).

(** The location of the constant [empty] of [./ReadonlyRecord]. *)
Definition empty_loc : loc := 1.

(** Modelled from the spec: [ReadonlyRecord.traverseWithIndex], "a
    traversal through the abstract optional effect (ordering by field name
    via the Ordering Provider)": starting from [F.of({})], every key in order
    is combined in by [F.ap] of the accumulator mapped to a setter. *)
Definition traverseWithIndex (O : Ord) {F} (FA : Applicative F)
    (f : string → val → M (F val)) (ta : loc) : M (F val) :=
  let* ks := keys O ta in
  if bool_decide (length ks = 0) then ret (of_ FA (VRef empty_loc))
  else
    let* out := alloc (literal ∅) in
    fold_of ks (of_ FA (VRef out)) (λ fr key,
      let* v := get_prop (VRef ta) key in
      let* fb := f key v in
      let* fab := map FA (λ r, ret (λ b, define_prop r key b ;; ret r)) fr in
      ap FA fb fab).

(** Modelled from the spec: [ReadonlyRecord.partitionMapWithIndex]: every
    own field goes, by the outcome of [f], to the record of failures or to
    the record of successes. *)
Definition partitionMapWithIndex (f : string → val → M (E.Either val val))
    (r : loc) : M (loc * loc) :=
  let* l := alloc (literal ∅) in
  let* rt := alloc (literal ∅) in
  let* ks := object_keys r in
  for_of ks (λ k,
    let* v := get_prop (VRef r) k in
    let* e := f k v in
    match e with
    | E.left x => define_prop (VRef l) k x
    | E.right a => define_prop (VRef rt) k a
    end) ;;
  ret (l, rt).

(** Modelled from the spec: [ReadonlyRecord.partition(predicate)]:
    "partition fields" into those that fail the test ([left]) and those that
    pass it ([right]). *)
Definition partition (predicate : val → M bool) (r : loc) : M (loc * loc) :=
  let* l := alloc (literal ∅) in
  let* rt := alloc (literal ∅) in
  let* ks := object_keys r in
  for_of ks (λ k,
    let* v := get_prop (VRef r) k in
    let* b := predicate v in
    if b then define_prop (VRef rt) k v else define_prop (VRef l) k v) ;;
  ret (l, rt).

(** Modelled from the spec: [ReadonlyRecord.filterMap(f)]: "keep only those
    currently in the present state, with the field's value replaced by the
    unwrapped payload". *)
Definition filterMap (f : val → M val) (r : loc) : M loc :=
  let* out := alloc (literal ∅) in
  let* ks := object_keys r in
  for_of ks (λ k,
    let* v := get_prop (VRef r) k in
    let* ob := f v in
    let* present := O.isSome ob in
    if present then let* x := get_prop ob "value" in define_prop (VRef out) k x
    else ret tt) ;;
  ret out.

End R.

(** ** The first listing of [struct.ts] (since 3.0.0) *)

(** The callback of [evolve], lines 49-52: [fk ? fk(r) : r] for
    [fk = f[k]]. *)
Definition evolve_field (f : gmap string (val → val)) (k : string) (r : val) :
    M val :=
  match table_get f k with
  | Own fk => ret (fk r)
  | Inherited m => call_member m r
  | Absent => ret r
  end.

(** [evolve], lines 46-52. *)
Definition evolve (f : gmap string (val → val)) (a : loc) : M loc :=
  R.mapWithIndex (evolve_field f) a.

(** [pick], lines 68-83. *)
Definition pick (ks : list string) (x : loc) : M loc :=
  let* o := alloc (literal ∅) in
  for_of ks (λ k,
    let* v := get_prop (VRef x) k in
    set_prop (VRef o) k v) ;;
  ret o.

(** [omit], lines 98-113: a spread copy from which the keys are deleted. *)
Definition omit (ks : list string) (x : loc) : M loc :=
  let* y := alloc (literal ∅) in
  copy_own x y ;;
  for_of ks (λ k, delete_prop (VRef y) k) ;;
  ret y.

(** The callback of [refine], lines 141-144:
    [p !== undefined ? fromPredicate(p)(v) : some(v)] for [p = predicates[k]]. *)
Definition refine_field (predicates : gmap string (val → bool)) (k : string)
    (v : val) : M (option val) :=
  match table_get predicates k with
  | Own p => ret (O.fromPredicate p v)
  | Inherited m =>
      let* y := call_member m v in
      ret (if truthy y then Some v else None)
  | Absent => ret (Some v)
  end.

(** [refine], lines 137-144. *)
Definition refine (predicates : gmap string (val → bool)) (fa : loc) :
    M (option val) :=
  R.traverseWithIndex StringOrd O.Applicative (refine_field predicates) fa.

(** The callback of [parse], lines 182-191: [fk ? fk(v) : right(v)] for
    [fk = f[k]]; what an inherited member returns is read as a result
    container. *)
Definition parse_field (f : gmap string (val → E.Either val val)) (k : string)
    (v : val) : M (E.Either val val) :=
  match table_get f k with
  | Own fk => ret (fk v)
  | Inherited m => let* y := call_member m v in E.as_either y
  | Absent => ret (E.right v)
  end.

(** [parse], lines 176-193. *)
Definition parse (f : gmap string (val → E.Either val val)) (fa : loc) :
    M (E.Either val val) :=
  let* separated := R.partitionMapWithIndex (parse_field f) fa in
  let failed := separated.1 in
  let parsed := separated.2 in
  let* pks := object_keys parsed in
  let* fks := object_keys fa in
  if bool_decide (length pks = length fks)
  then ret (E.right (VRef parsed))
  else ret (E.left (VRef failed)).

(** [isOption], lines 195-198. *)
Definition isOption (a : val) : M bool :=
  match a with
  | VRef l =>
      let* o := read l in
      ret (obj_has o "_tag"
           && ((is_str (obj_get o "_tag") "Some"
                && obj_has o "value"
                && bool_decide (length (own_keys o) = 2))
               || is_str (obj_get o "_tag") "None"))
  | _ => ret false
  end.

(** [compactS], lines 221-229. *)
Definition compactS (r : loc) : M loc :=
  let* separated := R.partition isOption r in
  let l := separated.1 in
  let rt := separated.2 in
  let* res := alloc (literal ∅) in
  copy_own l res ;;
  let* kept := R.filterMap ret rt in
  copy_own kept res ;;
  ret res.

(** [unCompact], lines 248-259. *)
Definition unCompact (a : loc) : M loc :=
  let* ks := object_keys a in
  let* ops := alloc (literal ∅) in
  for_of ks (λ key,
    let* v := get_prop (VRef a) key in
    let* w := O.fromNullable v in
    set_prop (VRef ops) key w) ;;
  ret ops.

(** [traverseS], lines 377-421.  [ks[0]] of an empty key array is
    [undefined], which as a property key reads ["undefined"].  A handler is
    [fk = f[ks[i]]]; what is handed to the capability where an effect is
    expected (the raw first field, the value an inherited member returns) is
    read by [as_effect]. *)
Definition traverseS (O : Ord) {F} (FA : Apply F)
    (f : gmap string (val → F val)) (ta : loc) : M (F val) :=
  let* ks := R.keys O ta in
  let k0 := hd "undefined" ks in
  let* v0 := get_prop (VRef ta) k0 in
  let* fr0 := match table_get f k0 with
              | Own fk => ret (fk v0)
              | Inherited m => let* y := call_member m v0 in as_effect FA y
              | Absent => as_effect FA v0
              end in
  let* fr := map FA (λ r,
               let* l := alloc (literal {[ k0 := r ]}) in ret (VRef l)) fr0 in
  fold_of (tail ks) fr (λ fr k,
    match table_get f k with
    | Own fk =>
        let* v := get_prop (VRef ta) k in
        let fb := fk v in
        let* fab := map FA (λ r, ret (λ b, set_prop r k b ;; ret r)) fr in
        ap FA fb fab
    | Inherited m =>
        let* v := get_prop (VRef ta) k in
        let* y := call_member m v in
        let* fab := map FA (λ r, ret (λ b, set_prop r k b ;; ret r)) fr in
        let* fb := as_effect FA y in
        ap FA fb fab
    | Absent =>
        map FA (λ r,
          let* v := get_prop (VRef ta) k in
          set_prop r k v ;; ret r) fr
    end).

(** [getAssignSemigroup().concat], lines 445-447:
    [concat: (second) => (first) => Object.assign({}, first, second)]. *)
Definition concat (second first : loc) : M loc :=
  let* target := alloc (literal ∅) in
  assign_own first target ;;
  assign_own second target ;;
  ret target.

(** ** The second listing (since 2.11.0): variadic [pick]/[omit] and the
    do-notation helpers; its other combinators repeat the first listing. *)

Module Do.

(** [pick(...ks)], lines 516-533: the body of the first listing. *)
Definition pick (ks : list string) (x : loc) : M loc :=
  let* o := alloc (literal ∅) in
  for_of ks (λ k,
    let* v := get_prop (VRef x) k in
    set_prop (VRef o) k v) ;;
  ret o.

(** [omit(...ks)], lines 556-567: copies the keys not listed. *)
Definition omit (ks : list string) (obj : loc) : M loc :=
  let* result := alloc (literal ∅) in
  let* keys := object_keys obj in
  for_of keys (λ key,
    if bool_decide (key ∈ ks) then ret tt
    else let* v := get_prop (VRef obj) key in set_prop (VRef result) key v) ;;
  ret result.

(** [let], lines 897-906: [({ ...t, [key]: value })]. *)
Definition letFn (key : string) (value : val) (t : loc) : M loc :=
  let* res := alloc (literal ∅) in
  copy_own t res ;;
  define_prop (VRef res) key value ;;
  ret res.

(** [bind], lines 908-913: [({ ...obj, [key]: fn(obj) })].  The callback is
    a pure function of the object it is given. *)
Definition bind (key : string) (fn : obj → val) (o : loc) : M loc :=
  let* res := alloc (literal ∅) in
  copy_own o res ;;
  let* arg := read o in
  define_prop (VRef res) key (fn arg) ;;
  ret res.

(** [bindTo], lines 915-917. *)
Definition bindTo (key : string) (value : val) : M loc :=
  alloc (literal {[ key := value ]}).

(** [set], lines 919-930, and [setW], lines 932-945. *)
Definition set (key : string) (value : val) (o : loc) : M loc :=
  let* res := alloc (literal ∅) in
  copy_own o res ;;
  define_prop (VRef res) key value ;;
  ret res.

Definition setW (key : string) (value : val) (o : loc) : M loc :=
  set key value o.

End Do.

(** ** The third listing (since 2.10.0): editing one field *)

Module At.

(** [Functor<F>] in the uncurried style of this listing: [F.map(fa, f)]. *)
Record Functor (F : Type → Type) : Type := {
  fmap : ∀ {A B : Type}, F A → (A → M B) → M (F B)
}.
Arguments fmap {F} _ {A B} _ _.

(** Modelled from the spec: the [Functor] instance of [./Identity]. *)
Definition IDFunctor : Functor (λ A, A) := {| fmap A B fa f := f fa |}.

(** [pick], lines 1005-1017. *)
Definition pick (ks : list string) (x : loc) : M loc :=
  let* o := alloc (literal ∅) in
  for_of ks (λ k,
    let* v := get_prop (VRef x) k in
    set_prop (VRef o) k v) ;;
  ret o.

(** [omit], lines 1019-1031. *)
Definition omit (ks : list string) (x : loc) : M loc :=
  let* o := alloc (literal ∅) in
  let* keys := object_keys x in
  for_of keys (λ k,
    if bool_decide (k ∈ ks) then ret tt
    else let* v := get_prop (VRef x) k in set_prop (VRef o) k v) ;;
  ret o.



(** [renameAt], lines 1050-1065:
    [({ [from]: val, ...rest }) => ({ [to]: val, ...rest })]. *)
Definition renameAt (from to : string) (o : loc) : M loc :=
  let* v := get_prop (VRef o) from in
  let* rest := rest_without from o in
  let* res := alloc (literal ∅) in
  define_prop (VRef res) to v ;;
  copy_own rest res ;;
  ret res.

(** [mapAtE], lines 1103-1110:
    [F.map(a, ({ [prop]: input, ...rest }) => ({ [prop]: f(input), ...rest }))]. *)
Definition mapAtE {F} (FF : Functor F) (prop : string) (f : val → val)
    (a : F loc) : M (F loc) :=
  fmap FF a (λ o,
    let* input := get_prop (VRef o) prop in
    let* rest := rest_without prop o in
    let* res := alloc (literal ∅) in
    define_prop (VRef res) prop (f input) ;;
    copy_own rest res ;;
    ret res).

(** [mapAt], [modifyAt] and [updateAt], lines 1141-1183. *)
Definition mapAt (prop : string) (f : val → val) (a : loc) : M loc :=
  mapAtE IDFunctor prop f a.

Definition modifyAt (prop : string) (f : val → val) (o : loc) : M loc :=
  mapAt prop f o.

Definition updateAt (prop : string) (ap : val) (o : loc) : M loc :=
  modifyAt prop (λ _, ap) o.

End At.

(** ** Auxiliary definitions for the statements *)

(** *** Tables built by the loops *)

(** The table built by assigning [g k] to every key of a list in turn. *)
Definition assign_all (g : string → val) (ks : list string) (m : gmap string val) :
  gmap string val :=
  foldl (λ m k, <[k := g k]> m) m ks.

(** The table built by assigning [v] to [k] for the keys with [g k = Some v],
    leaving the other keys alone. *)
Definition assign_some (g : string → option val) (ks : list string)
    (m : gmap string val) : gmap string val :=
  foldl (λ m k, match g k with Some v => <[k := v]> m | None => m end) m ks.

(** The wrapping pass of [unCompact] over a list of keys: the table of the
    result and the wrappers allocated behind it, the result sitting at
    [length h]. *)
Definition wrap_step (h : heap) (o : obj) (k : string)
    (s : gmap string val * list obj) : gmap string val * list obj :=
  let v := obj_get o k in
  if nullish v then (<[k := O.none]> s.1, s.2)
  else (<[k := VRef (length h + S (length s.2))]> s.1, s.2 ++ [O.some_obj v]).

Definition wrap_all (h : heap) (o : obj) (ks : list string) :
    gmap string val * list obj :=
  foldl (λ s k, wrap_step h o k s) (∅, []) ks.

(** *** [parse] *)

(** The outcome of one field under a parser map: the parser's outcome, or an
    automatic success carrying the value when the field has no parser. *)
Definition field_outcome (f : gmap string (val → E.Either val val))
    (k : string) (v : val) : E.Either val val :=
  match f !! k with
  | Some fk => fk v
  | None => E.right v
  end.

Definition failure_of (e : E.Either val val) : option val :=
  match e with E.left x => Some x | E.right _ => None end.

Definition success_of (e : E.Either val val) : option val :=
  match e with E.left _ => None | E.right a => Some a end.

(** The error map and the parsed struct that [parse] builds. *)
Definition failures f (o : obj) : gmap string val :=
  map_imap (λ k v, failure_of (field_outcome f k v)) (own o).

Definition successes f (o : obj) : gmap string val :=
  map_imap (λ k v, success_of (field_outcome f k v)) (own o).

(** [parse] as the specification describes the alternative check: the same
    pass, with success decided by "error map is empty" instead of by the
    comparison of counts. *)
Definition parse_checking_errors (f : gmap string (val → E.Either val val))
    (fa : loc) : M (E.Either val val) :=
  let* separated := R.partitionMapWithIndex (parse_field f) fa in
  let failed := separated.1 in
  let parsed := separated.2 in
  let* eks := object_keys failed in
  if bool_decide (length eks = 0)
  then ret (E.right (VRef parsed))
  else ret (E.left (VRef failed)).

(** *** [isOption] and [compactS] *)

(** The shape test of [isOption] on the property table of an object. *)
Definition option_shaped (o : obj) : bool :=
  obj_has o "_tag"
  && ((is_str (obj_get o "_tag") "Some"
       && obj_has o "value"
       && bool_decide (size (own o) = 2))
      || is_str (obj_get o "_tag") "None").

(** Whether [isOption] recognises a value in a store. *)
Definition isOption_in (h : heap) (v : val) : bool :=
  match v with
  | VRef l => match h !! l with Some o => option_shaped o | None => false end
  | _ => false
  end.

(** What [filterMap(identity)] keeps of a value: the [value] of an object
    tagged ['Some'], nothing otherwise. *)
Definition unwrap_in (h : heap) (v : val) : option val :=
  match v with
  | VRef l =>
      match h !! l with
      | Some o => if is_str (obj_get o "_tag") "Some" then Some (obj_get o "value")
                  else None
      | None => None
      end
  | _ => None
  end.

(** The field of the result of [compactS] for a field holding [v]. *)
Definition compact_field (h : heap) (v : val) : option val :=
  if isOption_in h v then unwrap_in h v else Some v.

(** The reference-valued own fields of an object point into the store. *)
Definition allocated_val (h : heap) (v : val) : bool :=
  match v with
  | VRef l => bool_decide (l < length h)
  | _ => true
  end.

Definition fields_allocated (h : heap) (o : obj) : Prop :=
  map_Forall (λ _ v, allocated_val h v = true) (own o).

(** *** The operations [traverseS] performs on the capability *)

Module Spy.

(** The object in which the capability counts the calls made to it. *)
Definition counter (maps aps : nat) : obj :=
  literal {[ "map" := VNum (Z.of_nat maps); "ap" := VNum (Z.of_nat aps) ]}.

(** [c[op]++] *)
Definition count (c : loc) (op : string) : M unit :=
  let* n := get_prop (VRef c) op in
  match n with
  | VNum z => set_prop (VRef c) op (VNum (z + 1))
  | _ => ret tt
  end.

(** An effect of the capability: a value, and the fields whose handlers
    produced the effects combined into it, in the order of combination. *)
Definition Traced (A : Type) : Type := (list string * A)%type.

(** The identity effect, instrumented: every call of [map] and of [ap]
    counts itself in the object at [c] before it does anything else, whatever
    becomes of its result; [ap] sequences the effect of the function side
    first, as an applicative does. *)
Definition Apply (c : loc) : Apply Traced := {|
  map A B f fa := count c "map" ;; let* b := f fa.2 in ret (fa.1, b);
  ap A B fa fab := count c "ap" ;; let* b := fab.2 fa.2 in ret (fab.1 ++ fa.1, b);
  as_effect v := ret ([], v)
|}.

(** Handlers whose effect records the field it belongs to. *)
Definition handlers (g : gmap string (val → val)) :
    gmap string (val → Traced val) :=
  map_imap (λ k gk, Some (λ v, ([k], gk v))) g.

End Spy.

(** Whether a field has a handler of its own. *)
Definition handled {X} (g : gmap string X) (k : string) : bool :=
  bool_decide (is_Some (g !! k)).

(** Indexing the handler table finds, for every own field of the struct, a
    handler of the table's own or nothing: no field without a handler is
    named after a member of [Object.prototype]. *)
Definition own_handlers_only {X} (f : gmap string X) (o : obj) : Prop :=
  ∀ k, is_Some (own o !! k) → f !! k = None → Object_prototype !! k = None.

(** The structs on which indexing the handler table and assigning a field
    behave as on a plain map: no field is named [__proto__], and no field
    without a handler of its own is named after a member of
    [Object.prototype]. *)
Definition plain_struct {X} (f : gmap string X) (o : obj) : Prop :=
  own o !! "__proto__" = None ∧ own_handlers_only f o.

(** The store of the examples with a field named after a member of
    [Object.prototype]: [{toString: 1}] at 2, and at 3 the struct
    [{"__proto__": 5, foo: 1}] as [JSON.parse] builds it, with [__proto__] an
    own field. *)
Definition member_store : heap :=
  [ O.none_obj; literal ∅;
    literal {[ "toString" := VNum 1 ]};
    literal {[ "__proto__" := VNum 5; "foo" := VNum 1 ]} ].

(** *** [traverseS] under the optional effect *)

(** The value a field takes when every handler succeeds. *)
Definition resolved (f : gmap string (val → option val)) (o : obj) (k : string) : val :=
  match f !! k with
  | Some fk => default VUndefined (fk (obj_get o k))
  | None => obj_get o k
  end.

(** The accumulator of [traverseS] under the optional effect: nothing
    allocated and absent (the first handler returned absence), a partial
    struct abandoned after an absence, or a partial struct under way. *)
Inductive progress : Type :=
  | Unseeded
  | Abandoned (m : gmap string val)
  | Going (m : gmap string val).

Definition progress_store (h : heap) (t : progress) : heap :=
  match t with
  | Unseeded => h
  | Abandoned m | Going m => h ++ [literal m]
  end.

Definition progress_effect (h : heap) (t : progress) : option val :=
  match t with
  | Going _ => Some (VRef (length h))
  | _ => None
  end.

Definition progress_step (f : gmap string (val → option val)) (o : obj)
    (k : string) (t : progress) : progress :=
  match t with
  | Going m =>
      match f !! k with
      | Some fk =>
          match fk (obj_get o k) with
          | Some b => Going (<[k := b]> m)
          | None => Abandoned m
          end
      | None => Going (<[k := obj_get o k]> m)
      end
  | _ => t
  end.

(** *** What a run leaves of the initial store *)

(** [frames I Q r]: the run [r], whether it returned or threw, ends in a
    store that satisfies [I], and a returned result satisfies [Q].  With [I]
    the stores of which [h] is a prefix, every object of [h] is still there,
    unchanged. *)
Definition frames {A} (I : heap → Prop) (Q : A → Prop) (r : outcome A) : Prop :=
  I (final r) ∧ ∀ a h', r = Ret a h' → Q a.

(** A reference to an object allocated after the store [h]. *)
Definition new_in (h : heap) (v : val) : Prop :=
  ∃ l, v = VRef l ∧ length h ≤ l.

(** A capability touches the store only through the callbacks it is given,
    and feeds them only values carried by the effects it is given: [all P fa]
    says that every value carried by [fa] satisfies [P]; an invariant [I] of
    the store and a property of the carried values that the callbacks maintain
    are maintained by [map] and [ap]. *)
Record Frames {F : Type → Type} (FA : Apply F)
    (all : ∀ A : Type, (A → Prop) → F A → Prop) : Prop := {
  map_frames : ∀ (A B : Type) (I : heap → Prop) (P : A → Prop) (Q : B → Prop)
      (f : A → M B) (fa : F A) (h : heap),
    (∀ a h1, P a → I h1 → frames I Q (f a h1)) →
    all A P fa → I h →
    frames I (all B Q) (map FA f fa h);
  ap_frames : ∀ (A B : Type) (I : heap → Prop) (P : A → Prop) (Q : B → Prop)
      (fa : F A) (fab : F (A → M B)) (h : heap),
    all A P fa →
    all (A → M B) (λ g, ∀ a h1, P a → I h1 → frames I Q (g a h1)) fab →
    I h →
    frames I (all B Q) (ap FA fa fab h);
  as_effect_frames : ∀ (I : heap → Prop) (v : val) (h : heap),
    I h → frames I (all val (λ _, True)) (as_effect FA v h);
  all_True : ∀ (A : Type) (fa : F A), all A (λ _, True) fa;
  all_mono : ∀ (A : Type) (P Q : A → Prop) (fa : F A),
    (∀ a, P a → Q a) → all A P fa → all A Q fa
}.



(** *** The stores and handlers of the examples *)

(** The store of the semigroup example: [{foo: 123, bar: '456'}] at 2 and
    [{bar: '123'}] at 3. *)
Definition assign_store : heap :=
  [ O.none_obj; literal ∅;
    literal {[ "foo" := VNum 123; "bar" := VStr "456" ]};
    literal {[ "bar" := VStr "123" ]} ].


(** The store and the parsers of the documented example of [parse]:
    [{a: 'b', b: 1, c: 'abc'}] at 2; [a] must be ['a'], [b] must be [1]. *)
Definition parse_store : heap :=
  [ O.none_obj; literal ∅;
    literal {[ "a" := VStr "b"; "b" := VNum 1; "c" := VStr "abc" ]} ].

Definition parse_parsers : gmap string (val → E.Either val val) :=
  {[ "a" := λ v, if is_str v "a" then E.right (VNum 1) else E.left (VStr "Not 'a'");
     "b" := λ v, match v with
                 | VNum 1 => E.right (VStr "a")
                 | _ => E.left (VNum 42)
                 end ]}.

(** The store of the recognition examples.  The struct at 6 holds a number
    and references to: [none]; an object tagged ['None'] that carries a
    payload; an object tagged ['Some'] with two own keys whose [value] is
    inherited; an object tagged ['Some'] with three own keys. *)
Definition shape_store : heap :=
  [ O.none_obj; literal ∅;
    literal {[ "_tag" := VStr "None"; "payload" := VNum 7 ]};
    Obj {[ "_tag" := VStr "Some"; "x" := VNum 1 ]} {[ "value" := VNum 5 ]} true;
    literal {[ "_tag" := VStr "Some"; "value" := VNum 1; "extra" := VNum 2 ]};
    O.some_obj (VStr "abc");
    literal {[ "n" := VNum 22; "tagged" := VRef 2; "inh" := VRef 3;
               "three" := VRef 4; "baz" := VRef 5; "foo" := O.none ]} ].

(** The store of the documented example of [unCompact]:
    [{foo: 123, bar: undefined, baz: 'abc'}] at 2. *)
Definition nullable_store : heap :=
  [ O.none_obj; literal ∅;
    literal {[ "foo" := VNum 123; "bar" := VUndefined; "baz" := VStr "abc" ]} ].

(** The store of the two-field examples of [traverseS]: [{a: 1, b: 2}] at 2
    and [{a: null, b: 1}] at 3. *)
Definition traverse_store : heap :=
  [ O.none_obj; literal ∅;
    literal {[ "a" := VNum 1; "b" := VNum 2 ]};
    literal {[ "a" := VNull; "b" := VNum 1 ]} ].

(** The store and handlers of the first-field examples: on [{a: 1, b: 2}]
    only [b] has a handler, which succeeds; on [{a: null, b: 1}] only [b] has
    a handler, which returns absence. *)
Definition increment_b : gmap string (val → option val) :=
  {[ "b" := λ v, match v with
                 | VNum n => Some (VNum (n + 1))
                 | _ => None
                 end ]}.

Definition absent_b : gmap string (val → option val) :=
  {[ "b" := λ _, None ]}.

(** The value [evolve] gives a field. *)
Definition evolved (f : gmap string (val → val)) (k : string) (v : val) : val :=
  match f !! k with
  | Some fk => fk v
  | None => v
  end.

(** The stores of the documented examples of [evolve]: [{a: 'a', b: true, c:
    'abc'}] at 2, and at 3 an object created from the prototype [{a: 1}] with
    the own field [b: 1]. *)
Definition evolve_store : heap :=
  [ O.none_obj; literal ∅;
    literal {[ "a" := VStr "a"; "b" := VBool true; "c" := VStr "abc" ]};
    Obj {[ "b" := VNum 1 ]} {[ "a" := VNum 1 ]} true ].

Definition evolve_handlers : gmap string (val → val) :=
  {[ "a" := λ v, match v with
                 | VStr s => VNum (Z.of_nat (String.length s))
                 | _ => VUndefined
                 end;
     "b" := λ v, match v with
                 | VBool b => VBool (negb b)
                 | _ => VUndefined
                 end ]}.

(** Whether the field [k] passes its predicate, a field without a predicate
    passing. *)
Definition refine_pass (predicates : gmap string (val → bool)) (o : obj)
    (k : string) : bool :=
  match predicates !! k with
  | Some p => p (obj_get o k)
  | None => true
  end.

(** One step of the pass of [refine]: whether every field so far passed, and
    the copy built so far. *)
Definition refine_step (predicates : gmap string (val → bool)) (o : obj)
    (k : string) (t : bool * gmap string val) : bool * gmap string val :=
  if t.1 then
    if refine_pass predicates o k then (true, <[k := obj_get o k]> t.2)
    else (false, t.2)
  else (false, t.2).

(** The store and the predicates of the documented example of [refine]:
    [{a: 'a', b: 1, c: 'abc'}] at 2 and [{a: 'a', b: 2}] at 3; [a] must be
    ['a'] and [b] must be [1]. *)
Definition refine_store : heap :=
  [ O.none_obj; literal ∅;
    literal {[ "a" := VStr "a"; "b" := VNum 1; "c" := VStr "abc" ]};
    literal {[ "a" := VStr "a"; "b" := VNum 2 ]} ].

Definition refine_predicates : gmap string (val → bool) :=
  {[ "a" := λ v, is_str v "a";
     "b" := λ v, match v with VNum 1 => true | _ => false end ]}.

(** Whether the handler of the field [k] returns absence. *)
Definition handler_absent (f : gmap string (val → option val)) (o : obj)
    (k : string) : bool :=
  match f !! k with
  | Some fk => match fk (obj_get o k) with None => true | Some _ => false end
  | None => false
  end.

(** Handlers under the optional effect that accept numbers only, for the
    fields [a] and [b]. *)
Definition numbers_only : gmap string (val → option val) :=
  {[ "a" := λ v, match v with VNum _ => Some v | _ => None end;
     "b" := λ v, match v with VNum _ => Some v | _ => None end ]}.

(** The values that are neither objects nor nullish. *)
Definition primitive (v : val) : bool :=
  match v with
  | VBool _ | VNum _ | VStr _ => true
  | _ => false
  end.

(** One later field, on the counts, the combined effects and the table. *)
Definition spy_step (g : gmap string (val → val)) (o : obj) (k : string)
    (t : nat * nat * list string * gmap string val) :
    nat * nat * list string * gmap string val :=
  let '(n, a, runs, m) := t in
  match g !! k with
  | Some gk => (S n, S a, runs ++ [k], <[k := gk (obj_get o k)]> m)
  | None => (S n, a, runs, <[k := obj_get o k]> m)
  end.

(** ** Reasoning about store programs *)

Lemma bind_Ret {A B} (m : M A) (k : A → M B) h a h' :
  m h = Ret a h' → bind m k h = k a h'.
Proof. intros E. unfold bind. by rewrite E. Qed.

Lemma read_Ret l o (h : heap) : h !! l = Some o → read l h = Ret o h.
Proof. intros E. unfold read. by rewrite E. Qed.

Lemma get_prop_ref l o k (h : heap) :
  h !! l = Some o → get_prop (VRef l) k h = Ret (obj_get o k) h.
Proof. intros E. simpl. by rewrite (bind_Ret _ _ _ _ _ (read_Ret _ _ _ E)). Qed.

Lemma define_prop_ref l o k x (h : heap) :
  h !! l = Some o → define_prop (VRef l) k x h = Ret tt (<[l := obj_set o k x]> h).
Proof.
  intros E. simpl. rewrite (bind_Ret _ _ _ _ _ (read_Ret _ _ _ E)).
  unfold write. by rewrite E.
Qed.

(** An assignment to a key other than [__proto__] defines the property. *)
Lemma set_prop_ref l o k x (h : heap) :
  h !! l = Some o → k ≠ "__proto__" →
  set_prop (VRef l) k x h = Ret tt (<[l := obj_set o k x]> h).
Proof.
  intros E Hk. unfold set_prop. rewrite (bind_Ret _ _ _ _ _ (read_Ret _ _ _ E)).
  rewrite bool_decide_false by done. cbn [andb]. unfold write. by rewrite E.
Qed.

Lemma delete_prop_ref l o k (h : heap) :
  h !! l = Some o → delete_prop (VRef l) k h = Ret tt (<[l := obj_delete o k]> h).
Proof.
  intros E. simpl. rewrite (bind_Ret _ _ _ _ _ (read_Ret _ _ _ E)).
  unfold write. by rewrite E.
Qed.

Lemma object_keys_Ret l o (h : heap) :
  h !! l = Some o → object_keys l h = Ret (own_keys o) h.
Proof. intros E. unfold object_keys. by rewrite (bind_Ret _ _ _ _ _ (read_Ret _ _ _ E)). Qed.

Arguments get_prop : simpl never.
Arguments define_prop : simpl never.
Arguments set_prop : simpl never.
Arguments call_member : simpl never.
Arguments delete_prop : simpl never.
Arguments alloc : simpl never.
Arguments read : simpl never.
Arguments write : simpl never.
Arguments object_keys : simpl never.

(** A loop establishes an invariant indexed by the elements already visited. *)
Lemma for_of_inv {A} (I : list A → heap → Prop) (xs : list A) (body : A → M unit) h :
  I [] h →
  (∀ pre x post h1, xs = pre ++ x :: post → I pre h1 →
     ∃ h2, body x h1 = Ret tt h2 ∧ I (pre ++ [x]) h2) →
  ∃ h', for_of xs body h = Ret tt h' ∧ I xs h'.
Proof.
  revert I h. induction xs as [|x xs IH]; intros I h H0 Hstep.
  - exists h. done.
  - destruct (Hstep [] x xs h eq_refl H0) as (h2 & Hb & HI).
    destruct (IH (λ pre, I (x :: pre)) h2 HI) as (h' & Hl & HI').
    { intros pre y post h1 -> Hpre.
      apply (Hstep (x :: pre) y post h1); done. }
    exists h'. split; [|done].
    simpl. by rewrite (bind_Ret _ _ _ _ _ Hb).
Qed.

(** Lookups and writes in the freshly allocated tail of a store. *)
Lemma lookup_fresh (h fr : heap) i : (h ++ fr) !! (length h + i) = fr !! i.
Proof. rewrite lookup_app_r by lia. f_equal. lia. Qed.

Lemma lookup_old (h fr : heap) l o : h !! l = Some o → (h ++ fr) !! l = Some o.
Proof. intros E. by apply lookup_app_l_Some. Qed.

Lemma insert_fresh (h fr : heap) i o :
  <[length h + i := o]> (h ++ fr) = h ++ <[i := o]> fr.
Proof. apply insert_app_r. Qed.

Lemma own_keys_elem (o : obj) k : k ∈ own_keys o ↔ is_Some (own o !! k).
Proof.
  unfold own_keys. rewrite list_elem_of_fmap. split.
  - intros ([k' v] & -> & Hin). apply elem_of_map_to_list in Hin. eauto.
  - intros [v Hv]. exists (k, v). split; [done|]. by apply elem_of_map_to_list.
Qed.

Lemma obj_get_own (o : obj) k v : own o !! k = Some v → obj_get o k = v.
Proof. intros E. unfold obj_get. by rewrite E. Qed.

Lemma assign_all_snoc g ks k m :
  assign_all g (ks ++ [k]) m = <[k := g k]> (assign_all g ks m).
Proof. unfold assign_all. by rewrite foldl_app. Qed.

Lemma assign_all_lookup g ks m k :
  assign_all g ks m !! k = if decide (k ∈ ks) then Some (g k) else m !! k.
Proof.
  revert k. induction ks as [|k' ks' IH] using rev_ind; intros k.
  - case_decide as Hk; [by apply elem_of_nil in Hk|done].
  - assert (Hin : k ∈ ks' ++ [k'] ↔ k ∈ ks' ∨ k = k').
    { by rewrite elem_of_app, list_elem_of_singleton. }
    rewrite assign_all_snoc. destruct (decide (k' = k)) as [->|Hne].
    + rewrite lookup_insert_eq. by rewrite decide_True by (apply Hin; by right).
    + rewrite lookup_insert_ne by done. rewrite IH.
      destruct (decide (k ∈ ks')) as [H1|H1], (decide (k ∈ ks' ++ [k'])) as [H2|H2];
        try done.
      * exfalso. apply H2, Hin. by left.
      * exfalso. apply Hin in H2 as [?|?]; [done|]. by apply Hne.
Qed.

Lemma assign_all_own_keys (o : obj) (g : string → val → val) :
  assign_all (λ k, g k (obj_get o k)) (own_keys o) ∅
  = map_imap (λ k v, Some (g k v)) (own o).
Proof.
  apply map_eq. intros k. rewrite assign_all_lookup, map_lookup_imap.
  rewrite lookup_empty. case_decide as Hk.
  - apply own_keys_elem in Hk as [v Hv]. rewrite Hv. simpl.
    by rewrite (obj_get_own _ _ _ Hv).
  - destruct (own o !! k) eqn:E; [|done].
    exfalso. apply Hk, own_keys_elem. eauto.
Qed.

(** A key of [Object.keys] is an own key, and reads its own value. *)
Lemma own_keys_get (o : obj) k :
  k ∈ own_keys o → own o !! k = Some (obj_get o k).
Proof.
  intros Hk. apply own_keys_elem in Hk as [v Hv]. by rewrite (obj_get_own _ _ _ Hv).
Qed.

Lemma mapWithIndex_spec (f : string → val → M val) (g : string → val → val)
    (h : heap) r o :
  h !! r = Some o →
  (∀ k v h1, own o !! k = Some v → f k v h1 = Ret (g k v) h1) →
  R.mapWithIndex f r h
  = Ret (length h) (h ++ [literal (map_imap (λ k v, Some (g k v)) (own o))]).
Proof.
  intros Hr Hf. unfold R.mapWithIndex.
  rewrite (bind_Ret _ _ _ (length h) (h ++ [literal ∅])) by done.
  assert (Hr' : (h ++ [literal ∅]) !! r = Some o) by by apply lookup_old.
  rewrite (bind_Ret _ _ _ _ _ (object_keys_Ret _ _ _ Hr')).
  destruct (for_of_inv
    (λ pre h', h' = h ++ [literal (assign_all (λ k, g k (obj_get o k)) pre ∅)])
    (own_keys o)
    (λ k, let* v := get_prop (VRef r) k in
          let* y := f k v in define_prop (VRef (length h)) k y)
    (h ++ [literal ∅])) as (h' & Hloop & ->).
  - done.
  - intros pre x post h1 Hxs ->.
    assert (Hx : x ∈ own_keys o).
    { rewrite Hxs. apply elem_of_app. right. by left. }
    eexists. split; [|reflexivity].
    rewrite (bind_Ret _ _ _ _ _ (get_prop_ref _ _ _ _ (lookup_old _ _ _ _ Hr))).
    rewrite (bind_Ret _ _ _ _ _ (Hf _ _ _ (own_keys_get _ _ Hx))).
    erewrite define_prop_ref.
    2:{ rewrite <- (Nat.add_0_r (length h)). by rewrite lookup_fresh. }
    rewrite <- (Nat.add_0_r (length h)) at 1. rewrite insert_fresh. simpl.
    by rewrite assign_all_snoc.
  - rewrite (bind_Ret _ _ _ _ _ Hloop). unfold ret.
    by rewrite (assign_all_own_keys o g).
Qed.

(** A loop whose body acts on the store through an abstraction [emb] of the
    part it changes computes the fold of the abstract steps. *)
Lemma for_of_abs {A S} (emb : S → heap) (step : A → S → S) (xs : list A)
    (body : A → M unit) (s : S) :
  (∀ x s', x ∈ xs → body x (emb s') = Ret tt (emb (step x s'))) →
  for_of xs body (emb s) = Ret tt (emb (foldl (λ s' x, step x s') s xs)).
Proof.
  revert s. induction xs as [|x xs IH]; intros s Hbody; [done|].
  simpl. rewrite (bind_Ret _ _ _ tt (emb (step x s))).
  - apply IH. intros y s' Hy. apply Hbody. by right.
  - apply Hbody. by left.
Qed.

Lemma alloc_fresh o (h fr : heap) :
  alloc o (h ++ fr) = Ret (length h + length fr) (h ++ (fr ++ [o])).
Proof. unfold alloc. by rewrite length_app, app_assoc. Qed.

Lemma alloc_first o (h : heap) : alloc o h = Ret (length h) (h ++ [o]).
Proof. done. Qed.

Lemma lookup_fresh0 (h : heap) o fr : (h ++ o :: fr) !! length h = Some o.
Proof. by rewrite list_lookup_middle. Qed.

Lemma insert_fresh0 (h : heap) o o' fr :
  <[length h := o']> (h ++ o :: fr) = h ++ o' :: fr.
Proof. rewrite <- (Nat.add_0_r (length h)). by rewrite insert_fresh. Qed.

Lemma lookup_fresh1 (h : heap) o1 o fr : (h ++ o1 :: o :: fr) !! S (length h) = Some o.
Proof. rewrite <- Nat.add_1_r. by rewrite lookup_fresh. Qed.

Lemma insert_fresh1 (h : heap) o1 o o' fr :
  <[S (length h) := o']> (h ++ o1 :: o :: fr) = h ++ o1 :: o' :: fr.
Proof. rewrite <- Nat.add_1_r. by rewrite insert_fresh. Qed.

(** Assigning the own fields of [os] over a table. *)
Lemma assign_all_union (os : obj) (m : gmap string val) :
  assign_all (obj_get os) (own_keys os) m = own os ∪ m.
Proof.
  apply map_eq. intros k. rewrite assign_all_lookup. case_decide as Hk.
  - apply own_keys_elem in Hk as [v Hv].
    rewrite (obj_get_own _ _ _ Hv). symmetry. by apply lookup_union_Some_l.
  - rewrite lookup_union_r; [done|].
    destruct (own os !! k) eqn:E; [|done]. exfalso. apply Hk, own_keys_elem. eauto.
Qed.

(** [copy_own] into an object other than the source. *)
Lemma copy_own_spec (h : heap) src dst os od :
  h !! src = Some os → h !! dst = Some od → src ≠ dst →
  copy_own src dst h = Ret tt (<[dst := Obj (own os ∪ own od) (inherited od) (ordinary od)]> h).
Proof.
  intros Hs Hd Hne. unfold copy_own.
  rewrite (bind_Ret _ _ _ _ _ (object_keys_Ret _ _ _ Hs)).
  assert (Hlt : dst < length h) by (by eapply lookup_lt_Some).
  pose (emb := λ m : gmap string val, <[dst := Obj m (inherited od) (ordinary od)]> h).
  assert (Hh : h = emb (own od)).
  { unfold emb. symmetry. apply list_insert_id. by destruct od. }
  rewrite Hh at 1.
  rewrite (for_of_abs emb (λ k m, <[k := obj_get os k]> m)).
  - unfold emb. do 3 f_equal. apply (assign_all_union os (own od)).
  - intros k m _. unfold emb.
    rewrite (bind_Ret _ _ _ (obj_get os k) (<[dst := Obj m (inherited od) (ordinary od)]> h)).
    2:{ apply get_prop_ref. by rewrite list_lookup_insert_ne. }
    erewrite define_prop_ref by (by apply list_lookup_insert_eq).
    by rewrite list_insert_insert_eq.
Qed.

(** The same, for a destination in the freshly allocated part of the store. *)
Lemma copy_own_fresh (h : heap) src os pre od post :
  h !! src = Some os →
  copy_own src (length h + length pre) (h ++ pre ++ od :: post)
  = Ret tt (h ++ pre ++ Obj (own os ∪ own od) (inherited od) (ordinary od) :: post).
Proof.
  intros Hs.
  assert (Hd : (h ++ pre ++ od :: post) !! (length h + length pre) = Some od).
  { rewrite lookup_fresh. by rewrite list_lookup_middle. }
  rewrite (copy_own_spec _ src _ os od); [| by apply lookup_old | done |].
  - rewrite insert_fresh. do 2 f_equal.
    rewrite <- (Nat.add_0_r (length pre)). by rewrite insert_app_r.
  - apply lookup_lt_Some in Hs. lia.
Qed.

(** ** [getAssignSemigroup] *)

Lemma set_prop_define v k x (h : heap) :
  k ≠ "__proto__" → set_prop v k x h = define_prop v k x h.
Proof.
  intros Hk. destruct v; try done. unfold set_prop, define_prop, bind.
  destruct (read l h); [|done]. by rewrite bool_decide_false by done.
Qed.

Lemma for_of_ext {A} (xs : list A) (body1 body2 : A → M unit) (h : heap) :
  (∀ x h1, x ∈ xs → body1 x h1 = body2 x h1) →
  for_of xs body1 h = for_of xs body2 h.
Proof.
  revert h. induction xs as [|x xs IH]; intros h Hb; [done|].
  cbn [for_of]. unfold bind. rewrite (Hb x h) by by left.
  destruct (body2 x h); [|done]. apply IH. intros y h1 Hy. apply Hb. by right.
Qed.

(** From a source without an own field [__proto__], [Object.assign] copies
    what a spread copies. *)
Lemma assign_own_copy (h : heap) src dst os :
  h !! src = Some os → own os !! "__proto__" = None →
  assign_own src dst h = copy_own src dst h.
Proof.
  intros Hs Hp. unfold assign_own, copy_own.
  rewrite !(bind_Ret _ _ _ _ _ (object_keys_Ret _ _ _ Hs)).
  apply for_of_ext. intros k h1 Hk. unfold bind.
  destruct (get_prop (VRef src) k h1); [|done].
  apply set_prop_define. intros ->.
  apply own_keys_elem in Hk as [v Hv]. congruence.
Qed.

Lemma concat_spec (h : heap) x y ox oy :
  h !! x = Some ox → h !! y = Some oy →
  own ox !! "__proto__" = None → own oy !! "__proto__" = None →
  concat x y h = Ret (length h) (h ++ [literal (own ox ∪ own oy)]).
Proof.
  intros Hx Hy Hpx Hpy. unfold concat.
  rewrite (bind_Ret _ _ _ _ _ (alloc_first _ h)).
  pose proof (copy_own_fresh h y oy [] (literal ∅) [] Hy) as C1.
  simpl in C1. rewrite Nat.add_0_r in C1.
  rewrite <- (assign_own_copy _ y _ oy) in C1; [|by apply lookup_old|done].
  rewrite (bind_Ret _ _ _ _ _ C1).
  pose proof (copy_own_fresh h x ox [] (Obj (own oy ∪ ∅) ∅ true) [] Hx) as C2.
  simpl in C2. rewrite Nat.add_0_r in C2.
  rewrite <- (assign_own_copy _ x _ ox) in C2; [|by apply lookup_old|done].
  rewrite (bind_Ret _ _ _ _ _ C2).
  unfold ret, literal. by rewrite (right_id_L ∅ (∪)).
Qed.

(** C4 (as amended): for structs without an own field named [__proto__],
    [getAssignSemigroup().concat(x)(y)] is a shallow merge into a new object
    in which the fields of [x], the argument applied first (the parameter the
    source names [second]), win on a key collision: a key of the result holds
    the value of [x] if [x] has the key and the value of [y] otherwise. *)
Theorem concat_first_applied_wins (h : heap) x y ox oy :
  h !! x = Some ox → h !! y = Some oy →
  own ox !! "__proto__" = None → own oy !! "__proto__" = None →
  ∃ o, concat x y h = Ret (length h) (h ++ [o])
       ∧ inherited o = ∅
       ∧ ∀ k, own o !! k = match own ox !! k with
                            | Some v => Some v
                            | None => own oy !! k
                            end.
Proof.
  intros Hx Hy Hpx Hpy. exists (literal (own ox ∪ own oy)).
  split; [by apply concat_spec|]. split; [done|].
  intros k. simpl. rewrite lookup_union. by destruct (own ox !! k), (own oy !! k).
Qed.

Lemma concat_first_applied_wins_witness :
  ∃ o, concat 3 2 assign_store = Ret 4 (assign_store ++ [o])
       ∧ inherited o = ∅
       ∧ ∀ k, own o !! k = match ({[ "bar" := VStr "123" ]} : gmap string val) !! k with
                            | Some v => Some v
                            | None => ({[ "foo" := VNum 123; "bar" := VStr "456" ]}
                                         : gmap string val) !! k
                            end.
Proof.
  exact (concat_first_applied_wins assign_store 3 2
           (literal {[ "bar" := VStr "123" ]})
           (literal {[ "foo" := VNum 123; "bar" := VStr "456" ]})
           eq_refl eq_refl eq_refl eq_refl).
Defined.

(** C4 (as stated) fails on its own example: [concat({foo: 123, bar:
    '456'})({bar: '123'})] does not yield [{foo: 123, bar: '123'}]; the
    result keeps [bar: '456']. *)
Lemma concat_example_keeps_first_applied :
  ¬ (∃ l h' o, concat 2 3 assign_store = Ret l h'
               ∧ h' !! l = Some o
               ∧ own o = {[ "foo" := VNum 123; "bar" := VStr "123" ]})
  ∧ (∃ l h' o, concat 2 3 assign_store = Ret l h'
               ∧ h' !! l = Some o
               ∧ own o = {[ "foo" := VNum 123; "bar" := VStr "456" ]}).
Proof.
  assert (E : concat 2 3 assign_store
              = Ret 4 (assign_store
                       ++ [literal {[ "foo" := VNum 123; "bar" := VStr "456" ]}])).
  { by vm_compute. }
  split.
  - intros (l & h' & o & E' & Ho & Hown). rewrite E in E'.
    injection E' as <- <-. injection Ho as <-.
    apply (f_equal (λ m : gmap string val, m !! "bar")) in Hown.
    vm_compute in Hown. discriminate.
  - eexists _, _, _. split; [exact E|]. split; reflexivity.
Qed.

Lemma assign_some_lookup g ks m k :
  assign_some g ks m !! k
  = if decide (k ∈ ks) then match g k with Some v => Some v | None => m !! k end
    else m !! k.
Proof.
  revert k. induction ks as [|k' ks' IH] using rev_ind; intros k.
  - case_decide as Hk; [by apply elem_of_nil in Hk|done].
  - unfold assign_some in *. rewrite foldl_app. simpl.
    assert (Hin : k ∈ ks' ++ [k'] ↔ k ∈ ks' ∨ k = k').
    { rewrite elem_of_app, list_elem_of_singleton. done. }
    destruct (decide (k = k')) as [->|Hne].
    + rewrite decide_True by (apply Hin; by right).
      destruct (g k') as [v|] eqn:Eg.
      * by rewrite lookup_insert_eq.
      * rewrite IH, Eg. by case_decide.
    + assert (Hl : (match g k' with
                    | Some v => <[k' := v]> (foldl (λ m0 k0, match g k0 with
                          | Some v0 => <[k0 := v0]> m0 | None => m0 end) m ks')
                    | None => foldl (λ m0 k0, match g k0 with
                          | Some v0 => <[k0 := v0]> m0 | None => m0 end) m ks'
                    end) !! k
                   = foldl (λ m0 k0, match g k0 with
                          | Some v0 => <[k0 := v0]> m0 | None => m0 end) m ks' !! k).
      { destruct (g k'); [by rewrite lookup_insert_ne|done]. }
      rewrite Hl, IH.
      destruct (decide (k ∈ ks')) as [H1|H1], (decide (k ∈ ks' ++ [k'])) as [H2|H2];
        try done.
      * exfalso. apply H2, Hin. by left.
      * exfalso. apply Hin in H2 as [?|?]; done.
Qed.

Lemma assign_some_own_keys (o : obj) (g : string → val → option val) :
  assign_some (λ k, g k (obj_get o k)) (own_keys o) ∅ = map_imap g (own o).
Proof.
  apply map_eq. intros k. rewrite assign_some_lookup, map_lookup_imap.
  rewrite lookup_empty. case_decide as Hk.
  - apply own_keys_elem in Hk as [v Hv]. rewrite Hv. simpl.
    rewrite (obj_get_own _ _ _ Hv). by destruct (g k v).
  - destruct (own o !! k) eqn:E; [|done].
    exfalso. apply Hk, own_keys_elem. eauto.
Qed.

Lemma foldl_pair {A S1 S2} (f1 : A → S1 → S1) (f2 : A → S2 → S2) xs s1 s2 :
  foldl (λ s x, (f1 x s.1, f2 x s.2)) (s1, s2) xs
  = (foldl (λ s x, f1 x s) s1 xs, foldl (λ s x, f2 x s) s2 xs).
Proof. revert s1 s2. induction xs as [|x xs IH]; intros s1 s2; [done|]. simpl. apply IH. Qed.

(** ** The do-notation helpers *)

Lemma letFn_spec (h : heap) key value t ot :
  h !! t = Some ot →
  Do.letFn key value t h = Ret (length h) (h ++ [literal (<[key := value]> (own ot))]).
Proof.
  intros Ht. unfold Do.letFn.
  rewrite (bind_Ret _ _ _ _ _ (alloc_first _ h)).
  pose proof (copy_own_fresh h t ot [] (literal ∅) [] Ht) as C.
  simpl in C. rewrite Nat.add_0_r in C. rewrite (bind_Ret _ _ _ _ _ C).
  erewrite bind_Ret; [|apply define_prop_ref, lookup_fresh0].
  rewrite insert_fresh0. unfold ret, obj_set, literal. simpl.
  by rewrite (right_id_L ∅ (∪)).
Qed.

Lemma bind_spec (h : heap) key fn o oo :
  h !! o = Some oo →
  Do.bind key fn o h = Ret (length h) (h ++ [literal (<[key := fn oo]> (own oo))]).
Proof.
  intros Ho. unfold Do.bind.
  rewrite (bind_Ret _ _ _ _ _ (alloc_first _ h)).
  pose proof (copy_own_fresh h o oo [] (literal ∅) [] Ho) as C.
  simpl in C. rewrite Nat.add_0_r in C. rewrite (bind_Ret _ _ _ _ _ C).
  erewrite bind_Ret; [|apply read_Ret, lookup_old, Ho].
  erewrite bind_Ret; [|apply define_prop_ref, lookup_fresh0].
  rewrite insert_fresh0. unfold ret, obj_set, literal. simpl.
  by rewrite (right_id_L ∅ (∪)).
Qed.

(** ** [parse] *)

(** Where no own field is named after a member of [Object.prototype]
    unless it has a handler of its own, indexing the table finds the own
    handler or nothing. *)
Lemma table_get_own {X} (f : gmap string X) (o : obj) k v :
  own_handlers_only f o → own o !! k = Some v →
  table_get f k = match f !! k with Some fk => Own fk | None => Absent end.
Proof.
  intros Hf Hv. unfold table_get. destruct (f !! k) eqn:E; [done|].
  by rewrite (Hf k) by eauto.
Qed.

Lemma partitionMapWithIndex_spec (cb : string → val → M (E.Either val val))
    (g : string → val → E.Either val val) (h : heap) r o :
  h !! r = Some o →
  (∀ k v h1, own o !! k = Some v → cb k v h1 = Ret (g k v) h1) →
  R.partitionMapWithIndex cb r h
  = Ret (length h, S (length h))
        (h ++ [ literal (map_imap (λ k v, failure_of (g k v)) (own o));
                literal (map_imap (λ k v, success_of (g k v)) (own o)) ]).
Proof.
  intros Hr Hcb. unfold R.partitionMapWithIndex.
  rewrite (bind_Ret _ _ _ _ _ (alloc_first _ h)).
  erewrite bind_Ret; [|apply (alloc_fresh _ h [literal ∅])].
  simpl. rewrite Nat.add_1_r.
  erewrite bind_Ret; [|apply object_keys_Ret, lookup_old, Hr].
  pose (emb := λ s : gmap string val * gmap string val,
                 h ++ [literal s.1; literal s.2]).
  change (h ++ [literal ∅; literal ∅]) with (emb (∅, ∅)).
  erewrite bind_Ret.
  2:{ apply (for_of_abs emb (λ k s,
        ( match failure_of (g k (obj_get o k)) with
          | Some v => <[k := v]> s.1 | None => s.1 end,
          match success_of (g k (obj_get o k)) with
          | Some v => <[k := v]> s.2 | None => s.2 end ))).
      intros k [m1 m2] Hk. unfold emb. cbn [fst snd].
      erewrite bind_Ret; [|apply get_prop_ref, lookup_old, Hr].
      rewrite (bind_Ret _ _ _ _ _ (Hcb _ _ _ (own_keys_get _ _ Hk))).
      destruct (g k (obj_get o k)) as [e|a]; cbn [failure_of success_of].
      - erewrite define_prop_ref by apply lookup_fresh0. by rewrite insert_fresh0.
      - erewrite define_prop_ref by apply lookup_fresh1. by rewrite insert_fresh1. }
  rewrite (foldl_pair
    (λ k m, match failure_of (g k (obj_get o k)) with
            | Some v => <[k := v]> m | None => m end)
    (λ k m, match success_of (g k (obj_get o k)) with
            | Some v => <[k := v]> m | None => m end)).
  unfold ret, emb. cbn [fst snd].
  pose proof (assign_some_own_keys o (λ k v, failure_of (g k v))) as E1.
  pose proof (assign_some_own_keys o (λ k v, success_of (g k v))) as E2.
  unfold assign_some in E1, E2. by rewrite E1, E2.
Qed.

(** A loop that returns has established its invariant, whatever its body
    does when it throws. *)
Lemma for_of_ret {A} (I : list A → heap → Prop) (xs : list A) (body : A → M unit)
    (h h' : heap) :
  I [] h →
  (∀ pre x post h1 h2, xs = pre ++ x :: post → I pre h1 →
     body x h1 = Ret tt h2 → I (pre ++ [x]) h2) →
  for_of xs body h = Ret tt h' → I xs h'.
Proof.
  revert I h. induction xs as [|x xs IH]; intros I h H0 Hstep Hrun.
  - by injection Hrun as <-.
  - cbn [for_of] in Hrun. unfold bind in Hrun.
    destruct (body x h) as [[] h2|] eqn:Hb; [|done].
    apply (IH (λ pre, I (x :: pre)) h2); [|  |done].
    + apply (Hstep [] x xs h h2 eq_refl H0 Hb).
    + intros pre y post h1 h3 -> Hpre Hy.
      by apply (Hstep (x :: pre) y post h1 h3).
Qed.

Lemma get_prop_heap v k (h : heap) x h' : get_prop v k h = Ret x h' → h' = h.
Proof.
  destruct v; try by intros [= _ <-]. all: try done.
  unfold get_prop, bind, read. destruct (h !! l); [|done]. by intros [= _ <-].
Qed.

Lemma call_member_appends m v (h : heap) y h' :
  call_member m v h = Ret y h' → ∃ ext, h' = h ++ ext.
Proof.
  unfold call_member.
  assert (Hnil : ∀ z, Ret z h = Ret y h' → ∃ ext, h' = h ++ ext).
  { intros z [= _ <-]. exists []. by rewrite app_nil_r. }
  assert (Hnew : ∀ ob, (let* l := alloc ob in ret (VRef l)) h = Ret y h' →
                       ∃ ext, h' = h ++ ext).
  { intros ob [= _ <-]. eauto. }
  destruct m; try done; destruct v; try done; eauto.
Qed.

Lemma as_either_heap y (h : heap) e h' : E.as_either y h = Ret e h' → h' = h.
Proof.
  unfold E.as_either, bind.
  destruct (get_prop y "_tag" h) as [t h1|] eqn:Ht; [|done].
  apply get_prop_heap in Ht as ->.
  destruct (is_str t "Left").
  - destruct (get_prop y "left" h) as [x h1|] eqn:Hx; [|done].
    apply get_prop_heap in Hx as ->. by intros [= _ <-].
  - destruct (get_prop y "right" h) as [x h1|] eqn:Hx; [|done].
    apply get_prop_heap in Hx as ->. by intros [= _ <-].
Qed.

(** The callback of [parse] only adds to the store. *)
Lemma parse_field_appends f k v (h1 : heap) e h2 :
  parse_field f k v h1 = Ret e h2 → ∃ ext, h2 = h1 ++ ext.
Proof.
  unfold parse_field. destruct (table_get f k) as [fk|m|].
  - intros [= _ <-]. exists []. by rewrite app_nil_r.
  - unfold bind. destruct (call_member m v h1) as [y hy|] eqn:Hc; [|done].
    apply call_member_appends in Hc as [ext ->].
    intros He. apply as_either_heap in He as ->. eauto.
  - intros [= _ <-]. exists []. by rewrite app_nil_r.
Qed.

Lemma own_keys_set (o : obj) : list_to_set (own_keys o) = (dom (own o) : gset string).
Proof.
  apply set_eq. intros k. by rewrite elem_of_list_to_set, own_keys_elem, elem_of_dom.
Qed.

(** Whatever the callback returns, as long as it only adds to the store: a
    pass that returns has put every own field in exactly one of the two
    records. *)
Lemma partitionMapWithIndex_ret (cb : string → val → M (E.Either val val))
    (h : heap) r o p h' :
  h !! r = Some o →
  (∀ k v h1 e h2, cb k v h1 = Ret e h2 → ∃ ext, h2 = h1 ++ ext) →
  R.partitionMapWithIndex cb r h = Ret p h' →
  p = (length h, S (length h))
  ∧ ∃ L R ext, h' = h ++ literal L :: literal R :: ext
               ∧ size L + size R = size (own o).
Proof.
  intros Hr Hcb. unfold R.partitionMapWithIndex.
  rewrite (bind_Ret _ _ _ _ _ (alloc_first _ h)).
  erewrite bind_Ret; [|apply (alloc_fresh _ h [literal ∅])].
  simpl. rewrite Nat.add_1_r.
  erewrite bind_Ret; [|apply object_keys_Ret, lookup_old, Hr].
  unfold bind at 1.
  destruct (for_of _ _ _) as [[] hf|] eqn:Hloop; [|done].
  intros [= <- <-]. split; [done|].
  apply (for_of_ret (λ pre h1, ∃ (L R : gmap string val) ext,
           h1 = h ++ literal L :: literal R :: ext
           ∧ dom L ∪ dom R = (list_to_set pre : gset string)
           ∧ dom L ## dom R)) in Hloop.
  - destruct Hloop as (L & R & ext & -> & Hdom & Hdisj).
    exists L, R, ext. split; [done|].
    rewrite <- !size_dom, <- size_union by done.
    by rewrite Hdom, own_keys_set.
  - exists ∅, ∅, []. split; [done|]. rewrite !dom_empty_L. split.
    + by rewrite (left_id_L ∅ (∪)).
    + apply disjoint_empty_l.
  - intros pre x post h1 h2 Hxs (L & R & ext & -> & Hdom & Hdisj) Hb.
    assert (Hx : x ∉ pre).
    { pose proof (NoDup_fst_map_to_list (own o)) as Hnd. fold (own_keys o) in Hnd.
      rewrite Hxs in Hnd. apply NoDup_app in Hnd as (_ & Hnd & _).
      intros Hin. apply (Hnd x Hin). by left. }
    assert (Hpre : ∀ k, k ∈ dom L ∪ dom R ↔ k ∈ pre).
    { intros k. by rewrite Hdom, elem_of_list_to_set. }
    assert (HxL : x ∉ dom L).
    { intros Hin. apply Hx, Hpre, elem_of_union. by left. }
    assert (HxR : x ∉ dom R).
    { intros Hin. apply Hx, Hpre, elem_of_union. by right. }
    assert (Hsnoc : ∀ D1 D2 : gset string,
              (∀ k, k ∈ D1 ∪ D2 ↔ k ∈ pre ∨ k = x) →
              D1 ∪ D2 = list_to_set (pre ++ [x])).
    { intros D1 D2 HD. apply set_eq. intros k.
      by rewrite HD, elem_of_list_to_set, elem_of_app, list_elem_of_singleton. }
    erewrite bind_Ret in Hb; [|apply get_prop_ref, lookup_old, Hr].
    unfold bind in Hb.
    destruct (cb x (obj_get o x) _) as [e hc|] eqn:Hc; [|done].
    apply Hcb in Hc as [ext' ->]. rewrite <- app_assoc in Hb. cbn [app] in Hb.
    destruct e as [e|a].
    + erewrite define_prop_ref in Hb by apply lookup_fresh0.
      rewrite insert_fresh0 in Hb. injection Hb as <-.
      exists (<[x := e]> L), R, (ext ++ ext'). split; [done|].
      cbn [own literal obj_set]. rewrite dom_insert_L. split.
      * apply Hsnoc. intros k. rewrite <- Hpre, !elem_of_union, elem_of_singleton.
        tauto.
      * intros k. rewrite elem_of_union, elem_of_singleton.
        intros [->|HkL] HkR; [done|]. by apply (Hdisj k).
    + erewrite define_prop_ref in Hb by apply lookup_fresh1.
      rewrite insert_fresh1 in Hb. injection Hb as <-.
      exists L, (<[x := a]> R), (ext ++ ext'). split; [done|].
      cbn [own literal obj_set]. rewrite dom_insert_L. split.
      * apply Hsnoc. intros k. rewrite <- Hpre, !elem_of_union, elem_of_singleton.
        tauto.
      * intros k HkL. rewrite elem_of_union, elem_of_singleton.
        intros [->|HkR]; [done|]. by apply (Hdisj k).
Qed.

Lemma own_keys_length (o : obj) : length (own_keys o) = size (own o).
Proof. unfold own_keys. by rewrite length_fmap, length_map_to_list. Qed.

Lemma parse_field_own f (o : obj) k v (h1 : heap) :
  own_handlers_only f o → own o !! k = Some v →
  parse_field f k v h1 = Ret (field_outcome f k v) h1.
Proof.
  intros Hf Hv. unfold parse_field, field_outcome.
  rewrite (table_get_own f o k v Hf Hv). by destruct (f !! k).
Qed.

Lemma parse_spec f (h : heap) fa o :
  h !! fa = Some o → own_handlers_only f o →
  parse f fa h
  = Ret (if bool_decide (size (successes f o) = size (own o))
         then E.right (VRef (S (length h)))
         else E.left (VRef (length h)))
        (h ++ [literal (failures f o); literal (successes f o)]).
Proof.
  intros Hfa Hf. unfold parse.
  erewrite bind_Ret.
  2:{ apply (partitionMapWithIndex_spec _ (field_outcome f) h fa o Hfa).
      intros k v h1 Hv. by apply (parse_field_own f o). }
  simpl.
  erewrite bind_Ret; [|apply object_keys_Ret, lookup_fresh1].
  erewrite bind_Ret; [|apply object_keys_Ret, lookup_old, Hfa].
  rewrite !own_keys_length. simpl.
  unfold failures, successes.
  by destruct (bool_decide _).
Qed.

(** A run of [parse] that returns: the two records sit behind the initial
    store, every own field is in exactly one of them, and the result is
    decided by the counts; the variant that decides by the emptiness of the
    error map returns the same. *)
Lemma parse_returns f (h : heap) fa o res h' :
  h !! fa = Some o → parse f fa h = Ret res h' →
  ∃ L R ext,
    h' = h ++ literal L :: literal R :: ext
    ∧ size L + size R = size (own o)
    ∧ res = (if bool_decide (size R = size (own o))
             then E.right (VRef (S (length h)))
             else E.left (VRef (length h)))
    ∧ parse_checking_errors f fa h = Ret res h'.
Proof.
  intros Hfa. unfold parse, parse_checking_errors. unfold bind at 1 4.
  destruct (R.partitionMapWithIndex _ _ _) as [p hp|] eqn:Hp; [|done].
  apply (partitionMapWithIndex_ret _ h fa o p hp Hfa) in Hp
    as (-> & L & R & ext & -> & Hsz); [|apply parse_field_appends].
  cbn [fst snd].
  erewrite bind_Ret; [|apply object_keys_Ret, lookup_fresh1].
  erewrite bind_Ret; [|apply object_keys_Ret, lookup_old, Hfa].
  erewrite (bind_Ret (object_keys (length h))); [|apply object_keys_Ret, lookup_fresh0].
  rewrite !own_keys_length. cbn [own literal].
  intros Hres. exists L, R, ext. split; [by destruct (bool_decide _); injection Hres|].
  split; [done|].
  assert (Hiff : size R = size (own o) ↔ size L = 0) by lia.
  destruct (bool_decide (size R = size (own o))) eqn:E1,
           (bool_decide (size L = 0)) eqn:E2.
  - injection Hres as <- <-. done.
  - apply bool_decide_eq_true in E1. apply bool_decide_eq_false in E2. tauto.
  - apply bool_decide_eq_false in E1. apply bool_decide_eq_true in E2. tauto.
  - injection Hres as <- <-. done.
Qed.

Lemma parse_checking_errors_same f (h : heap) fa o :
  h !! fa = Some o → parse f fa h = parse_checking_errors f fa h.
Proof.
  intros Hfa. destruct (parse f fa h) as [res h'|e h'] eqn:Hp.
  - by destruct (parse_returns f h fa o res h' Hfa Hp) as (_ & _ & _ & _ & _ & _ & ->).
  - revert Hp. unfold parse, parse_checking_errors. unfold bind at 1 4.
    destruct (R.partitionMapWithIndex _ _ _) as [p hp|] eqn:Hq; [|done].
    apply (partitionMapWithIndex_ret _ h fa o p hp Hfa) in Hq
      as (-> & L & R & ext & -> & Hsz); [|apply parse_field_appends].
    cbn [fst snd].
    erewrite bind_Ret; [|apply object_keys_Ret, lookup_fresh1].
    erewrite bind_Ret; [|apply object_keys_Ret, lookup_old, Hfa].
    by destruct (bool_decide _).
Qed.

Lemma own_handlers_only_check {X} (f : gmap string X) (o : obj) :
  map_Forall (λ k _, is_Some (f !! k) ∨ ¬ is_Some (Object_prototype !! k)) (own o) →
  own_handlers_only f o.
Proof.
  intros Hall k [v Hv] Hf. destruct (Hall k v Hv) as [[x Hx]|Hn]; [congruence|].
  destruct (Object_prototype !! k); [|done]. exfalso. apply Hn. eauto.
Qed.

Lemma plain_struct_check {X} (f : gmap string X) (o : obj) :
  own o !! "__proto__" = None →
  map_Forall (λ k _, is_Some (f !! k) ∨ ¬ is_Some (Object_prototype !! k)) (own o) →
  plain_struct f o.
Proof. intros Hp Hall. split; [done|]. by apply own_handlers_only_check. Qed.

Lemma failures_lookup f o k e :
  failures f o !! k = Some e
  ↔ ∃ v, own o !! k = Some v ∧ field_outcome f k v = E.left e.
Proof.
  unfold failures. rewrite map_lookup_imap. split.
  - destruct (own o !! k) as [v|]; [|done]. simpl.
    destruct (field_outcome f k v) eqn:E; [|done]. intros [= <-]. eauto.
  - intros (v & -> & Hf). simpl. by rewrite Hf.
Qed.

Lemma successes_lookup f o k a :
  successes f o !! k = Some a
  ↔ ∃ v, own o !! k = Some v ∧ field_outcome f k v = E.right a.
Proof.
  unfold successes. rewrite map_lookup_imap. split.
  - destruct (own o !! k) as [v|]; [|done]. simpl.
    destruct (field_outcome f k v) eqn:E; [done|]. intros [= <-]. eauto.
  - intros (v & -> & Hf). simpl. by rewrite Hf.
Qed.

(** Every own field lands in exactly one of the two records. *)
Lemma failures_successes_size f o :
  size (failures f o) + size (successes f o) = size (own o).
Proof.
  rewrite <- map_size_disj_union.
  - rewrite <- !size_dom. f_equal. apply set_eq. intros k.
    rewrite !elem_of_dom. unfold is_Some.
    setoid_rewrite lookup_union_Some_raw.
    split.
    + intros (x & [Hx|[_ Hx]]).
      * apply failures_lookup in Hx as (v & ? & _). eauto.
      * apply successes_lookup in Hx as (v & ? & _). eauto.
    + intros (v & Hv). destruct (field_outcome f k v) as [e|a] eqn:E.
      * exists e. left. apply failures_lookup. eauto.
      * exists a. right. split.
        -- destruct (failures f o !! k) as [e|] eqn:Ef; [|done].
           apply failures_lookup in Ef as (v' & Hv' & Hf). congruence.
        -- apply successes_lookup. eauto.
  - apply map_disjoint_spec. intros k e a He Ha.
    apply failures_lookup in He as (v & Hv & Hf).
    apply successes_lookup in Ha as (v' & Hv' & Hs). congruence.
Qed.

Lemma successes_full_iff f o :
  size (successes f o) = size (own o) ↔ failures f o = ∅.
Proof.
  rewrite <- map_size_empty_iff. pose proof (failures_successes_size f o). lia.
Qed.

Lemma failures_empty_iff f o :
  failures f o = ∅
  ↔ ∀ k v, own o !! k = Some v → ∃ a, field_outcome f k v = E.right a.
Proof.
  split.
  - intros Hemp k v Hv. destruct (field_outcome f k v) as [e|a] eqn:E; [|eauto].
    assert (Hl : failures f o !! k = Some e) by (apply failures_lookup; eauto).
    rewrite Hemp in Hl. by rewrite lookup_empty in Hl.
  - intros Hall. apply map_eq. intros k. rewrite lookup_empty.
    destruct (failures f o !! k) as [e|] eqn:Ef; [|done].
    apply failures_lookup in Ef as (v & Hv & Hf).
    destruct (Hall k v Hv) as [a Ha]. congruence.
Qed.

(** X22: on a struct without a field named [__proto__] and without a
    parser-less field named after a member of [Object.prototype], [parse]
    succeeds exactly when every field is successfully parsed, a field without
    a parser counting as a success that carries its original value; otherwise
    it fails with the error map, which has an entry for a field exactly when
    the parser of that field failed (so every supplied parser has been run
    and every failure collected), and no entry for a field that succeeded or
    has no parser. *)
Theorem parse_all_or_errors f (h : heap) fa o :
  h !! fa = Some o → plain_struct f o →
  ∃ res failed parsed,
    parse f fa h = Ret res (h ++ [literal failed; literal parsed])
    ∧ (∀ k e, failed !! k = Some e
              ↔ ∃ v fk, own o !! k = Some v ∧ f !! k = Some fk ∧ fk v = E.left e)
    ∧ (∀ k a, parsed !! k = Some a
              ↔ ∃ v, own o !! k = Some v
                     ∧ match f !! k with
                       | Some fk => fk v = E.right a
                       | None => a = v
                       end)
    ∧ (res = E.right (VRef (S (length h)))
       ↔ ∀ k v, own o !! k = Some v → ∃ a, field_outcome f k v = E.right a)
    ∧ (res = E.right (VRef (S (length h))) ∨ res = E.left (VRef (length h)))
    ∧ (res = E.right (VRef (S (length h))) → dom parsed = dom (own o)).
Proof.
  intros Hfa [_ Hplain]. eexists _, (failures f o), (successes f o).
  split; [by apply parse_spec|].
  split; [|split; [|split; [|split]]].
  - intros k e. rewrite failures_lookup. unfold field_outcome. split.
    + intros (v & Hv & Hf). destruct (f !! k) as [fk|]; [eauto|done].
    + intros (v & fk & Hv & Hk & Hf). exists v. by rewrite Hk.
  - intros k a. rewrite successes_lookup. unfold field_outcome.
    split; intros (v & Hv & Hf); exists v; (split; [done|]);
      destruct (f !! k); congruence.
  - rewrite <- failures_empty_iff, <- successes_full_iff.
    case_bool_decide; split; (done || congruence).
  - case_bool_decide; auto.
  - case_bool_decide as Hsz; [|done]. intros _.
    apply set_eq. intros k. rewrite !elem_of_dom. split.
    + intros [a Ha]. apply successes_lookup in Ha as (v & Hv & _). eauto.
    + intros [v Hv].
      apply successes_full_iff in Hsz.
      destruct (proj1 (failures_empty_iff f o) Hsz k v Hv) as [a Ha].
      exists a. apply successes_lookup. eauto.
Qed.

Lemma parse_all_or_errors_witness :
  ∃ res failed parsed,
    parse parse_parsers 2 parse_store
    = Ret res (parse_store ++ [literal failed; literal parsed])
    ∧ failed !! "a" = Some (VStr "Not 'a'")
    ∧ res = E.left (VRef 3).
Proof.
  destruct (parse_all_or_errors parse_parsers parse_store 2
              (literal {[ "a" := VStr "b"; "b" := VNum 1; "c" := VStr "abc" ]})
              eq_refl)
    as (res & failed & parsed & E & Hf & _ & Hiff & Hres & _).
  { apply plain_struct_check; [done|]. apply (bool_decide_unpack _). by vm_compute. }
  exists res, failed, parsed. split; [exact E|]. split.
  - apply Hf. eexists _, _. split; [reflexivity|]. split; reflexivity.
  - destruct Hres as [Hr|Hl]; [|exact Hl]. exfalso.
    destruct (proj1 Hiff Hr "a" (VStr "b") eq_refl) as [a Ha].
    vm_compute in Ha. discriminate.
Defined.

(** C2 (the code departs from the claim): [parse] finds the parser of a field
    by indexing the parser map, [f[k]], which for a field named after a
    member of [Object.prototype] finds that member.  On the struct
    [{toString: 1}] with no parser at all, the field has no parser, yet
    [Object.prototype.toString] is run on it and its result read as a result
    container: [parse] returns [right({toString: undefined})], a success that
    does not carry the original value [1]. *)
Theorem parse_runs_inherited_member :
  member_store !! 2 = Some (literal {[ "toString" := VNum 1 ]})
  ∧ (∅ : gmap string (val → E.Either val val)) !! "toString" = None
  ∧ parse ∅ 2 member_store
    = Ret (E.right (VRef 5))
          (member_store ++ [literal ∅; literal {[ "toString" := VUndefined ]}])
  ∧ VUndefined ≠ VNum 1.
Proof. repeat split; by vm_compute. Qed.

(** A member of [Object.prototype] found as the parser of a field can throw:
    on [{valueOf: 1}] without parsers, [Object.prototype.valueOf] is called on
    no object, and neither [parse] nor its variant returns. *)
Lemma parse_inherited_member_throws :
  let h := [O.none_obj; literal ∅; literal {[ "valueOf" := VNum 1 ]}] in
  parse ∅ 2 h = Throw TypeError (h ++ [literal ∅; literal ∅])
  ∧ parse_checking_errors ∅ 2 h = Throw TypeError (h ++ [literal ∅; literal ∅]).
Proof. split; by vm_compute. Qed.

(** C5: deciding the overall success of [parse] by comparing the number of
    parsed fields with the number of fields is equivalent to deciding it by
    the emptiness of the error map, for every struct and every parser map
    (the parser map without parsers included): the two programs have the same
    outcome; whenever the pass returns, the counts agree exactly when the
    error map is empty; and it returns whenever indexing the parser map finds
    no member of [Object.prototype]. *)
Theorem parse_count_check_equiv f (h : heap) fa o :
  h !! fa = Some o →
  parse f fa h = parse_checking_errors f fa h
  ∧ (∀ res h', parse f fa h = Ret res h' →
       ∃ failed parsed,
         h' !! length h = Some (literal failed)
         ∧ h' !! S (length h) = Some (literal parsed)
         ∧ (size parsed = size (own o) ↔ failed = ∅)
         ∧ (res = E.right (VRef (S (length h))) ↔ failed = ∅))
  ∧ (own_handlers_only f o →
       ∃ res failed parsed,
         parse f fa h = Ret res (h ++ [literal failed; literal parsed])
         ∧ (size parsed = size (own o) ↔ failed = ∅)
         ∧ (res = E.right (VRef (S (length h))) ↔ failed = ∅)).
Proof.
  intros Hfa. split; [by apply (parse_checking_errors_same f h fa o)|]. split.
  - intros res h' Hp.
    destruct (parse_returns f h fa o res h' Hfa Hp) as (L & R & ext & -> & Hsz & -> & _).
    exists L, R. split; [apply lookup_fresh0|]. split; [apply (lookup_fresh1 h)|].
    rewrite <- (map_size_empty_iff L). split; [lia|].
    case_bool_decide; split; (done || lia).
  - intros Hf. eexists _, (failures f o), (successes f o).
    split; [by apply parse_spec|]. split; [apply successes_full_iff|].
    rewrite <- successes_full_iff.
    case_bool_decide; split; (done || congruence).
Qed.

Lemma parse_count_check_equiv_witness :
  parse ∅ 2 parse_store = parse_checking_errors ∅ 2 parse_store
  ∧ parse parse_parsers 2 parse_store = parse_checking_errors parse_parsers 2 parse_store.
Proof.
  split.
  - exact (proj1 (parse_count_check_equiv ∅ parse_store 2
             (literal {[ "a" := VStr "b"; "b" := VNum 1; "c" := VStr "abc" ]})
             eq_refl)).
  - exact (proj1 (parse_count_check_equiv parse_parsers parse_store 2
             (literal {[ "a" := VStr "b"; "b" := VNum 1; "c" := VStr "abc" ]})
             eq_refl)).
Defined.

(** ** [isOption], [compactS] and [unCompact] *)

Lemma fields_allocated_ref (h : heap) o k l :
  fields_allocated h o → own o !! k = Some (VRef l) → is_Some (h !! l).
Proof.
  intros Hal Hk. apply Hal in Hk. simpl in Hk.
  apply bool_decide_eq_true in Hk. by apply lookup_lt_is_Some.
Qed.

Lemma isOption_Ret (h : heap) v :
  (∀ l, v = VRef l → is_Some (h !! l)) →
  isOption v h = Ret (isOption_in h v) h.
Proof.
  intros Hal. destruct v as [| | | | |l]; try done.
  destruct (Hal l eq_refl) as [o Ho]. unfold isOption, isOption_in. rewrite Ho.
  erewrite bind_Ret; [|by apply read_Ret].
  unfold ret, option_shaped. by rewrite own_keys_length.
Qed.

Lemma isOption_in_app (h fr : heap) v :
  (∀ l, v = VRef l → is_Some (h !! l)) →
  isOption_in (h ++ fr) v = isOption_in h v.
Proof.
  intros Hal. destruct v as [| | | | |l]; try done.
  destruct (Hal l eq_refl) as [o Ho]. simpl. by rewrite (lookup_old _ _ _ _ Ho), Ho.
Qed.

Lemma unwrap_in_app (h fr : heap) v :
  (∀ l, v = VRef l → is_Some (h !! l)) →
  unwrap_in (h ++ fr) v = unwrap_in h v.
Proof.
  intros Hal. destruct v as [| | | | |l]; try done.
  destruct (Hal l eq_refl) as [o Ho]. simpl. by rewrite (lookup_old _ _ _ _ Ho), Ho.
Qed.

Lemma partition_isOption_spec (h : heap) r o :
  h !! r = Some o → fields_allocated h o →
  R.partition isOption r h
  = Ret (length h, S (length h))
        (h ++ [ literal (map_imap (λ _ v, if isOption_in h v then None else Some v) (own o));
                literal (map_imap (λ _ v, if isOption_in h v then Some v else None) (own o)) ]).
Proof.
  intros Hr Hal. unfold R.partition.
  rewrite (bind_Ret _ _ _ _ _ (alloc_first _ h)).
  erewrite bind_Ret; [|apply (alloc_fresh _ h [literal ∅])].
  cbn [length app]. rewrite Nat.add_1_r.
  erewrite bind_Ret; [|apply object_keys_Ret, lookup_old, Hr].
  pose (emb := λ s : gmap string val * gmap string val,
                 h ++ [literal s.1; literal s.2]).
  change (h ++ [literal ∅; literal ∅]) with (emb (∅, ∅)).
  pose (g1 := λ k : string, if isOption_in h (obj_get o k) then None
                            else Some (obj_get o k)).
  pose (g2 := λ k : string, if isOption_in h (obj_get o k) then Some (obj_get o k)
                            else None).
  erewrite bind_Ret.
  2:{ apply (for_of_abs emb (λ k s,
        ( match g1 k with Some v => <[k := v]> s.1 | None => s.1 end,
          match g2 k with Some v => <[k := v]> s.2 | None => s.2 end ))).
      intros k [m1 m2] Hk. unfold emb. cbn [fst snd].
      erewrite bind_Ret; [|apply get_prop_ref, lookup_old, Hr].
      assert (Hv : ∀ l, obj_get o k = VRef l → is_Some (h !! l)).
      { intros l Hl. apply own_keys_elem in Hk as [v Hv].
        rewrite (obj_get_own _ _ _ Hv) in Hl. subst v.
        by eapply fields_allocated_ref. }
      erewrite bind_Ret;
        [|apply isOption_Ret; intros l Hl;
          destruct (Hv l Hl) as [ov Hov]; exists ov; by apply lookup_old].
      rewrite (isOption_in_app _ _ _ Hv). unfold g1, g2.
      destruct (isOption_in h (obj_get o k)).
      - erewrite define_prop_ref by apply lookup_fresh1. by rewrite insert_fresh1.
      - erewrite define_prop_ref by apply lookup_fresh0. by rewrite insert_fresh0. }
  rewrite (foldl_pair
    (λ k m, match g1 k with Some v => <[k := v]> m | None => m end)
    (λ k m, match g2 k with Some v => <[k := v]> m | None => m end)).
  unfold ret, emb. cbn [fst snd].
  pose proof (assign_some_own_keys o
    (λ _ v, if isOption_in h v then None else Some v)) as E1.
  pose proof (assign_some_own_keys o
    (λ _ v, if isOption_in h v then Some v else None)) as E2.
  unfold assign_some in E1, E2. unfold g1, g2. by rewrite E1, E2.
Qed.

Lemma isSome_Ret (h : heap) l o :
  h !! l = Some o →
  O.isSome (VRef l) h = Ret (is_str (obj_get o "_tag") "Some") h.
Proof.
  intros Hl. unfold O.isSome. by erewrite bind_Ret; [|by apply get_prop_ref].
Qed.

Lemma filterMap_identity_spec (h : heap) r o :
  h !! r = Some o →
  (∀ k v, own o !! k = Some v → ∃ l, v = VRef l ∧ is_Some (h !! l)) →
  R.filterMap ret r h
  = Ret (length h) (h ++ [literal (map_imap (λ _ v, unwrap_in h v) (own o))]).
Proof.
  intros Hr Hal. unfold R.filterMap.
  rewrite (bind_Ret _ _ _ _ _ (alloc_first _ h)).
  erewrite bind_Ret; [|apply object_keys_Ret, lookup_old, Hr].
  pose (emb := λ m : gmap string val, h ++ [literal m]).
  change (h ++ [literal ∅]) with (emb ∅).
  erewrite bind_Ret.
  2:{ apply (for_of_abs emb (λ k m,
        match unwrap_in h (obj_get o k) with
        | Some v => <[k := v]> m | None => m end)).
      intros k m Hk. unfold emb.
      erewrite bind_Ret; [|apply get_prop_ref, lookup_old, Hr].
      apply own_keys_elem in Hk as [v Hv]. rewrite (obj_get_own _ _ _ Hv).
      destruct (Hal k v Hv) as (l & -> & ov & Hov).
      rewrite (bind_Ret _ _ _ (VRef l) (h ++ [literal m])) by done.
      erewrite bind_Ret; [|apply isSome_Ret, lookup_old, Hov].
      cbn [unwrap_in]. rewrite Hov.
      destruct (is_str (obj_get ov "_tag") "Some"); [|done].
      erewrite bind_Ret; [|apply get_prop_ref, lookup_old, Hov].
      erewrite define_prop_ref by apply lookup_fresh0. by rewrite insert_fresh0. }
  unfold ret, emb.
  pose proof (assign_some_own_keys o (λ _ v, unwrap_in h v)) as E1.
  unfold assign_some in E1. by rewrite E1.
Qed.

Lemma compact_field_split (h : heap) (o : obj) :
  map_imap (λ _ v, unwrap_in h v)
    (map_imap (λ _ v, if isOption_in h v then Some v else None) (own o))
  ∪ (map_imap (λ _ v, if isOption_in h v then None else Some v) (own o) ∪ ∅)
  = map_imap (λ _ v, compact_field h v) (own o).
Proof.
  apply map_eq. intros k. rewrite (right_id_L ∅ (∪)).
  rewrite lookup_union, !map_lookup_imap. unfold compact_field.
  destruct (own o !! k) as [v|]; [|done]. simpl.
  destruct (isOption_in h v); simpl; [|done].
  by destruct (unwrap_in h v).
Qed.

Lemma compactS_spec (h : heap) r o :
  h !! r = Some o → fields_allocated h o →
  ∃ l1 l2 l4,
    compactS r h
    = Ret (length h + 2)
          (h ++ [ l1; l2; literal (map_imap (λ _ v, compact_field h v) (own o)); l4 ]).
Proof.
  intros Hr Hal. unfold compactS.
  erewrite bind_Ret; [|by apply partition_isOption_spec].
  cbn [fst snd].
  set (L := map_imap (λ _ v, if isOption_in h v then None else Some v) (own o)).
  set (Rt := map_imap (λ _ v, if isOption_in h v then Some v else None) (own o)).
  erewrite bind_Ret; [|apply (alloc_fresh _ h [literal L; literal Rt])].
  cbn [length app].
  erewrite bind_Ret.
  2:{ apply (copy_own_spec _ (length h) (length h + 2) (literal L) (literal ∅)).
      - apply lookup_fresh0.
      - by rewrite lookup_fresh.
      - lia. }
  rewrite insert_fresh. cbn [list_insert insert own inherited literal].
  set (h3 := h ++ [Obj L ∅ true; Obj Rt ∅ true; Obj (L ∪ ∅) ∅ true]).
  assert (HRt : ∀ k v, Rt !! k = Some v → ∃ l, v = VRef l ∧ is_Some (h !! l)).
  { intros k v. unfold Rt. rewrite map_lookup_imap.
    destruct (own o !! k) as [w|] eqn:Ew; [|done]. simpl.
    destruct (isOption_in h w) eqn:Ei; [|done]. intros [= <-].
    destruct w as [| | | | |l]; try done. exists l. split; [done|].
    by eapply fields_allocated_ref. }
  erewrite bind_Ret.
  2:{ apply (filterMap_identity_spec h3 (S (length h)) (Obj Rt ∅ true)).
      - unfold h3. apply lookup_fresh1.
      - intros k v Hv. destruct (HRt k v Hv) as (l & -> & ov & Hov).
        exists l. split; [done|]. exists ov. by apply lookup_old. }
  assert (Hlen : length h3 = length h + 3).
  { unfold h3. rewrite length_app. simpl. lia. }
  rewrite Hlen.
  set (Out := map_imap (λ _ v, unwrap_in h3 v) (own (Obj Rt ∅ true))).
  erewrite bind_Ret.
  2:{ apply (copy_own_spec _ (length h + 3) (length h + 2)
               (literal Out) (Obj (L ∪ ∅) ∅ true)).
      - rewrite <- Hlen. apply lookup_fresh0.
      - unfold h3. rewrite <- app_assoc. by rewrite lookup_fresh.
      - lia. }
  unfold h3. rewrite <- app_assoc. rewrite insert_fresh.
  cbn [list_insert insert app own inherited literal].
  eexists _, _, _. unfold ret. do 4 f_equal.
  unfold literal. f_equal. rewrite <- compact_field_split. fold L Rt.
  unfold Out. cbn [own].
  assert (HOut : map_imap (λ _ v, unwrap_in h3 v) Rt
                 = map_imap (λ _ v, unwrap_in h v) Rt).
  { apply map_eq. intros k.
    rewrite !map_lookup_imap. destruct (Rt !! k) as [v|] eqn:Ev; [|done]. simpl.
    destruct (HRt k v Ev) as (l & -> & Hov). unfold h3.
    apply unwrap_in_app. by intros ? [= <-]. }
  by rewrite HOut.
Qed.

Lemma is_str_true v s : is_str v s = true ↔ v = VStr s.
Proof.
  destruct v; simpl; try (split; [done|discriminate]).
  rewrite bool_decide_eq_true. split; congruence.
Qed.

Lemma obj_has_get (o : obj) k : obj_get o k ≠ VUndefined → obj_has o k = true.
Proof.
  unfold obj_get, obj_has. destruct (own o !! k) as [v|] eqn:E1.
  - intros _. by rewrite bool_decide_true by eauto.
  - destruct (inherited o !! k) as [w|] eqn:E2; [|done].
    intros _. rewrite (bool_decide_true (is_Some (Some w))) by eauto.
    apply orb_true_r.
Qed.

Lemma option_shaped_iff (o : obj) :
  option_shaped o = true
  ↔ obj_get o "_tag" = VStr "None"
    ∨ (obj_get o "_tag" = VStr "Some" ∧ obj_has o "value" = true ∧ size (own o) = 2).
Proof.
  unfold option_shaped.
  rewrite andb_true_iff, orb_true_iff, !andb_true_iff, !is_str_true,
    bool_decide_eq_true.
  split.
  - intros [_ [[[? ?] ?]|?]]; auto.
  - intros [Hn|(Hs & ? & ?)].
    + split; [|by right]. apply obj_has_get. by rewrite Hn.
    + split; [|by left]. apply obj_has_get. by rewrite Hs.
Qed.

(** C10: [compactS] recognises an optional container by shape alone.
    [isOption] holds exactly of a non-null object whose [_tag] reads ['None'],
    or whose [_tag] reads ['Some'] while ['value' in] it holds (own or
    inherited) and it has exactly two own enumerable keys.  A field holding an
    object tagged ['None'] is dropped whatever else the object carries; a
    field holding a recognised object tagged ['Some'] holds the [value] read
    from it in the result; a field holding anything else passes through
    verbatim. *)
Theorem compactS_recognises_by_shape (h : heap) r o :
  h !! r = Some o → fields_allocated h o →
  (∀ k v, own o !! k = Some v →
     ∃ b, isOption v h = Ret b h
          ∧ (b = true
             ↔ ∃ l ov, v = VRef l ∧ h !! l = Some ov
                ∧ (obj_get ov "_tag" = VStr "None"
                   ∨ (obj_get ov "_tag" = VStr "Some"
                      ∧ (is_Some (own ov !! "value") ∨ is_Some (inherited ov !! "value"))
                      ∧ length (own_keys ov) = 2))))
  ∧ ∃ h' res,
      compactS r h = Ret (length h + 2) h'
      ∧ h' !! (length h + 2) = Some (literal res)
      ∧ (∀ k, own o !! k = None → res !! k = None)
      ∧ (∀ k l ov, own o !! k = Some (VRef l) → h !! l = Some ov →
           obj_get ov "_tag" = VStr "None" → res !! k = None)
      ∧ (∀ k l ov, own o !! k = Some (VRef l) → h !! l = Some ov →
           obj_get ov "_tag" = VStr "Some" → obj_has ov "value" = true →
           length (own_keys ov) = 2 →
           res !! k = Some (obj_get ov "value"))
      ∧ (∀ k v, own o !! k = Some v → isOption_in h v = false → res !! k = Some v).
Proof.
  intros Hr Hal. split.
  - intros k v Hv. exists (isOption_in h v). split.
    + apply isOption_Ret. intros l ->. by eapply fields_allocated_ref.
    + destruct v as [| | | | |l]; simpl;
        try (split; [done|by intros (? & ? & ? & _)]).
      destruct (fields_allocated_ref h o k l Hal Hv) as [ov Hov]. rewrite Hov.
      rewrite option_shaped_iff. unfold obj_has.
      rewrite orb_true_iff, !bool_decide_eq_true. split.
      * intros Hs. exists l, ov. rewrite own_keys_length. done.
      * intros (l' & ov' & [= <-] & Hov' & Hs).
        rewrite own_keys_length in Hs. congruence.
  - destruct (compactS_spec h r o Hr Hal) as (l1 & l2 & l4 & E).
    eexists _, _. split; [exact E|]. split.
    { by rewrite lookup_fresh. }
    split; [|split; [|split]].
    + intros k Hk. by rewrite map_lookup_imap, Hk.
    + intros k l ov Hk Hov Htag. rewrite map_lookup_imap, Hk. simpl.
      unfold compact_field. simpl. rewrite Hov.
      assert (Hsh : option_shaped ov = true) by (apply option_shaped_iff; by left).
      rewrite Hsh, Htag. done.
    + intros k l ov Hk Hov Htag Hval Hsz. rewrite map_lookup_imap, Hk. simpl.
      unfold compact_field. simpl. rewrite Hov.
      assert (Hsh : option_shaped ov = true).
      { apply option_shaped_iff. right. by rewrite <- own_keys_length. }
      rewrite Hsh, Htag. done.
    + intros k v Hk Hno. rewrite map_lookup_imap, Hk. simpl.
      unfold compact_field. by rewrite Hno.
Qed.

Lemma compactS_recognises_by_shape_witness :
  ∃ h' res,
    compactS 6 shape_store = Ret 9 h'
    ∧ h' !! 9 = Some (literal res)
    ∧ res !! "tagged" = None
    ∧ res !! "foo" = None
    ∧ res !! "inh" = Some (VNum 5)
    ∧ res !! "baz" = Some (VStr "abc")
    ∧ res !! "three" = Some (VRef 4)
    ∧ res !! "n" = Some (VNum 22).
Proof.
  destruct (compactS_recognises_by_shape shape_store 6
    (literal {[ "n" := VNum 22; "tagged" := VRef 2; "inh" := VRef 3;
                "three" := VRef 4; "baz" := VRef 5; "foo" := O.none ]})
    eq_refl) as (_ & h' & res & E & Hres & _ & Hnone & Hsome & Hpass).
  { apply (bool_decide_unpack _). by vm_compute. }
  exists h', res. split; [exact E|]. split; [exact Hres|].
  split; [|split; [|split; [|split; [|split]]]].
  - by apply (Hnone "tagged" 2 _ eq_refl eq_refl).
  - by apply (Hnone "foo" 0 _ eq_refl eq_refl).
  - by apply (Hsome "inh" 3 _ eq_refl eq_refl).
  - by apply (Hsome "baz" 5 _ eq_refl eq_refl).
  - by apply (Hpass "three" _ eq_refl).
  - by apply (Hpass "n" _ eq_refl).
Defined.

Lemma own_key_not_proto (o : obj) k :
  own o !! "__proto__" = None → k ∈ own_keys o → k ≠ "__proto__".
Proof. intros Hp Hk ->. apply own_keys_elem in Hk as [v Hv]. congruence. Qed.

Lemma unCompact_spec (h : heap) a o :
  h !! a = Some o → own o !! "__proto__" = None →
  unCompact a h
  = Ret (length h)
        (h ++ literal (wrap_all h o (own_keys o)).1 :: (wrap_all h o (own_keys o)).2).
Proof.
  intros Ha Hp. unfold unCompact.
  erewrite bind_Ret; [|by apply object_keys_Ret].
  rewrite (bind_Ret _ _ _ _ _ (alloc_first _ h)).
  pose (emb := λ s : gmap string val * list obj, h ++ literal s.1 :: s.2).
  change (h ++ [literal ∅]) with (emb (∅, [])).
  erewrite bind_Ret.
  2:{ apply (for_of_abs emb (wrap_step h o)).
      intros k [m ws] Hk. apply (own_key_not_proto o k Hp) in Hk.
      unfold emb, wrap_step. cbn [fst snd].
      erewrite bind_Ret; [|apply get_prop_ref, lookup_old, Ha].
      unfold O.fromNullable. destruct (nullish (obj_get o k)).
      - rewrite (bind_Ret _ _ _ O.none (h ++ literal m :: ws)) by done.
        erewrite set_prop_ref; [|apply lookup_fresh0|done]. by rewrite insert_fresh0.
      - unfold O.some.
        erewrite bind_Ret.
        2:{ erewrite bind_Ret; [|apply (alloc_fresh _ h (literal m :: ws))].
            reflexivity. }
        cbn [length app].
        erewrite set_prop_ref; [|apply lookup_fresh0|done]. by rewrite insert_fresh0. }
  done.
Qed.

(** What the wrapping pass leaves in the table and behind it. *)
Lemma wrap_all_inv (h : heap) (o : obj) (ks : list string) :
  let s := wrap_all h o ks in
  (∀ k, k ∉ ks → s.1 !! k = None)
  ∧ (∀ k, k ∈ ks →
       if nullish (obj_get o k) then s.1 !! k = Some O.none
       else ∃ i, s.1 !! k = Some (VRef (length h + S i))
                 ∧ s.2 !! i = Some (O.some_obj (obj_get o k))).
Proof.
  induction ks as [|k' ks' IH] using rev_ind; simpl.
  - split; [done|]. intros k Hk. by apply elem_of_nil in Hk.
  - unfold wrap_all in *. rewrite foldl_app. simpl.
    set (s := foldl (λ s k, wrap_step h o k s) (∅, []) ks') in *.
    destruct IH as [IH1 IH2].
    assert (Hin : ∀ k, k ∈ ks' ++ [k'] ↔ k ∈ ks' ∨ k = k').
    { intros k. by rewrite elem_of_app, list_elem_of_singleton. }
    split.
    + intros k Hk. assert (k ≠ k' ∧ k ∉ ks') as [Hne Hni].
      { split; intros ?; apply Hk, Hin; auto. }
      unfold wrap_step. destruct (nullish (obj_get o k')); simpl;
        rewrite lookup_insert_ne by done; by apply IH1.
    + intros k Hk. destruct (decide (k = k')) as [->|Hne].
      * unfold wrap_step. destruct (nullish (obj_get o k')) eqn:En; simpl.
        -- by rewrite lookup_insert_eq.
        -- exists (length s.2). rewrite lookup_insert_eq. split; [done|].
           by rewrite list_lookup_middle.
      * assert (Hk' : k ∈ ks') by (apply Hin in Hk as [?|?]; done).
        specialize (IH2 k Hk'). unfold wrap_step.
        destruct (nullish (obj_get o k')); simpl;
          rewrite lookup_insert_ne by done; [done|].
        destruct (nullish (obj_get o k)); [done|].
        destruct IH2 as (i & Hi1 & Hi2). exists i. split; [done|].
        by apply lookup_app_l_Some.
Qed.

Lemma option_shaped_some v : option_shaped (O.some_obj v) = true.
Proof. done. Qed.

Lemma some_obj_tag v : is_str (obj_get (O.some_obj v) "_tag") "Some" = true.
Proof. done. Qed.

Lemma some_obj_value v : obj_get (O.some_obj v) "value" = v.
Proof. done. Qed.

Lemma none_obj_shaped : option_shaped O.none_obj = true.
Proof. done. Qed.

Lemma none_obj_tag : is_str (obj_get O.none_obj "_tag") "Some" = false.
Proof. done. Qed.

Lemma compact_field_some (h : heap) l v :
  h !! l = Some (O.some_obj v) → compact_field h (VRef l) = Some v.
Proof.
  intros E. unfold compact_field. cbn [isOption_in unwrap_in]. rewrite E.
  by rewrite option_shaped_some, some_obj_tag, some_obj_value.
Qed.

Lemma compact_field_none (h : heap) l :
  h !! l = Some O.none_obj → compact_field h (VRef l) = None.
Proof.
  intros E. unfold compact_field. cbn [isOption_in unwrap_in]. rewrite E.
  by rewrite none_obj_shaped, none_obj_tag.
Qed.

(** X23: for every struct [s] without a field named [__proto__] (whether or
    not some field already holds an optional-wrapped value),
    [compactS(unCompact(s))] is [s] restricted to its non-nullish fields: a
    field whose value is [null] or [undefined] is absent from the result and
    every other field is present with its original value. *)
Theorem compactS_unCompact_roundtrip (h : heap) s o :
  h !! s = Some o → h !! O.none_loc = Some O.none_obj →
  own o !! "__proto__" = None →
  ∃ l' h',
    (let* w := unCompact s in compactS w) h = Ret l' h'
    ∧ h' !! l' = Some (literal (filter (λ kv, nullish kv.2 = false) (own o)))
    ∧ h `prefix_of` h'.
Proof.
  intros Hs Hnone Hproto.
  erewrite bind_Ret; [|by apply unCompact_spec].
  destruct (wrap_all_inv h o (own_keys o)) as [Hout Hin].
  set (m := (wrap_all h o (own_keys o)).1) in *.
  set (ws := (wrap_all h o (own_keys o)).2) in *.
  set (H := h ++ literal m :: ws).
  assert (Hfield : ∀ k w, m !! k = Some w →
            ∃ v, own o !! k = Some v
                 ∧ if nullish v then w = O.none
                   else ∃ i, w = VRef (length h + S i)
                             ∧ H !! (length h + S i) = Some (O.some_obj v)).
  { intros k w Hw. destruct (decide (k ∈ own_keys o)) as [Hk|Hk].
    - specialize (Hin k Hk). apply own_keys_elem in Hk as [v Hv].
      rewrite (obj_get_own _ _ _ Hv) in Hin. exists v. split; [done|].
      destruct (nullish v); [congruence|].
      destruct Hin as (i & Hi1 & Hi2). exists i. split; [congruence|].
      unfold H. by rewrite lookup_fresh.
    - rewrite (Hout k Hk) in Hw. done. }
  assert (Hal : fields_allocated H (literal m)).
  { intros k w Hw. simpl in Hw. destruct (Hfield k w Hw) as (v & _ & Hc).
    destruct (nullish v).
    - subst w. simpl. apply bool_decide_eq_true. unfold H.
      apply lookup_lt_Some in Hnone. rewrite length_app. unfold O.none_loc in *. lia.
    - destruct Hc as (i & -> & Hi). simpl. apply bool_decide_eq_true.
      by eapply lookup_lt_Some. }
  destruct (compactS_spec H (length h) (literal m)) as (l1 & l2 & l4 & E);
    [apply lookup_fresh0|done|].
  eexists _, _. split; [exact E|]. split.
  - rewrite lookup_fresh. cbn [lookup list_lookup]. do 2 f_equal.
    apply map_eq. intros k. rewrite map_lookup_imap. cbn [own literal].
    destruct (m !! k) as [w|] eqn:Hw; cbn [mbind option_bind].
    + destruct (Hfield k w Hw) as (v & Hv & Hc).
      destruct (nullish v) eqn:En.
      * subst w. unfold O.none.
        rewrite (compact_field_none H) by (by apply lookup_old).
        symmetry. apply map_lookup_filter_None. right. intros v' Hv'. simpl.
        assert (v' = v) by congruence. subst v'. by rewrite En.
      * destruct Hc as (i & -> & Hi). rewrite (compact_field_some H _ v Hi).
        symmetry. apply map_lookup_filter_Some. by split.
    + symmetry. apply map_lookup_filter_None.
      destruct (own o !! k) as [v|] eqn:Hv; [|by left]. exfalso.
      assert (Hk : k ∈ own_keys o) by (apply own_keys_elem; eauto).
      specialize (Hin k Hk). destruct (nullish (obj_get o k)).
      * fold m in Hin. congruence.
      * destruct Hin as (i & Hi & _). fold m in Hi. congruence.
  - unfold H. rewrite <- app_assoc. by apply prefix_app_r.
Qed.

Lemma compactS_unCompact_roundtrip_witness :
  ∃ l' h',
    (let* w := unCompact 2 in compactS w) nullable_store = Ret l' h'
    ∧ h' !! l' = Some (literal {[ "foo" := VNum 123; "baz" := VStr "abc" ]}).
Proof.
  destruct (compactS_unCompact_roundtrip nullable_store 2
    (literal {[ "foo" := VNum 123; "bar" := VUndefined; "baz" := VStr "abc" ]})
    eq_refl eq_refl eq_refl) as (l' & h' & E & Hl & _).
  exists l', h'. split; [exact E|]. rewrite Hl. by vm_compute.
Defined.

(** C7 (the code departs from the claim): [unCompact] writes the fields of
    its result by assignment, [ops[key] = fromNullable(a[key])], which for the
    key [__proto__] runs the setter of [Object.prototype] and creates no
    field.  On the struct [{"__proto__": 5, foo: 1}] (as [JSON.parse] builds
    it), none of whose values is recognised as optional-wrapped,
    [compactS(unCompact(s))] is [{foo: 1}]: the field [__proto__], whose
    value is not nullish, is missing from the result. *)
Theorem unCompact_loses_proto_field :
  member_store !! 3 = Some (literal {[ "__proto__" := VNum 5; "foo" := VNum 1 ]})
  ∧ isOption_in member_store (VNum 5) = false
  ∧ isOption_in member_store (VNum 1) = false
  ∧ (∃ l h', (let* w := unCompact 3 in compactS w) member_store = Ret l h'
             ∧ h' !! l = Some (literal {[ "foo" := VNum 1 ]}))
  ∧ filter (λ kv, nullish kv.2 = false)
      ({[ "__proto__" := VNum 5; "foo" := VNum 1 ]} : gmap string val)
    !! "__proto__" = Some (VNum 5).
Proof.
  split; [done|]. split; [done|]. split; [done|]. split.
  - eexists _, _. split; [by vm_compute|]. by vm_compute.
  - by vm_compute.
Qed.

(** ** [traverseS] *)

(** A loop with an accumulator, through an abstraction of the store. *)
Lemma fold_of_abs {A S T} (emb : T → heap) (acc : T → S) (step : A → T → T)
    (xs : list A) (body : S → A → M S) (t : T) :
  (∀ x t', x ∈ xs → body (acc t') x (emb t') = Ret (acc (step x t')) (emb (step x t'))) →
  fold_of xs (acc t) body (emb t)
  = Ret (acc (foldl (λ t' x, step x t') t xs)) (emb (foldl (λ t' x, step x t') t xs)).
Proof.
  revert t. induction xs as [|x xs IH]; intros t Hbody; [done|].
  simpl. rewrite (bind_Ret _ _ _ (acc (step x t)) (emb (step x t))).
  - apply IH. intros y t' Hy. apply Hbody. by right.
  - apply Hbody. by left.
Qed.

Lemma foldl_app_flat_map {A B} (ev : A → list B) (xs : list A) (l : list B) :
  foldl (λ l x, l ++ ev x) l xs = l ++ flat_map ev xs.
Proof.
  revert l. induction xs as [|x xs IH]; intros l; simpl.
  - by rewrite app_nil_r.
  - rewrite IH. by rewrite <- app_assoc.
Qed.

Lemma keys_Ret (O : Ord) (h : heap) r o :
  h !! r = Some o →
  R.keys O r h = Ret (merge_sort (λ a b, compare O a b ≠ Gt) (own_keys o)) h.
Proof.
  intros Hr. unfold R.keys. by erewrite bind_Ret; [|by apply object_keys_Ret].
Qed.

Lemma spy_handlers_lookup (g : gmap string (val → val)) k :
  Spy.handlers g !! k = (λ gk v, ([k], gk v)) <$> g !! k.
Proof. unfold Spy.handlers. rewrite map_lookup_imap. by destruct (g !! k). Qed.

Lemma spy_count_map (h : heap) n a fr :
  Spy.count (length h) "map" (h ++ Spy.counter n a :: fr)
  = Ret tt (h ++ Spy.counter (S n) a :: fr).
Proof.
  unfold Spy.count.
  erewrite bind_Ret; [|apply get_prop_ref, lookup_fresh0].
  change (obj_get (Spy.counter n a) "map") with (VNum (Z.of_nat n)). cbv beta iota.
  erewrite set_prop_ref; [|apply lookup_fresh0|done].
  rewrite insert_fresh0. do 3 f_equal.
  unfold obj_set, Spy.counter, literal. cbn [own inherited ordinary]. f_equal.
  rewrite insert_insert_eq. do 2 f_equal. lia.
Qed.

Lemma spy_count_ap (h : heap) n a fr :
  Spy.count (length h) "ap" (h ++ Spy.counter n a :: fr)
  = Ret tt (h ++ Spy.counter n (S a) :: fr).
Proof.
  unfold Spy.count.
  erewrite bind_Ret; [|apply get_prop_ref, lookup_fresh0].
  change (obj_get (Spy.counter n a) "ap") with (VNum (Z.of_nat a)). cbv beta iota.
  erewrite set_prop_ref; [|apply lookup_fresh0|done].
  rewrite insert_fresh0. do 3 f_equal.
  unfold obj_set, Spy.counter, literal. cbn [own inherited ordinary]. f_equal.
  rewrite insert_insert_ne by done. rewrite insert_singleton_eq.
  do 3 f_equal. lia.
Qed.

Lemma spy_fold (g : gmap string (val → val)) (o : obj) rest n a runs m :
  ∃ m', foldl (λ t k, spy_step g o k t) (n, a, runs, m) rest
        = (n + length rest, a + length (List.filter (handled g) rest),
           runs ++ List.filter (handled g) rest, m').
Proof.
  revert n a runs m. induction rest as [|k rest IH]; intros n a runs m.
  - exists m. cbn. by rewrite !Nat.add_0_r, app_nil_r.
  - cbn [foldl List.filter length]. unfold spy_step at 2.
    destruct (g !! k) as [gk|] eqn:Eg.
    + assert (Hh : handled g k = true).
      { unfold handled. rewrite Eg. by apply bool_decide_eq_true. }
      rewrite Hh.
      destruct (IH (S n) (S a) (runs ++ [k]) (<[k := gk (obj_get o k)]> m)) as [m' ->].
      exists m'. cbn [length].
      replace (S n + length rest) with (n + S (length rest)) by lia.
      replace (S a + length (List.filter (handled g) rest))
        with (a + S (length (List.filter (handled g) rest))) by lia.
      by rewrite <- app_assoc.
    + assert (Hh : handled g k = false).
      { unfold handled. rewrite Eg. apply bool_decide_eq_false. by intros [? ?]. }
      rewrite Hh.
      destruct (IH (S n) a runs (<[k := obj_get o k]> m)) as [m' ->].
      exists m'.
      by replace (S n + length rest) with (n + S (length rest)) by lia.
Qed.

Lemma traverseS_spy_run (O : Ord) (g : gmap string (val → val)) (h : heap)
    ta o k0 rest :
  h !! ta = Some o → plain_struct g o →
  merge_sort (λ a b, compare O a b ≠ Gt) (own_keys o) = k0 :: rest →
  ∃ m,
    traverseS O (Spy.Apply (length h)) (Spy.handlers g) ta (h ++ [Spy.counter 0 0])
    = Ret (List.filter (handled g) (k0 :: rest), VRef (S (length h)))
          (h ++ [ Spy.counter (S (length rest))
                    (length (List.filter (handled g) rest));
                  literal m ]).
Proof.
  intros Hta [Hproto Hplain] Hks. unfold traverseS.
  assert (Hin : ∀ k, k ∈ k0 :: rest → k ∈ own_keys o).
  { intros k. by rewrite <- Hks, merge_sort_Permutation. }
  assert (Hget : ∀ k, k ∈ k0 :: rest →
            table_get (Spy.handlers g) k
            = match g !! k with
              | Some gk => Own (λ v, ([k], gk v))
              | None => Absent
              end).
  { intros k Hk. apply Hin, own_keys_elem in Hk.
    unfold table_get. rewrite spy_handlers_lookup.
    destruct (g !! k) eqn:Eg; [done|]. cbn. by rewrite (Hplain k Hk Eg). }
  erewrite bind_Ret; [|apply keys_Ret, lookup_old, Hta]. rewrite Hks. cbn [hd tail].
  erewrite bind_Ret; [|apply get_prop_ref, lookup_old, Hta].
  set (x0 := match g !! k0 with Some gk => gk (obj_get o k0) | None => obj_get o k0 end).
  erewrite (bind_Ret _ _ _ (List.filter (handled g) [k0], x0) (h ++ [Spy.counter 0 0])).
  2:{ rewrite Hget by by left. unfold x0, handled. cbn [List.filter].
      destruct (g !! k0) as [gk|] eqn:Eg.
      - by rewrite bool_decide_true by eauto.
      - by rewrite bool_decide_false by (by intros [? ?]). }
  set (r0 := List.filter (handled g) [k0]).
  erewrite (bind_Ret _ _ _ (r0, VRef (S (length h)))
              (h ++ [Spy.counter 1 0; literal {[ k0 := x0 ]}])).
  2:{ cbn [map Spy.Apply fst snd].
      rewrite (bind_Ret _ _ _ _ _ (spy_count_map h 0 0 [])).
      erewrite bind_Ret.
      2:{ erewrite bind_Ret; [|apply (alloc_fresh _ h [Spy.counter 1 0])]. reflexivity. }
      cbn [length app]. by rewrite Nat.add_1_r. }
  pose (emb := λ t : nat * nat * list string * gmap string val,
                 h ++ [Spy.counter t.1.1.1 t.1.1.2; literal t.2]).
  pose (acc := λ t : nat * nat * list string * gmap string val,
                 ((t.1.2, VRef (S (length h))) : Spy.Traced val)).
  change (h ++ [Spy.counter 1 0; literal {[ k0 := x0 ]}])
    with (emb (1, 0, r0, {[ k0 := x0 ]})).
  change (r0, VRef (S (length h))) with (acc (1, 0, r0, {[ k0 := x0 ]})).
  rewrite (fold_of_abs emb acc (spy_step g o)).
  - destruct (spy_fold g o rest 1 0 r0 {[ k0 := x0 ]}) as [m' E].
    exists m'. rewrite E. unfold acc, emb, r0. cbn [fst snd List.filter].
    by destruct (handled g k0).
  - intros k [[[n a] runs] m] Hk.
    assert (Hk' : k ∈ k0 :: rest) by by right.
    assert (Hne : k ≠ "__proto__") by (by apply (own_key_not_proto o), Hin).
    unfold acc, emb, spy_step. cbn [fst snd].
    rewrite (Hget k Hk'). destruct (g !! k) as [gk|] eqn:Eg.
    + erewrite bind_Ret; [|apply get_prop_ref, lookup_old, Hta].
      cbn [map ap Spy.Apply fst snd].
      erewrite (bind_Ret _ _ _ (runs, _)).
      2:{ rewrite (bind_Ret _ _ _ _ _ (spy_count_map h n a _)). reflexivity. }
      cbn [fst snd].
      rewrite (bind_Ret _ _ _ _ _ (spy_count_ap h (S n) a _)).
      erewrite bind_Ret.
      2:{ erewrite bind_Ret; [|apply set_prop_ref; [apply (lookup_fresh1 h)|done]].
          reflexivity. }
      by rewrite insert_fresh1.
    + cbn [map Spy.Apply fst snd].
      rewrite (bind_Ret _ _ _ _ _ (spy_count_map h n a _)).
      erewrite bind_Ret.
      2:{ erewrite bind_Ret; [|apply get_prop_ref, lookup_old, Hta].
          erewrite bind_Ret; [|apply set_prop_ref; [apply (lookup_fresh1 h)|done]].
          reflexivity. }
      by rewrite insert_fresh1.
Qed.

(** C6 (as amended): one call of [traverseS] on a non-empty struct (without
    a field named [__proto__] or a handler-less field named after a member of
    [Object.prototype]) makes one pass over the fields in the order of the
    Ordering Provider; it calls [F.map] exactly once per field and [F.ap]
    exactly once per field after the first that has a handler, so the number
    of [ap]/[map] operations is the number of fields plus the number of fields
    after the first that have a handler; the effects of the handlers are
    combined once each, in that order.  The calls are counted by the
    capability itself, in the store, whatever becomes of their results. *)
Theorem traverseS_operation_count (O : Ord) (g : gmap string (val → val))
    (h : heap) ta o :
  h !! ta = Some o → own o ≠ ∅ → plain_struct g o →
  let ks := merge_sort (λ a b, compare O a b ≠ Gt) (own_keys o) in
  ∃ runs r m,
    traverseS O (Spy.Apply (length h)) (Spy.handlers g) ta (h ++ [Spy.counter 0 0])
    = Ret (runs, r)
          (h ++ [ Spy.counter (size (own o))
                    (length (List.filter (handled g) (tail ks)));
                  literal m ])
    ∧ R.keys O ta h = Ret ks h
    ∧ ks ≡ₚ own_keys o
    ∧ runs = List.filter (handled g) ks.
Proof.
  intros Hta Hne Hplain ks.
  assert (Hperm : ks ≡ₚ own_keys o) by apply merge_sort_Permutation.
  assert (Hlen : length ks = size (own o)).
  { by rewrite Hperm, own_keys_length. }
  destruct ks as [|k0 rest] eqn:Eks.
  { exfalso. apply Hne. apply map_size_empty_inv. by rewrite <- Hlen. }
  destruct (traverseS_spy_run O g h ta o k0 rest Hta Hplain Eks) as [m E].
  cbn [tail]. cbn [length] in Hlen. rewrite <- Hlen.
  eexists _, _, m. split; [exact E|].
  split; [by rewrite (keys_Ret O h ta o Hta); fold ks; rewrite Eks|].
  done.
Qed.

Lemma traverseS_operation_count_witness :
  ∃ runs r m,
    traverseS StringOrd (Spy.Apply 4) (Spy.handlers {[ "b" := λ v, v ]}) 2
      (traverse_store ++ [Spy.counter 0 0])
    = Ret (runs, r) (traverse_store ++ [Spy.counter 2 1; literal m])
    ∧ runs = ["b"].
Proof.
  destruct (traverseS_operation_count StringOrd {[ "b" := λ v, v ]} traverse_store 2
              (literal {[ "a" := VNum 1; "b" := VNum 2 ]}) eq_refl)
    as (runs & r & m & E & _ & _ & Hruns).
  { intros Hemp. apply (f_equal (λ m : gmap string val, m !! "a")) in Hemp.
    vm_compute in Hemp. discriminate. }
  { apply plain_struct_check; [done|]. apply (bool_decide_unpack _). by vm_compute. }
  exists runs, r, m. split; [exact E|]. by rewrite Hruns.
Defined.

(** C6 (as stated) fails: on [{a: 1, b: 2}] with a handler for each of the two
    fields, [traverseS] performs three operations on the capability (two
    [map], one [ap]), not two. *)
Lemma traverseS_three_operations_for_two_fields :
  ∃ runs r m,
    traverseS StringOrd (Spy.Apply 4)
      (Spy.handlers {[ "a" := λ v, v; "b" := λ v, v ]}) 2
      (traverse_store ++ [Spy.counter 0 0])
    = Ret (runs, r) (traverse_store ++ [Spy.counter 2 1; literal m])
    ∧ 2 + 1
      ≠ length (List.filter (handled (Spy.handlers {[ "a" := λ v, v; "b" := λ v, v ]}))
                  ["a"; "b"])
        + length (List.filter
                    (λ k, negb (handled (Spy.handlers {[ "a" := λ v, v; "b" := λ v, v ]}) k))
                    ["a"; "b"]).
Proof.
  eexists _, _, _. split; [by vm_compute|]. by vm_compute.
Qed.

(** *** Under the optional effect *)

(** On a plain struct every key of the pass is an own key other than
    [__proto__], at which indexing the table finds the own handler or
    nothing. *)
Lemma sorted_keys_plain {X} (O : Ord) (f : gmap string X) (o : obj) ks k :
  plain_struct f o →
  merge_sort (λ a b, compare O a b ≠ Gt) (own_keys o) = ks →
  k ∈ ks →
  k ≠ "__proto__"
  ∧ own o !! k = Some (obj_get o k)
  ∧ table_get f k = match f !! k with Some fk => Own fk | None => Absent end.
Proof.
  intros [Hp Hf] <- Hk. rewrite merge_sort_Permutation in Hk.
  split; [by apply (own_key_not_proto o)|].
  split; [by apply own_keys_get|].
  by apply (table_get_own f o k (obj_get o k)), own_keys_get.
Qed.

Lemma traverseS_option_run (O : Ord) (f : gmap string (val → option val))
    (h : heap) ta o k0 rest fk0 :
  h !! ta = Some o → plain_struct f o →
  merge_sort (λ a b, compare O a b ≠ Gt) (own_keys o) = k0 :: rest →
  f !! k0 = Some fk0 →
  let seed := match fk0 (obj_get o k0) with
              | Some b => Going {[ k0 := b ]}
              | None => Unseeded
              end in
  let t := foldl (λ t k, progress_step f o k t) seed rest in
  traverseS O O.Apply f ta h = Ret (progress_effect h t) (progress_store h t).
Proof.
  intros Hta Hplain Hks Hk0 seed t. unfold traverseS.
  pose proof (λ k, sorted_keys_plain O f o (k0 :: rest) k Hplain Hks) as Hkey.
  erewrite bind_Ret; [|by apply keys_Ret]. rewrite Hks. cbn [hd tail].
  erewrite bind_Ret; [|by apply get_prop_ref].
  destruct (Hkey k0) as (_ & _ & ->); [by left|]. rewrite Hk0.
  rewrite (bind_Ret _ _ _ (fk0 (obj_get o k0)) h) by done.
  erewrite (bind_Ret _ _ h (progress_effect h seed) (progress_store h seed)).
  2:{ unfold seed. cbn [map O.Apply].
      destruct (fk0 (obj_get o k0)) as [b|]; [|done].
      unfold bind. by rewrite alloc_first. }
  apply (fold_of_abs (progress_store h) (progress_effect h) (progress_step f o)).
  intros k t' Hk. destruct (Hkey k) as (Hne & _ & ->); [by right|].
  destruct t' as [|m|m]; cbn [progress_effect progress_store progress_step].
  - destruct (f !! k) as [fk|]; cbn [map ap O.Apply]; [|done].
    erewrite bind_Ret; [|by apply get_prop_ref].
    by rewrite (bind_Ret _ _ _ None h).
  - destruct (f !! k) as [fk|]; cbn [map ap O.Apply]; [|done].
    erewrite bind_Ret; [|apply get_prop_ref, lookup_old, Hta].
    by rewrite (bind_Ret _ _ _ None (h ++ [literal m])).
  - destruct (f !! k) as [fk|]; cbn [map ap O.Apply].
    + erewrite bind_Ret; [|apply get_prop_ref, lookup_old, Hta].
      erewrite bind_Ret; [|reflexivity].
      destruct (fk (obj_get o k)) as [b|]; [|done].
      erewrite bind_Ret.
      2:{ erewrite bind_Ret; [|apply set_prop_ref; [apply lookup_fresh0|done]].
          reflexivity. }
      by rewrite insert_fresh0.
    + erewrite bind_Ret.
      2:{ erewrite bind_Ret; [|apply get_prop_ref, lookup_old, Hta].
          erewrite bind_Ret; [|apply set_prop_ref; [apply lookup_fresh0|done]].
          reflexivity. }
      by rewrite insert_fresh0.
Qed.

(** Once absent, always absent. *)
Lemma progress_stays_absent f o rest t :
  progress_effect [] t = None →
  progress_effect [] (foldl (λ t k, progress_step f o k t) t rest) = None.
Proof.
  revert t. induction rest as [|k rest IH]; intros t Ht; [done|].
  simpl. apply IH. by destruct t.
Qed.

(** A pass in which every handler succeeds is under way to the end, having
    assigned every key. *)
Lemma progress_all_succeed f o rest m :
  (∀ k fk, k ∈ rest → f !! k = Some fk → is_Some (fk (obj_get o k))) →
  foldl (λ t k, progress_step f o k t) (Going m) rest
  = Going (assign_all (resolved f o) rest m).
Proof.
  revert m. induction rest as [|k rest IH]; intros m Hok; [done|].
  cbn [foldl]. unfold assign_all. cbn [foldl]. fold (assign_all (resolved f o) rest).
  assert (Hstep : progress_step f o k (Going m) = Going (<[k := resolved f o k]> m)).
  { unfold progress_step, resolved. destruct (f !! k) as [fk|] eqn:Ef; [|done].
    destruct (Hok k fk) as [b Hb]; [by left|done|]. by rewrite Hb. }
  rewrite Hstep. apply IH. intros k' fk' Hin. apply Hok. by right.
Qed.

(** A pass that meets a handler returning absence ends absent. *)
Lemma progress_meets_absence f o rest t k fk :
  k ∈ rest → f !! k = Some fk → fk (obj_get o k) = None →
  progress_effect [] (foldl (λ t k, progress_step f o k t) t rest) = None.
Proof.
  revert t. induction rest as [|k' rest IH]; intros t Hin Hk Hnone.
  - by apply elem_of_nil in Hin.
  - cbn [foldl]. apply elem_of_cons in Hin as [<-|Hin].
    + apply progress_stays_absent. destruct t as [|m|m]; try done.
      cbn [progress_step]. by rewrite Hk, Hnone.
    + by apply IH.
Qed.

(** The part of C1 that the code meets (under the optional effect, on a
    plain struct): when the
    first field in order has a handler and every handler succeeds,
    [traverseS] returns [some] of a new struct with the field set of the
    input, a field with a handler holding the handler's output and a field
    without one its original value. *)
Lemma traverseS_option_success (O : Ord) (f : gmap string (val → option val))
    (h : heap) ta o k0 rest :
  h !! ta = Some o → plain_struct f o →
  merge_sort (λ a b, compare O a b ≠ Gt) (own_keys o) = k0 :: rest →
  is_Some (f !! k0) →
  (∀ k v fk, own o !! k = Some v → f !! k = Some fk → is_Some (fk v)) →
  ∃ res,
    traverseS O O.Apply f ta h = Ret (Some (VRef (length h))) (h ++ [literal res])
    ∧ dom res = dom (own o)
    ∧ ∀ k v, own o !! k = Some v →
        res !! k = match f !! k with Some fk => fk v | None => Some v end.
Proof.
  intros Hta Hplain Hks [fk0 Hk0] Hok.
  assert (Hperm : k0 :: rest ≡ₚ own_keys o).
  { rewrite <- Hks. apply merge_sort_Permutation. }
  assert (Hin : ∀ k, k ∈ k0 :: rest ↔ is_Some (own o !! k)).
  { intros k. by rewrite Hperm, own_keys_elem. }
  assert (Hok' : ∀ k fk, k ∈ k0 :: rest → f !! k = Some fk →
                         is_Some (fk (obj_get o k))).
  { intros k fk Hk Hf. apply Hin in Hk as [v Hv].
    rewrite (obj_get_own _ _ _ Hv). by eapply Hok. }
  rewrite (traverseS_option_run O f h ta o k0 rest fk0 Hta Hplain Hks Hk0).
  destruct (Hok' k0 fk0) as [b0 Hb0]; [by left|done|]. rewrite Hb0.
  rewrite progress_all_succeed by (intros k fk Hk; apply Hok'; by right).
  cbn [progress_effect progress_store].
  assert (Hseed : ({[ k0 := b0 ]} : gmap string val) = <[k0 := resolved f o k0]> ∅).
  { unfold resolved. by rewrite Hk0, Hb0. }
  rewrite Hseed.
  change (assign_all (resolved f o) rest (<[k0 := resolved f o k0]> ∅))
    with (assign_all (resolved f o) (k0 :: rest) ∅).
  eexists. split; [reflexivity|]. split.
  - apply set_eq. intros k. rewrite !elem_of_dom, <- Hin.
    unfold is_Some. rewrite assign_all_lookup. case_decide as Hk.
    + split; [done|eauto].
    + rewrite lookup_empty. split; [by intros [? ?]|done].
  - intros k v Hv. rewrite assign_all_lookup.
    rewrite decide_True by (apply Hin; eauto).
    unfold resolved. rewrite (obj_get_own _ _ _ Hv).
    destruct (f !! k) as [fk|] eqn:Ef; [|done].
    destruct (Hok k v fk Hv Ef) as [b Hb]. by rewrite Hb.
Qed.

(** The part of C3 that the code meets (on a plain struct): when the first
    field in order has a handler, the result is absence as soon as the handler of any field
    returns absence, wherever that field stands in the order. *)
Lemma traverseS_option_absence (O : Ord) (f : gmap string (val → option val))
    (h : heap) ta o k0 rest k v fk :
  h !! ta = Some o → plain_struct f o →
  merge_sort (λ a b, compare O a b ≠ Gt) (own_keys o) = k0 :: rest →
  is_Some (f !! k0) →
  own o !! k = Some v → f !! k = Some fk → fk v = None →
  ∃ h', traverseS O O.Apply f ta h = Ret None h' ∧ h `prefix_of` h'.
Proof.
  intros Hta Hplain Hks [fk0 Hk0] Hv Hk Hnone.
  rewrite (traverseS_option_run O f h ta o k0 rest fk0 Hta Hplain Hks Hk0).
  assert (Hin : k ∈ k0 :: rest).
  { rewrite <- Hks, merge_sort_Permutation. apply own_keys_elem. eauto. }
  rewrite <- (obj_get_own _ _ _ Hv) in Hnone.
  set (t := foldl _ _ rest).
  assert (Ht : progress_effect [] t = None).
  { unfold t. apply elem_of_cons in Hin as [->|Hin].
    - apply progress_stays_absent.
      assert (fk0 = fk) by congruence. subst fk0. by rewrite Hnone.
    - by eapply progress_meets_absence. }
  eexists. split.
  - f_equal. by destruct t.
  - destruct t; simpl; [done|by apply prefix_app_r..].
Qed.

(** C1 (the code departs from the claim): under the optional effect, on
    [{a: 1, b: 2}] with a succeeding handler for [b] only, the first field [a]
    has no handler and [traverseS] returns [some({a: undefined, b: 3})]: the
    field without a handler does not hold its original value [1]. *)
Theorem traverseS_first_field_without_handler :
  traverse_store !! 2 = Some (literal {[ "a" := VNum 1; "b" := VNum 2 ]})
  ∧ dom increment_b ⊆ dom ({[ "a" := VNum 1; "b" := VNum 2 ]} : gmap string val)
  ∧ (∃ fk, increment_b !! "b" = Some fk ∧ fk (VNum 2) = Some (VNum 3))
  ∧ traverseS StringOrd O.Apply increment_b 2 traverse_store
    = Ret (Some (VRef 4))
          (traverse_store ++ [literal {[ "a" := VUndefined; "b" := VNum 3 ]}]).
Proof.
  split; [done|]. split.
  - apply (bool_decide_unpack _). by vm_compute.
  - split; [by eexists|]. by vm_compute.
Qed.

(** C3 (the code departs from the claim): under the optional effect, on
    [{a: null, b: 1}] where the handler of [b] returns absence, the first
    field [a] has no handler and [traverseS] throws a [TypeError] instead of
    returning absence. *)
Theorem traverseS_absent_handler_throws :
  traverse_store !! 3 = Some (literal {[ "a" := VNull; "b" := VNum 1 ]})
  ∧ (∃ fk, absent_b !! "b" = Some fk ∧ fk (VNum 1) = None)
  ∧ traverseS StringOrd O.Apply absent_b 3 traverse_store
    = Throw TypeError traverse_store.
Proof. split; [done|]. split; [by eexists|]. by vm_compute. Qed.

(** ** The structural editing utilities *)

Lemma pick_spec (h : heap) ks x ox :
  h !! x = Some ox → "__proto__" ∉ ks →
  pick ks x h = Ret (length h) (h ++ [literal (assign_all (obj_get ox) ks ∅)]).
Proof.
  intros Hx Hp. unfold pick.
  rewrite (bind_Ret _ _ _ _ _ (alloc_first _ h)).
  pose (emb := λ m : gmap string val, h ++ [literal m]).
  change (h ++ [literal ∅]) with (emb ∅).
  erewrite bind_Ret.
  2:{ apply (for_of_abs emb (λ k m, <[k := obj_get ox k]> m)).
      intros k m Hk. unfold emb.
      erewrite bind_Ret; [|apply get_prop_ref, lookup_old, Hx].
      erewrite set_prop_ref; [|apply lookup_fresh0|by intros ->].
      by rewrite insert_fresh0. }
  done.
Qed.

Lemma omit_spec (h : heap) ks x ox :
  h !! x = Some ox →
  omit ks x h = Ret (length h) (h ++ [literal (foldl (λ m k, delete k m) (own ox) ks)]).
Proof.
  intros Hx. unfold omit.
  rewrite (bind_Ret _ _ _ _ _ (alloc_first _ h)).
  pose proof (copy_own_fresh h x ox [] (literal ∅) [] Hx) as C.
  simpl in C. rewrite Nat.add_0_r in C. rewrite (bind_Ret _ _ _ _ _ C).
  rewrite (right_id_L ∅ (∪)).
  pose (emb := λ m : gmap string val, h ++ [literal m]).
  change (h ++ [Obj (own ox) ∅ true]) with (emb (own ox)).
  erewrite bind_Ret.
  2:{ apply (for_of_abs emb (λ k m, delete k m)).
      intros k m _. unfold emb.
      erewrite delete_prop_ref by apply lookup_fresh0. by rewrite insert_fresh0. }
  done.
Qed.

(** The loop shared by the variadic [omit] and the rest pattern: copying the
    keys that pass a test. *)
Lemma copy_selected_spec (keep : string → bool) (h : heap) src os
    (body : string → M unit) :
  h !! src = Some os →
  (∀ k h', k ∈ own_keys os → body k h'
     = (if keep k then
          let* v := get_prop (VRef src) k in define_prop (VRef (length h)) k v
        else ret tt) h') →
  for_of (own_keys os) body (h ++ [literal ∅])
  = Ret tt (h ++ [literal (map_imap (λ k v, if keep k then Some v else None) (own os))]).
Proof.
  intros Hs Hbody.
  pose (emb := λ m : gmap string val, h ++ [literal m]).
  change (h ++ [literal ∅]) with (emb ∅).
  rewrite (for_of_abs emb (λ k m,
    match (if keep k then Some (obj_get os k) else None) with
    | Some v => <[k := v]> m | None => m end)).
  - unfold emb. do 2 f_equal.
    pose proof (assign_some_own_keys os (λ k v, if keep k then Some v else None)) as E.
    unfold assign_some in E. by rewrite E.
  - intros k m Hk. rewrite Hbody by done. unfold emb. destruct (keep k); [|done].
    erewrite bind_Ret; [|apply get_prop_ref, lookup_old, Hs].
    erewrite define_prop_ref by apply lookup_fresh0. by rewrite insert_fresh0.
Qed.

Lemma variadic_omit_spec (h : heap) ks x ox :
  h !! x = Some ox → "__proto__" ∈ ks ∨ own ox !! "__proto__" = None →
  Do.omit ks x h
  = Ret (length h)
        (h ++ [literal (map_imap (λ k v, if negb (bool_decide (k ∈ ks)) then Some v else None)
                          (own ox))])
  ∧ At.omit ks x h = Do.omit ks x h.
Proof.
  intros Hx Hp. split; [|done]. unfold Do.omit.
  rewrite (bind_Ret _ _ _ _ _ (alloc_first _ h)).
  erewrite bind_Ret; [|apply object_keys_Ret, lookup_old, Hx].
  erewrite bind_Ret.
  2:{ apply (copy_selected_spec (λ k, negb (bool_decide (k ∈ ks))) h x ox); [done|].
      intros k h' Hk. case_bool_decide as Hin; [done|]. cbn [negb].
      unfold bind. destruct (get_prop (VRef x) k h'); [|done].
      apply set_prop_define. intros ->. destruct Hp as [Hp|Hp]; [done|].
      by apply (own_key_not_proto ox "__proto__" Hp). }
  done.
Qed.

Lemma rest_without_spec (h : heap) p src os :
  h !! src = Some os →
  rest_without p src h = Ret (length h) (h ++ [literal (delete p (own os))]).
Proof.
  intros Hs. unfold rest_without.
  rewrite (bind_Ret _ _ _ _ _ (alloc_first _ h)).
  erewrite bind_Ret; [|apply object_keys_Ret, lookup_old, Hs].
  erewrite bind_Ret.
  2:{ apply (copy_selected_spec (λ k, negb (bool_decide (k = p))) h src os); [done|].
      intros k h' _. by destruct (bool_decide (k = p)). }
  unfold ret. do 4 f_equal. apply map_eq. intros k.
  rewrite map_lookup_imap. destruct (decide (k = p)) as [->|Hne].
  - rewrite lookup_delete_eq, bool_decide_true by done. by destruct (own os !! p).
  - rewrite lookup_delete_ne, bool_decide_false by done. by destruct (own os !! k).
Qed.

(** The object that replaces field [p] by [x] after the rest pattern. *)
Lemma replace_field_spec (h : heap) (p q : string) (x : val) src os :
  h !! src = Some os →
  (let* rest := rest_without p src in
   let* res := alloc (literal ∅) in
   define_prop (VRef res) q x ;;
   copy_own rest res ;;
   ret res) h
  = Ret (S (length h))
        (h ++ [ literal (delete p (own os));
                literal (delete p (own os) ∪ {[ q := x ]}) ]).
Proof.
  intros Hs.
  erewrite bind_Ret; [|by apply rest_without_spec].
  erewrite bind_Ret; [|apply (alloc_fresh _ h [_])].
  cbn [length app]. rewrite Nat.add_1_r.
  erewrite bind_Ret; [|apply define_prop_ref, lookup_fresh1].
  rewrite insert_fresh1.
  erewrite bind_Ret.
  2:{ apply (copy_own_spec _ (length h) (S (length h))
               (literal (delete p (own os))) (obj_set (literal ∅) q x)).
      - apply lookup_fresh0.
      - apply lookup_fresh1.
      - lia. }
  rewrite insert_fresh1. unfold ret, obj_set, literal. cbn [own inherited].
  by rewrite insert_empty.
Qed.

Lemma renameAt_spec (h : heap) from to o oo :
  h !! o = Some oo →
  At.renameAt from to o h
  = Ret (S (length h))
        (h ++ [ literal (delete from (own oo));
                literal (delete from (own oo) ∪ {[ to := obj_get oo from ]}) ]).
Proof.
  intros Ho. unfold At.renameAt.
  erewrite bind_Ret; [|by apply get_prop_ref].
  by apply replace_field_spec.
Qed.

Lemma mapAt_spec (h : heap) prop f a oa :
  h !! a = Some oa →
  At.mapAt prop f a h
  = Ret (S (length h))
        (h ++ [ literal (delete prop (own oa));
                literal (delete prop (own oa) ∪ {[ prop := f (obj_get oa prop) ]}) ]).
Proof.
  intros Ha. unfold At.mapAt, At.mapAtE. cbn [At.fmap At.IDFunctor].
  erewrite bind_Ret; [|by apply get_prop_ref].
  by apply replace_field_spec.
Qed.


(** ** A field name that already exists *)




(** ** [refine] *)

Lemma sorted_keys_nonempty (O : Ord) (o : obj) :
  own o ≠ ∅ → merge_sort (λ a b, compare O a b ≠ Gt) (own_keys o) ≠ [].
Proof.
  intros Hne Hnil. apply Hne, map_size_empty_inv.
  rewrite <- own_keys_length.
  by rewrite <- (merge_sort_Permutation (λ a b, compare O a b ≠ Gt) (own_keys o)), Hnil.
Qed.

Lemma refine_field_own predicates (o : obj) k v (h1 : heap) :
  own_handlers_only predicates o → own o !! k = Some v →
  refine_field predicates k v h1
  = Ret (match predicates !! k with
         | Some p => O.fromPredicate p v
         | None => Some v
         end) h1.
Proof.
  intros Hf Hv. unfold refine_field.
  rewrite (table_get_own predicates o k v Hf Hv). by destruct (predicates !! k).
Qed.

Lemma sorted_keys_own (O : Ord) (o : obj) k :
  k ∈ merge_sort (λ a b, compare O a b ≠ Gt) (own_keys o) →
  own o !! k = Some (obj_get o k).
Proof. rewrite merge_sort_Permutation. apply own_keys_get. Qed.


(** ** Frames: what a run leaves of the initial store *)

Lemma frames_ret {A} (I : heap → Prop) (Q : A → Prop) a h :
  I h → Q a → frames I Q (ret a h).
Proof. intros HI HQ. split; [done|]. by intros ? ? [= <- <-]. Qed.







Lemma prefix_insert_new (h0 h : heap) l o :
  h0 `prefix_of` h → length h0 ≤ l → h0 `prefix_of` <[l := o]> h.
Proof.
  intros [t ->] Hl. exists (<[l - length h0 := o]> t).
  by rewrite insert_app_r_alt.
Qed.

Lemma frames_define_prop_new (h0 : heap) r k x h :
  h0 `prefix_of` h → new_in h0 r →
  frames (prefix h0) (λ _, True) (define_prop r k x h).
Proof.
  intros Hp (l & -> & Hl). split; [|done].
  unfold define_prop, bind, read, write.
  destruct (h !! l) eqn:E; rewrite ?E; simpl; [|done].
  by apply prefix_insert_new.
Qed.





Lemma identity_Frames : Frames I.Apply (λ A P a, P a).
Proof.
  split.
  - intros A B I P Q f a h Hf Hfa HI. by apply Hf.
  - intros A B I P Q a g h Hfa Hfab HI. by apply Hfab.
  - intros I v h HI. by apply frames_ret.
  - done.
  - intros A P Q a HPQ. apply HPQ.
Qed.

Lemma evolve_field_own f (o : obj) k v (h1 : heap) :
  own_handlers_only f o → own o !! k = Some v →
  evolve_field f k v h1 = Ret (evolved f k v) h1.
Proof.
  intros Hf Hv. unfold evolve_field, evolved.
  rewrite (table_get_own f o k v Hf Hv). by destruct (f !! k).
Qed.

Lemma evolve_spec f (h : heap) a o :
  h !! a = Some o → own_handlers_only f o →
  evolve f a h
  = Ret (length h) (h ++ [literal (map_imap (λ k v, Some (evolved f k v)) (own o))]).
Proof.
  intros Ha Hf. unfold evolve.
  apply (mapWithIndex_spec _ (evolved f) h a o Ha).
  intros k v h1 Hv. by apply (evolve_field_own f o).
Qed.

(** ** No combinator mutates its input *)







(** * Further properties of the combinators *)

(** ** [evolve], [pick] and [omit] *)

Lemma imap_total_dom {A B} (g : string → A → B) (m : gmap string A) :
  dom (map_imap (λ k v, Some (g k v)) m) = dom m.
Proof.
  apply set_eq. intros k. rewrite !elem_of_dom, map_lookup_imap.
  destruct (m !! k); simpl; split; intros [? ?]; eauto; done.
Qed.


(** X1: on a struct without a field named [__proto__] and without a
    handler-less field named after a member of [Object.prototype], [evolve]
    returns a new plain object with exactly the own fields of the input: a
    field with a handler holds the handler applied to its value, a field
    without one its value unchanged.  Handlers for keys the struct does not
    have are ignored, properties the input inherits are not carried over, and
    without handlers the result is a copy. *)
Theorem evolve_fields f (h : heap) a o :
  h !! a = Some o → plain_struct f o →
  ∃ r, evolve f a h = Ret (length h) (h ++ [r])
       ∧ inherited r = ∅
       ∧ dom (own r) = dom (own o)
       ∧ (∀ k v, own o !! k = Some v → own r !! k = Some (evolved f k v))
       ∧ (f = ∅ → own r = own o).
Proof.
  intros Ha [_ Hf]. eexists. split; [by apply evolve_spec|].
  cbn [own inherited literal].
  split; [done|]. split; [apply imap_total_dom|]. split.
  - intros k v Hv. by rewrite map_lookup_imap, Hv.
  - intros ->. apply map_eq. intros k. rewrite map_lookup_imap.
    destruct (own o !! k); [|done]. simpl. unfold evolved. by rewrite lookup_empty.
Qed.

Lemma evolve_fields_witness :
  ∃ r, evolve evolve_handlers 3 evolve_store = Ret 4 (evolve_store ++ [r])
       ∧ inherited r = ∅
       ∧ own r !! "a" = None
       ∧ own r !! "b" = Some VUndefined.
Proof.
  destruct (evolve_fields evolve_handlers evolve_store 3
              (Obj {[ "b" := VNum 1 ]} {[ "a" := VNum 1 ]} true) eq_refl)
    as (r & E & Hinh & Hdom & Hf & _).
  { apply plain_struct_check; [done|]. apply (bool_decide_unpack _). by vm_compute. }
  exists r. split; [exact E|]. split; [exact Hinh|]. split.
  - apply not_elem_of_dom. rewrite Hdom. by vm_compute.
  - by rewrite (Hf "b" (VNum 1) eq_refl).
Defined.

Lemma own_handlers_only_dom {X} (f : gmap string X) (o o' : obj) :
  own_handlers_only f o → dom (own o') = dom (own o) → own_handlers_only f o'.
Proof.
  intros Hf Hdom k Hk. apply Hf. by rewrite <- elem_of_dom, <- Hdom, elem_of_dom.
Qed.

(** X2: on a struct without a field named [__proto__] and without a field
    that lacks a handler in either table and is named after a member of
    [Object.prototype], two [evolve]s in a row act as one whose handlers are
    composed field by field: each field of the final struct holds the second
    handler applied to what the first made of the original value. *)
Theorem evolve_compose f g (h : heap) a o :
  h !! a = Some o → plain_struct f o → plain_struct g o →
  ∃ r1 r2,
    (let* b := evolve f a in evolve g b) h = Ret (S (length h)) (h ++ [r1; r2])
    ∧ dom (own r2) = dom (own o)
    ∧ ∀ k v, own o !! k = Some v →
        own r2 !! k = Some (evolved g k (evolved f k v)).
Proof.
  intros Ha [_ Hf] [_ Hg].
  erewrite bind_Ret; [|by apply evolve_spec].
  erewrite evolve_spec; [|apply lookup_fresh0|].
  2:{ apply (own_handlers_only_dom g o); [done|]. apply imap_total_dom. }
  rewrite length_app, Nat.add_1_r, <- app_assoc. cbn [app].
  eexists _, _. split; [reflexivity|]. cbn [own literal]. split.
  - by rewrite !imap_total_dom.
  - intros k v Hv. by rewrite !map_lookup_imap, Hv.
Qed.

Lemma evolve_compose_witness :
  ∃ r1 r2,
    (let* b := evolve evolve_handlers 2 in evolve evolve_handlers b) evolve_store
    = Ret 5 (evolve_store ++ [r1; r2])
    ∧ own r2 !! "b" = Some (VBool true)
    ∧ own r2 !! "c" = Some (VStr "abc").
Proof.
  destruct (evolve_compose evolve_handlers evolve_handlers evolve_store 2
              (literal {[ "a" := VStr "a"; "b" := VBool true; "c" := VStr "abc" ]})
              eq_refl) as (r1 & r2 & E & _ & Hf).
  { apply plain_struct_check; [done|]. apply (bool_decide_unpack _). by vm_compute. }
  { apply plain_struct_check; [done|]. apply (bool_decide_unpack _). by vm_compute. }
  exists r1, r2. split; [exact E|]. split.
  - by rewrite (Hf "b" (VBool true) eq_refl).
  - by rewrite (Hf "c" (VStr "abc") eq_refl).
Defined.

Lemma plain_keys_not_proto ks :
  Forall (λ k, Object_prototype !! k = None) ks → "__proto__" ∉ ks.
Proof.
  intros Hall Hin. rewrite Forall_forall in Hall. by specialize (Hall _ Hin).
Qed.

(** X3: for listed keys none of which is the name of a member of
    [Object.prototype] ([__proto__] among them), [pick] (in each of its three
    listings) returns a new plain object whose keys are exactly the listed
    keys, each holding what reading that key off the input gives: the own
    value, else the inherited one, else [undefined] (a listed key the input
    lacks is therefore present in the result, holding [undefined]). *)
Theorem pick_fields ks (h : heap) x ox :
  h !! x = Some ox → Forall (λ k, Object_prototype !! k = None) ks →
  ∃ r, pick ks x h = Ret (length h) (h ++ [r])
       ∧ Do.pick ks x h = Ret (length h) (h ++ [r])
       ∧ At.pick ks x h = Ret (length h) (h ++ [r])
       ∧ inherited r = ∅
       ∧ ∀ k, own r !! k = if decide (k ∈ ks) then Some (obj_get ox k) else None.
Proof.
  intros Hx Hks%plain_keys_not_proto. eexists. split; [by apply pick_spec|].
  split; [by apply pick_spec|]. split; [by apply pick_spec|].
  split; [done|]. intros k. cbn [own literal]. rewrite assign_all_lookup.
  by rewrite lookup_empty.
Qed.

Lemma pick_fields_witness :
  ∃ r, pick ["b"; "a"; "missing"] 3 evolve_store = Ret 4 (evolve_store ++ [r])
       ∧ own r !! "b" = Some (VNum 1)
       ∧ own r !! "a" = Some (VNum 1)
       ∧ own r !! "missing" = Some VUndefined
       ∧ own r !! "c" = None.
Proof.
  destruct (pick_fields ["b"; "a"; "missing"] evolve_store 3
              (Obj {[ "b" := VNum 1 ]} {[ "a" := VNum 1 ]} true) eq_refl)
    as (r & E & _ & _ & _ & Hf).
  { by repeat constructor. }
  exists r. split; [exact E|]. by rewrite !Hf.
Defined.

Lemma foldl_delete_lookup (ks : list string) (m : gmap string val) k :
  foldl (λ m k, delete k m) m ks !! k = if decide (k ∈ ks) then None else m !! k.
Proof.
  revert m. induction ks as [|k' ks IH]; intros m; cbn [foldl].
  - case_decide as Hk; [by apply elem_of_nil in Hk|done].
  - rewrite IH. destruct (decide (k = k')) as [->|Hne].
    + rewrite lookup_delete_eq. rewrite (decide_True (P := k' ∈ k' :: ks)) by by left.
      by destruct (decide (k' ∈ ks)).
    + rewrite lookup_delete_ne by done.
      destruct (decide (k ∈ ks)) as [H1|H1], (decide (k ∈ k' :: ks)) as [H2|H2];
        try done.
      * exfalso. apply H2. by right.
      * exfalso. apply elem_of_cons in H2 as [?|?]; done.
Qed.

(** X4: when the struct has no field named [__proto__], or that key is
    among those listed, [omit] returns a new plain object with the own fields
    of the input other than the listed keys, a listed key the input lacks
    changing nothing; the listing that copies and deletes and the two that
    copy the unlisted keys return the same object. *)
Theorem omit_fields ks (h : heap) x ox :
  h !! x = Some ox → "__proto__" ∈ ks ∨ own ox !! "__proto__" = None →
  ∃ r, omit ks x h = Ret (length h) (h ++ [r])
       ∧ Do.omit ks x h = Ret (length h) (h ++ [r])
       ∧ At.omit ks x h = Ret (length h) (h ++ [r])
       ∧ inherited r = ∅
       ∧ ∀ k, own r !! k = if decide (k ∈ ks) then None else own ox !! k.
Proof.
  intros Hx Hp.
  assert (Hsame : map_imap (λ k v, if negb (bool_decide (k ∈ ks)) then Some v else None)
                    (own ox)
                  = foldl (λ m k, delete k m) (own ox) ks).
  { apply map_eq. intros k. rewrite foldl_delete_lookup, map_lookup_imap.
    destruct (decide (k ∈ ks)) as [Hk|Hk].
    - rewrite bool_decide_true by done. by destruct (own ox !! k).
    - rewrite bool_decide_false by done. by destruct (own ox !! k). }
  destruct (variadic_omit_spec h ks x ox Hx Hp) as [E1 E2].
  eexists. split; [by apply omit_spec|].
  split; [by rewrite E1, Hsame|]. split; [by rewrite E2, E1, Hsame|].
  split; [done|]. intros k. apply foldl_delete_lookup.
Qed.

Lemma omit_fields_witness :
  ∃ r, omit ["b"; "missing"] 2 evolve_store = Ret 4 (evolve_store ++ [r])
       ∧ At.omit ["b"; "missing"] 2 evolve_store = Ret 4 (evolve_store ++ [r])
       ∧ own r !! "b" = None
       ∧ own r !! "a" = Some (VStr "a")
       ∧ own r !! "missing" = None.
Proof.
  destruct (omit_fields ["b"; "missing"] evolve_store 2
              (literal {[ "a" := VStr "a"; "b" := VBool true; "c" := VStr "abc" ]})
              eq_refl (or_intror eq_refl)) as (r & E1 & _ & E3 & _ & Hf).
  exists r. split; [exact E1|]. split; [exact E3|]. by rewrite !Hf.
Defined.

(** X5: for a struct without a field named [__proto__] and keys that are
    all own fields of it, merging what [pick] keeps with what [omit] leaves by
    [concat] gives back a struct with exactly the own fields of the
    original. *)
Theorem pick_omit_concat ks (h : heap) x ox :
  h !! x = Some ox → own ox !! "__proto__" = None →
  (∀ k, k ∈ ks → is_Some (own ox !! k)) →
  ∃ p q r,
    (let* picked := pick ks x in
     let* others := omit ks x in
     concat picked others) h
    = Ret (length h + 2) (h ++ [p; q; r])
    ∧ own r = own ox.
Proof.
  intros Hx Hp Hks.
  assert (Hnp : "__proto__" ∉ ks).
  { intros Hin. destruct (Hks _ Hin) as [v Hv]. congruence. }
  erewrite bind_Ret; [|by apply pick_spec].
  set (P := literal (assign_all (obj_get ox) ks ∅)).
  set (H1 := h ++ [P]).
  erewrite bind_Ret; [|by apply omit_spec, lookup_old].
  set (Q := literal (foldl (λ m k, delete k m) (own ox) ks)).
  set (H2 := H1 ++ [Q]).
  erewrite (concat_spec H2 (length h) (length H1) P Q).
  2:{ unfold H2, H1. apply lookup_old, lookup_fresh0. }
  2:{ unfold H2. apply lookup_fresh0. }
  2:{ cbn [own literal P]. by rewrite assign_all_lookup, decide_False. }
  2:{ cbn [own literal Q]. by rewrite foldl_delete_lookup, decide_False. }
  assert (Hlen : length H2 = length h + 2).
  { unfold H2, H1. rewrite !length_app. simpl. lia. }
  rewrite Hlen. unfold H2, H1. rewrite <- !app_assoc. cbn [app].
  eexists _, _, _. split; [reflexivity|]. cbn [own literal P Q].
  apply map_eq. intros k. rewrite lookup_union, assign_all_lookup, foldl_delete_lookup.
  rewrite lookup_empty. destruct (decide (k ∈ ks)) as [Hk|Hk].
  - destruct (Hks k Hk) as [v Hv]. by rewrite (obj_get_own _ _ _ Hv).
  - by destruct (own ox !! k).
Qed.

Lemma pick_omit_concat_witness :
  ∃ p q r,
    (let* picked := pick ["c"; "a"] 2 in
     let* others := omit ["c"; "a"] 2 in
     concat picked others) evolve_store
    = Ret 6 (evolve_store ++ [p; q; r])
    ∧ own r = {[ "a" := VStr "a"; "b" := VBool true; "c" := VStr "abc" ]}.
Proof.
  refine (pick_omit_concat ["c"; "a"] evolve_store 2
            (literal {[ "a" := VStr "a"; "b" := VBool true; "c" := VStr "abc" ]})
            eq_refl eq_refl _).
  intros k Hk. apply elem_of_cons in Hk as [->|Hk]; [by eexists|].
  apply elem_of_cons in Hk as [->|Hk]; [by eexists|]. by apply elem_of_nil in Hk.
Defined.

(** ** [refine], [unCompact] and [compactS] *)

Lemma refine_run predicates (h : heap) fa o :
  h !! fa = Some o → own o ≠ ∅ → own_handlers_only predicates o →
  let t := foldl (λ t k, refine_step predicates o k t) (true, ∅)
             (merge_sort (λ a b, compare StringOrd a b ≠ Gt) (own_keys o)) in
  refine predicates fa h
  = Ret (if t.1 then Some (VRef (length h)) else None) (h ++ [literal t.2]).
Proof.
  intros Hfa Hne Hplain. unfold refine, R.traverseWithIndex.
  erewrite bind_Ret; [|by apply keys_Ret].
  set (ks := merge_sort _ (own_keys o)).
  rewrite bool_decide_false.
  2:{ intros Hl. apply (sorted_keys_nonempty StringOrd o Hne).
      fold ks. by apply nil_length_inv. }
  rewrite (bind_Ret _ _ _ _ _ (alloc_first _ h)).
  pose (emb := λ t : bool * gmap string val, h ++ [literal t.2]).
  pose (acc := λ t : bool * gmap string val,
                 if t.1 then Some (VRef (length h)) else None).
  change (h ++ [literal ∅]) with (emb (true, ∅)).
  change (of_ O.Applicative (VRef (length h))) with (acc (true, ∅)).
  rewrite (fold_of_abs emb acc (refine_step predicates o)); [done|].
  intros k [ok m] Hk. unfold emb, acc, refine_step, refine_pass. cbn [fst snd].
  erewrite bind_Ret; [|apply get_prop_ref, lookup_old, Hfa].
  erewrite bind_Ret;
    [|by apply (refine_field_own predicates o), (sorted_keys_own StringOrd)].
  destruct ok; cbn [map ap apply_of O.Applicative O.Apply].
  - erewrite bind_Ret; [|reflexivity].
    assert (Hcb : match predicates !! k with
                  | Some p => O.fromPredicate p (obj_get o k)
                  | None => Some (obj_get o k)
                  end
                  = if match predicates !! k with
                       | Some p => p (obj_get o k)
                       | None => true
                       end
                    then Some (obj_get o k) else None).
    { unfold O.fromPredicate. by destruct (predicates !! k). }
    rewrite Hcb.
    destruct (match predicates !! k with
              | Some p => p (obj_get o k)
              | None => true
              end); [|done].
    erewrite bind_Ret.
    2:{ erewrite bind_Ret; [|apply define_prop_ref, lookup_fresh0]. reflexivity. }
    by rewrite insert_fresh0.
  - rewrite (bind_Ret _ _ _ None (h ++ [literal m])) by done. done.
Qed.

Lemma refine_all_pass predicates o ks m :
  (∀ k, k ∈ ks → refine_pass predicates o k = true) →
  foldl (λ t k, refine_step predicates o k t) (true, m) ks
  = (true, assign_all (obj_get o) ks m).
Proof.
  revert m. induction ks as [|k ks IH]; intros m Hall; [done|].
  cbn [foldl]. unfold refine_step at 2. cbn [fst snd].
  rewrite Hall by by left. rewrite IH; [done|]. intros k' Hk'. apply Hall. by right.
Qed.

Lemma refine_failed_stays predicates o ks m :
  (foldl (λ t k, refine_step predicates o k t) (false, m) ks).1 = false.
Proof. revert m. induction ks as [|k ks IH]; intros m; [done|]. apply IH. Qed.

Lemma refine_one_fails predicates o ks t k :
  k ∈ ks → refine_pass predicates o k = false →
  (foldl (λ t k, refine_step predicates o k t) t ks).1 = false.
Proof.
  revert t. induction ks as [|k' ks IH]; intros t Hin Hfail.
  - by apply elem_of_nil in Hin.
  - cbn [foldl]. apply elem_of_cons in Hin as [<-|Hin]; [|by apply IH].
    unfold refine_step at 2. rewrite Hfail. destruct t as [[] m]; cbn [fst snd];
      apply refine_failed_stays.
Qed.

(** X6: [refine] on a non-empty struct, none of whose fields lacks a
    predicate and is named after a member of [Object.prototype], is the
    conjunction of the predicates: it returns [some] exactly when every field
    that has a predicate satisfies it, and what [some] carries is then a new
    object with exactly the own fields and values of the input; otherwise it
    returns [none]. *)
Theorem refine_conjunction predicates (h : heap) fa o :
  h !! fa = Some o → own o ≠ ∅ → own_handlers_only predicates o →
  ∃ r m,
    refine predicates fa h = Ret r (h ++ [literal m])
    ∧ (r = Some (VRef (length h))
       ↔ ∀ k v p, own o !! k = Some v → predicates !! k = Some p → p v = true)
    ∧ (r = None ∨ (r = Some (VRef (length h)) ∧ m = own o)).
Proof.
  intros Hfa Hne Hplain. rewrite (refine_run predicates h fa o Hfa Hne Hplain).
  set (ks := merge_sort _ (own_keys o)).
  assert (Hin : ∀ k, k ∈ ks ↔ is_Some (own o !! k)).
  { intros k. unfold ks. by rewrite merge_sort_Permutation, own_keys_elem. }
  assert (Hpass : (∀ k, k ∈ ks → refine_pass predicates o k = true)
                  ↔ ∀ k v p, own o !! k = Some v → predicates !! k = Some p → p v = true).
  { unfold refine_pass. split.
    - intros Hall k v p Hv Hp. specialize (Hall k (proj2 (Hin k) (ex_intro _ v Hv))).
      by rewrite Hp, (obj_get_own _ _ _ Hv) in Hall.
    - intros Hall k Hk. apply Hin in Hk as [v Hv].
      destruct (predicates !! k) as [p|] eqn:Hp; [|done].
      rewrite (obj_get_own _ _ _ Hv). by eapply Hall. }
  destruct (forallb (refine_pass predicates o) ks) eqn:Hfb.
  - assert (Hall : ∀ k, k ∈ ks → refine_pass predicates o k = true).
    { intros k Hk. rewrite forallb_forall in Hfb. by apply Hfb, list_elem_of_In. }
    rewrite (refine_all_pass predicates o ks ∅ Hall). cbn [fst snd].
    eexists _, _. split; [reflexivity|]. split.
    + split; [intros _; by apply Hpass|done].
    + right. split; [done|]. apply map_eq. intros k.
      rewrite assign_all_lookup, lookup_empty. case_decide as Hk.
      * apply Hin in Hk as [v Hv]. by rewrite (obj_get_own _ _ _ Hv).
      * destruct (own o !! k) eqn:E; [|done]. exfalso. apply Hk, Hin. eauto.
  - assert (Hex : ∃ k, k ∈ ks ∧ refine_pass predicates o k = false).
    { apply not_true_iff_false in Hfb.
      destruct (existsb (λ k, negb (refine_pass predicates o k)) ks) eqn:Hex.
      - apply existsb_exists in Hex as (k & Hk & Hn). exists k.
        split; [by apply list_elem_of_In|]. by apply negb_true_iff.
      - exfalso. apply Hfb, forallb_forall. intros k Hk.
        destruct (refine_pass predicates o k) eqn:Hp; [done|].
        assert (existsb (λ k, negb (refine_pass predicates o k)) ks = true).
        { apply existsb_exists. exists k. by rewrite Hp. }
        congruence. }
    destruct Hex as (k & Hk & Hfail).
    rewrite (refine_one_fails predicates o ks (true, ∅) k Hk Hfail).
    eexists _, _. split; [reflexivity|]. split; [|by left].
    split; [done|]. intros Hall.
    rewrite (proj2 Hpass Hall k Hk) in Hfail. done.
Qed.

Lemma refine_conjunction_witness :
  (∃ m, refine refine_predicates 2 refine_store
        = Ret (Some (VRef 4)) (refine_store ++ [literal m])
        ∧ m = {[ "a" := VStr "a"; "b" := VNum 1; "c" := VStr "abc" ]})
  ∧ (∃ m, refine refine_predicates 3 refine_store
          = Ret None (refine_store ++ [literal m])).
Proof.
  assert (Hne : ∀ m : gmap string val, is_Some (m !! "a") → m ≠ ∅).
  { intros m [v Hv] ->. by rewrite lookup_empty in Hv. }
  split.
  - destruct (refine_conjunction refine_predicates refine_store 2
                (literal {[ "a" := VStr "a"; "b" := VNum 1; "c" := VStr "abc" ]})
                eq_refl) as (r & m & E & Hiff & Hr).
    { apply Hne. by eexists. }
    { apply own_handlers_only_check, (bool_decide_unpack _). by vm_compute. }
    destruct Hr as [->|[-> ->]].
    + exfalso. vm_compute in E. discriminate.
    + by exists {[ "a" := VStr "a"; "b" := VNum 1; "c" := VStr "abc" ]}.
  - destruct (refine_conjunction refine_predicates refine_store 3
                (literal {[ "a" := VStr "a"; "b" := VNum 2 ]})
                eq_refl) as (r & m & E & Hiff & Hr).
    { apply Hne. by eexists. }
    { apply own_handlers_only_check, (bool_decide_unpack _). by vm_compute. }
    destruct Hr as [->|[-> ->]]; [by exists m|].
    exfalso. vm_compute in E. discriminate.
Defined.

(** The wrappers of the wrapping pass are handed out one per field: no
    location allocated by the pass sits under two keys of the table. *)
Lemma wrap_all_own_wrappers (h : heap) (o : obj) (ks : list string) :
  let s := wrap_all h o ks in
  (∀ k l, s.1 !! k = Some (VRef l) → length h < l → l ≤ length h + length s.2)
  ∧ (∀ k1 k2 l, length h < l →
       s.1 !! k1 = Some (VRef l) → s.1 !! k2 = Some (VRef l) → k1 = k2).
Proof.
  induction ks as [|k' ks' IH] using rev_ind; simpl.
  - split; [intros k l Hk|intros k1 k2 l _ Hk]; by rewrite lookup_empty in Hk.
  - unfold wrap_all in *. rewrite foldl_app. simpl.
    set (s := foldl (λ s k, wrap_step h o k s) (∅, []) ks') in *.
    destruct IH as [IH1 IH2]. unfold wrap_step.
    destruct (nullish (obj_get o k')); simpl.
    + split.
      * intros k l Hk Hl. apply lookup_insert_Some in Hk as [[_ Hk]|[_ Hk]].
        -- unfold O.none, O.none_loc in Hk. injection Hk as <-. lia.
        -- by apply (IH1 k).
      * intros k1 k2 l Hl H1 H2.
        apply lookup_insert_Some in H1 as [[<- H1]|[Hn1 H1]].
        { unfold O.none, O.none_loc in H1. injection H1 as <-. lia. }
        apply lookup_insert_Some in H2 as [[<- H2]|[Hn2 H2]].
        { unfold O.none, O.none_loc in H2. injection H2 as <-. lia. }
        by apply (IH2 k1 k2 l).
    + rewrite length_app. simpl. split.
      * intros k l Hk Hl. apply lookup_insert_Some in Hk as [[_ Hk]|[_ Hk]].
        -- injection Hk as <-. lia.
        -- specialize (IH1 k l Hk Hl). lia.
      * intros k1 k2 l Hl H1 H2.
        apply lookup_insert_Some in H1 as [[<- H1]|[Hn1 H1]];
          apply lookup_insert_Some in H2 as [[<- H2]|[Hn2 H2]]; [done| | |].
        -- injection H1 as <-. specialize (IH1 k2 _ H2 Hl). lia.
        -- injection H2 as <-. specialize (IH1 k1 _ H1 Hl). lia.
        -- by apply (IH2 k1 k2 l).
Qed.

(** X7: on a struct without a field named [__proto__], [unCompact] returns a
    new plain object with exactly the own keys of the input; a field whose
    value is [null] or [undefined] holds the shared [none], and every other
    field holds a wrapper of its own (no wrapper sits under two keys),
    allocated by the call, tagged ['Some'] and carrying the original value. *)
Theorem unCompact_fields (h : heap) a o :
  h !! a = Some o → own o !! "__proto__" = None →
  ∃ r ws,
    unCompact a h = Ret (length h) (h ++ r :: ws)
    ∧ inherited r = ∅
    ∧ dom (own r) = dom (own o)
    ∧ (∀ k v, own o !! k = Some v →
        if nullish v then own r !! k = Some O.none
        else ∃ l, own r !! k = Some (VRef l)
                  ∧ length h < l
                  ∧ (h ++ r :: ws) !! l = Some (O.some_obj v))
    ∧ (∀ k1 k2 l, length h < l →
        own r !! k1 = Some (VRef l) → own r !! k2 = Some (VRef l) → k1 = k2).
Proof.
  intros Ha Hp. rewrite (unCompact_spec h a o Ha Hp).
  destruct (wrap_all_inv h o (own_keys o)) as [Hout Hin].
  destruct (wrap_all_own_wrappers h o (own_keys o)) as [_ Hinj].
  eexists _, _. split; [reflexivity|]. split; [done|]. cbn [own literal].
  split; [|split; [|exact Hinj]].
  - apply set_eq. intros k. rewrite !elem_of_dom, <- own_keys_elem.
    destruct (decide (k ∈ own_keys o)) as [Hk|Hk].
    + split; [done|]. intros _. specialize (Hin k Hk).
      destruct (nullish (obj_get o k)); [eauto|].
      destruct Hin as (i & Hi & _). eauto.
    + rewrite (Hout k Hk). split; [by intros [? ?]|done].
  - intros k v Hv.
    specialize (Hin k (proj2 (own_keys_elem o k) (ex_intro _ v Hv))).
    rewrite (obj_get_own _ _ _ Hv) in Hin.
    destruct (nullish v); [done|]. destruct Hin as (i & Hi1 & Hi2).
    exists (length h + S i). split; [done|]. split; [lia|].
    by rewrite lookup_fresh.
Qed.

Lemma unCompact_fields_witness :
  ∃ r ws,
    unCompact 2 nullable_store = Ret 3 (nullable_store ++ r :: ws)
    ∧ own r !! "bar" = Some O.none
    ∧ ∃ l, own r !! "foo" = Some (VRef l)
           ∧ (nullable_store ++ r :: ws) !! l = Some (O.some_obj (VNum 123)).
Proof.
  destruct (unCompact_fields nullable_store 2
    (literal {[ "foo" := VNum 123; "bar" := VUndefined; "baz" := VStr "abc" ]})
    eq_refl eq_refl) as (r & ws & E & _ & _ & Hf & _).
  exists r, ws. split; [exact E|]. split.
  - exact (Hf "bar" VUndefined eq_refl).
  - destruct (Hf "foo" (VNum 123) eq_refl) as (l & Hl & _ & Hw). eauto.
Defined.

(** X8: [compactS] never adds a key: the keys of its result are own keys of
    the input; and on a struct none of whose values [isOption] recognises, the
    result is a new object with exactly the own fields and values of the
    input. *)
Theorem compactS_without_options (h : heap) r o :
  h !! r = Some o → fields_allocated h o →
  ∃ h' res,
    compactS r h = Ret (length h + 2) h'
    ∧ h' !! (length h + 2) = Some (literal res)
    ∧ dom res ⊆ dom (own o)
    ∧ ((∀ k v, own o !! k = Some v → isOption_in h v = false) → res = own o).
Proof.
  intros Hr Hal. destruct (compactS_spec h r o Hr Hal) as (l1 & l2 & l4 & E).
  eexists _, _. split; [exact E|]. split; [by rewrite lookup_fresh|]. split.
  - intros k. rewrite !elem_of_dom, map_lookup_imap.
    destruct (own o !! k); [eauto|]. by intros [? ?].
  - intros Hno. apply map_eq. intros k. rewrite map_lookup_imap.
    destruct (own o !! k) as [v|] eqn:Hv; [|done]. simpl.
    unfold compact_field. by rewrite (Hno k v Hv).
Qed.

Lemma compactS_without_options_witness :
  ∃ h' res,
    compactS 2 parse_store = Ret 5 h'
    ∧ h' !! 5 = Some (literal res)
    ∧ res = {[ "a" := VStr "b"; "b" := VNum 1; "c" := VStr "abc" ]}.
Proof.
  destruct (compactS_without_options parse_store 2
    (literal {[ "a" := VStr "b"; "b" := VNum 1; "c" := VStr "abc" ]}) eq_refl)
    as (h' & res & E & Hres & _ & Hcopy).
  { apply (bool_decide_unpack _). by vm_compute. }
  exists h', res. split; [exact E|]. split; [exact Hres|].
  apply Hcopy. intros k v Hv.
  cbn [own literal] in Hv.
  apply lookup_insert_Some in Hv as [[_ <-]|[_ Hv]]; [done|].
  apply lookup_insert_Some in Hv as [[_ <-]|[_ Hv]]; [done|].
  apply lookup_singleton_Some in Hv as [_ <-]. done.
Defined.

(** ** [traverseS] *)

(** X9: under the optional effect, on a struct without a field named
    [__proto__] and without a handler-less field named after a member of
    [Object.prototype], when the first field in order has a handler,
    [traverseS] is all-or-nothing: it returns [none] exactly when the
    handler of some field returns absence, and otherwise [some] of a new
    struct with the field set of the input, a field with a handler holding
    the handler's output and a field without one its original value.  The
    initial store is only extended. *)
Theorem traverseS_option_handled_first (O : Ord)
    (f : gmap string (val → option val)) (h : heap) ta o k0 rest :
  h !! ta = Some o → plain_struct f o →
  merge_sort (λ a b, compare O a b ≠ Gt) (own_keys o) = k0 :: rest →
  is_Some (f !! k0) →
  ∃ r h',
    traverseS O O.Apply f ta h = Ret r h'
    ∧ h `prefix_of` h'
    ∧ (r = None ↔ ∃ k v fk, own o !! k = Some v ∧ f !! k = Some fk ∧ fk v = None)
    ∧ (r ≠ None →
       r = Some (VRef (length h))
       ∧ ∃ res, h' = h ++ [literal res]
           ∧ dom res = dom (own o)
           ∧ ∀ k v, own o !! k = Some v →
               res !! k = match f !! k with Some fk => fk v | None => Some v end).
Proof.
  intros Hta Hplain Hks Hk0.
  assert (Hin : ∀ k, k ∈ k0 :: rest ↔ is_Some (own o !! k)).
  { intros k. by rewrite <- Hks, merge_sort_Permutation, own_keys_elem. }
  destruct (existsb (handler_absent f o) (k0 :: rest)) eqn:Hex.
  - apply existsb_exists in Hex as (k & Hk & Habs).
    apply list_elem_of_In, Hin in Hk as [v Hv].
    unfold handler_absent in Habs. rewrite (obj_get_own _ _ _ Hv) in Habs.
    destruct (f !! k) as [fk|] eqn:Hf; [|done].
    destruct (fk v) eqn:Hfk; [done|].
    destruct (traverseS_option_absence O f h ta o k0 rest k v fk
                Hta Hplain Hks Hk0 Hv Hf Hfk) as (h' & E & Hpre).
    exists None, h'. split; [done|]. split; [done|]. split; [|done].
    split; [|done]. intros _. by exists k, v, fk.
  - assert (Hok : ∀ k v fk, own o !! k = Some v → f !! k = Some fk → is_Some (fk v)).
    { intros k v fk Hv Hf. destruct (fk v) eqn:Hfk; [eauto|]. exfalso.
      assert (existsb (handler_absent f o) (k0 :: rest) = true); [|congruence].
      apply existsb_exists. exists k. split.
      - apply list_elem_of_In, Hin. eauto.
      - unfold handler_absent. by rewrite Hf, (obj_get_own _ _ _ Hv), Hfk. }
    destruct (traverseS_option_success O f h ta o k0 rest Hta Hplain Hks Hk0 Hok)
      as (res & E & Hdom & Hres).
    eexists _, _. split; [exact E|]. split; [by apply prefix_app_r|]. split.
    + split; [done|]. intros (k & v & fk & Hv & Hf & Hfk).
      destruct (Hok k v fk Hv Hf) as [b Hb]. congruence.
    + intros _. split; [done|]. by exists res.
Qed.

Lemma traverseS_option_handled_first_witness :
  ∃ h', traverseS StringOrd O.Apply numbers_only 3 traverse_store = Ret None h'
        ∧ traverse_store `prefix_of` h'.
Proof.
  destruct (traverseS_option_handled_first StringOrd numbers_only traverse_store 3
              (literal {[ "a" := VNull; "b" := VNum 1 ]}) "a" ["b"] eq_refl)
    as (r & h' & E & Hpre & Hiff & _).
  - apply plain_struct_check; [done|]. apply (bool_decide_unpack _). by vm_compute.
  - by vm_compute.
  - by eexists.
  - exists h'. split; [|exact Hpre].
    rewrite E. f_equal. apply Hiff.
    exists "a", VNull, (λ v, match v with VNum _ => Some v | _ => None end).
    by vm_compute.
Defined.

Lemma traverseS_identity_run (O : Ord) (f : gmap string (val → val))
    (h : heap) ta o :
  h !! ta = Some o →
  let ks := merge_sort (λ a b, compare O a b ≠ Gt) (own_keys o) in
  (∀ k, k ∈ hd "undefined" ks :: tail ks →
     table_get f k = match f !! k with Some fk => Own fk | None => Absent end) →
  "__proto__" ∉ tail ks →
  traverseS O I.Apply f ta h
  = Ret (VRef (length h))
        (h ++ [literal (assign_all (λ k, evolved f k (obj_get o k))
                          (hd "undefined" ks :: tail ks) ∅)]).
Proof.
  intros Hta ks Htab Hproto. unfold traverseS.
  erewrite bind_Ret; [|by apply keys_Ret]. fold ks.
  set (k0 := hd "undefined" ks) in *.
  erewrite bind_Ret; [|by apply get_prop_ref].
  rewrite (bind_Ret _ _ h (evolved f k0 (obj_get o k0)) h)
    by (rewrite (Htab k0) by (by left); unfold evolved; by destruct (f !! k0)).
  cbn [map I.Apply].
  erewrite (bind_Ret _ _ h (VRef (length h))
              (h ++ [literal {[ k0 := evolved f k0 (obj_get o k0) ]}]))
    by (unfold bind; by rewrite alloc_first).
  pose (emb := λ m : gmap string val, h ++ [literal m]).
  pose (acc := λ _ : gmap string val, VRef (length h)).
  pose (step := λ (k : string) (m : gmap string val),
                  <[k := evolved f k (obj_get o k)]> m).
  rewrite <- insert_empty.
  change (h ++ [literal (<[k0 := evolved f k0 (obj_get o k0)]> ∅)])
    with (emb (<[k0 := evolved f k0 (obj_get o k0)]> ∅)).
  change (VRef (length h)) with (acc (<[k0 := evolved f k0 (obj_get o k0)]> ∅)) at 1.
  rewrite (fold_of_abs emb acc step); [done|].
  intros k m Hk. unfold emb, acc, step, evolved.
  assert (Hne : k ≠ "__proto__") by (by intros ->).
  rewrite (Htab k) by (by right).
  destruct (f !! k) as [fk|]; cbn [map ap I.Apply].
  - erewrite bind_Ret; [|apply get_prop_ref, lookup_old, Hta].
    erewrite bind_Ret; [|reflexivity]. cbv beta.
    erewrite bind_Ret; [|by apply set_prop_ref; [apply lookup_fresh0|]].
    by rewrite insert_fresh0.
  - erewrite bind_Ret; [|apply get_prop_ref, lookup_old, Hta].
    erewrite bind_Ret; [|by apply set_prop_ref; [apply lookup_fresh0|]].
    by rewrite insert_fresh0.
Qed.

(** Without a handler of its own, a field named after a member of
    [Object.prototype] gets that member as its handler: on [{valueOf: 1}]
    both [evolve] and [traverseS] call [Object.prototype.valueOf] on no
    object, and neither returns. *)
Lemma inherited_member_as_handler_throws :
  let h := [O.none_obj; literal ∅; literal {[ "valueOf" := VNum 1 ]}] in
  evolve ∅ 2 h = Throw TypeError (h ++ [literal ∅])
  ∧ traverseS StringOrd I.Apply ∅ 2 h = Throw TypeError h.
Proof. split; by vm_compute. Qed.

(** X10: under the identity effect [traverseS] is [evolve]: on a non-empty
    struct without a field named [__proto__] and without a handler-less field
    named after a member of [Object.prototype], whatever the order on keys and
    whether or not the first field has a handler, it returns a reference to
    the same new object in the same final store as [evolve] with the same
    handlers. *)
Theorem traverseS_identity_is_evolve (O : Ord) (f : gmap string (val → val))
    (h : heap) ta o :
  h !! ta = Some o → own o ≠ ∅ → plain_struct f o →
  ∃ r, evolve f ta h = Ret (length h) (h ++ [r])
       ∧ traverseS O I.Apply f ta h = Ret (VRef (length h)) (h ++ [r]).
Proof.
  intros Hta Hne Hplain. eexists. split; [by apply evolve_spec; [|apply Hplain]|].
  pose proof (sorted_keys_nonempty O o Hne) as Hks.
  pose proof (λ k, sorted_keys_plain O f o _ k Hplain eq_refl) as Hkey.
  rewrite (traverseS_identity_run O f h ta o Hta).
  2:{ intros k Hk. apply Hkey.
      destruct (merge_sort _ (own_keys o)); [done|exact Hk]. }
  2:{ intros Hk. apply (Hkey "__proto__"); [|done].
      destruct (merge_sort _ (own_keys o)); [done|by right]. }
  clear Hkey.
  assert (Hin : ∀ k, k ∈ merge_sort (λ a b, compare O a b ≠ Gt) (own_keys o)
                     ↔ is_Some (own o !! k)).
  { intros k. by rewrite merge_sort_Permutation, own_keys_elem. }
  destruct (merge_sort _ (own_keys o)) as [|k0 rest]; [done|]. cbn [hd tail].
  enough (Hm : assign_all (λ k, evolved f k (obj_get o k)) (k0 :: rest) ∅
               = map_imap (λ k v, Some (evolved f k v)) (own o))
    by (by rewrite Hm).
  apply map_eq. intros k.
  rewrite assign_all_lookup, map_lookup_imap, lookup_empty.
  case_decide as Hk.
  - apply Hin in Hk as [v Hv]. by rewrite Hv, (obj_get_own _ _ _ Hv).
  - destruct (own o !! k) eqn:E; [|done]. exfalso. apply Hk, Hin. eauto.
Qed.

Lemma traverseS_identity_is_evolve_witness :
  ∃ r, evolve evolve_handlers 2 evolve_store = Ret 4 (evolve_store ++ [r])
       ∧ traverseS StringOrd I.Apply evolve_handlers 2 evolve_store
         = Ret (VRef 4) (evolve_store ++ [r]).
Proof.
  refine (traverseS_identity_is_evolve StringOrd evolve_handlers evolve_store 2
            _ eq_refl _ _).
  - intros Hempty. apply (f_equal (λ m : gmap string val, m !! "a")) in Hempty.
    by vm_compute in Hempty.
  - apply plain_struct_check; [done|]. apply (bool_decide_unpack _). by vm_compute.
Defined.

(** X11: [traverseS] does not handle the empty struct: without own keys it
    reads the key ['undefined'], so that with no handler of that name the
    identity effect yields the struct [{undefined: undefined}] instead of an
    empty one, and the optional effect raises a [TypeError]. *)
Theorem traverseS_empty_struct (O : Ord) (h : heap) ta :
  h !! ta = Some (literal ∅) →
  (∀ f : gmap string (val → val), f !! "undefined" = None →
     traverseS O I.Apply f ta h
     = Ret (VRef (length h)) (h ++ [literal {[ "undefined" := VUndefined ]}]))
  ∧ (∀ f : gmap string (val → option val), f !! "undefined" = None →
       traverseS O O.Apply f ta h = Throw TypeError h).
Proof.
  intros Hta.
  assert (Htab : ∀ X (f : gmap string X),
            f !! "undefined" = None → table_get f "undefined" = Absent).
  { intros X f Hf. unfold table_get. by rewrite Hf. }
  assert (Hks : merge_sort (λ a b, compare O a b ≠ Gt) (own_keys (literal ∅)) = []).
  { unfold own_keys. cbn [own literal]. by rewrite map_to_list_empty. }
  split; intros f Hf.
  - rewrite (traverseS_identity_run O f h ta _ Hta).
    2:{ rewrite Hks. intros k Hk. apply list_elem_of_singleton in Hk as ->.
        cbn [hd]. by rewrite Hf, (Htab _ f Hf). }
    2:{ rewrite Hks. apply not_elem_of_nil. }
    cbn [own literal]. unfold own_keys. cbn [own literal].
    rewrite map_to_list_empty. cbn [fmap list_fmap].
    change (merge_sort (λ a b, compare O a b ≠ Gt) []) with (@nil string).
    cbn [hd tail]. unfold assign_all, evolved. cbn [foldl]. rewrite Hf.
    by rewrite insert_empty.
  - unfold traverseS. erewrite bind_Ret; [|by apply keys_Ret].
    unfold own_keys. cbn [own literal].
    rewrite map_to_list_empty. cbn [fmap list_fmap].
    change (merge_sort (λ a b, compare O a b ≠ Gt) []) with (@nil string).
    cbn [hd tail].
    erewrite bind_Ret; [|by apply get_prop_ref].
    rewrite (Htab _ f Hf). done.
Qed.

Lemma traverseS_empty_struct_witness :
  traverseS StringOrd I.Apply evolve_handlers 1 evolve_store
  = Ret (VRef 4) (evolve_store ++ [literal {[ "undefined" := VUndefined ]}])
  ∧ traverseS StringOrd O.Apply increment_b 1 evolve_store
    = Throw TypeError evolve_store.
Proof.
  destruct (traverseS_empty_struct StringOrd evolve_store 1 eq_refl) as [HI HO].
  split; [by apply HI|by apply HO].
Defined.

(** ** [renameAt], [mapAt], [modifyAt] and [updateAt] *)

Lemma rename_lookup (m : gmap string val) (from to : string) (x : val) k :
  (delete from m ∪ {[ to := x ]}) !! k
  = match (if decide (from = k) then None else m !! k) with
    | Some y => Some y
    | None => if decide (to = k) then Some x else None
    end.
Proof.
  rewrite lookup_union, lookup_delete, lookup_singleton.
  destruct (decide (from = k)), (decide (to = k)), (m !! k); done.
Qed.

Lemma replace_is_insert (m : gmap string val) (p : string) (x : val) :
  delete p m ∪ {[ p := x ]} = <[p := x]> m.
Proof.
  apply map_eq. intros k. rewrite rename_lookup, lookup_insert.
  destruct (decide (p = k)); [done|]. by destruct (m !! k).
Qed.



(** X13: renaming an own field to a key the struct does not have and back
    gives a struct with exactly the own fields and values of the input. *)
Theorem renameAt_roundtrip (h : heap) (from to : string) o oo x :
  h !! o = Some oo →
  own oo !! from = Some x → own oo !! to = None →
  ∃ l hs r,
    (let* renamed := At.renameAt from to o in At.renameAt to from renamed) h
    = Ret l (h ++ hs ++ [r])
    ∧ l = length h + length hs
    ∧ r = literal (own oo).
Proof.
  intros Ho Hfrom Hto.
  assert (Hne : from ≠ to) by (intros ->; congruence).
  erewrite bind_Ret; [|by apply renameAt_spec].
  set (m1 := delete from (own oo) ∪ {[ to := obj_get oo from ]}).
  set (h1 := h ++ [literal (delete from (own oo)); literal m1]).
  assert (Hl1 : h1 !! S (length h) = Some (literal m1)).
  { unfold h1. by rewrite (lookup_fresh1 h). }
  rewrite (renameAt_spec h1 to from (S (length h)) (literal m1) Hl1).
  assert (Hlen : length h1 = length h + 2) by (unfold h1; rewrite length_app; done).
  exists (S (length h1)),
    [literal (delete from (own oo)); literal m1; literal (delete to m1)],
    (literal (delete to m1 ∪ {[ from := obj_get (literal m1) to ]})).
  split; [|split].
  - unfold h1. rewrite <- !app_assoc. reflexivity.
  - rewrite Hlen. cbn [length]. lia.
  - f_equal. cbn [own literal]. apply map_eq. intros k.
    rewrite rename_lookup.
    assert (Hv : obj_get (literal m1) to = x).
    { apply obj_get_own. cbn [own literal]. unfold m1. rewrite rename_lookup.
      rewrite (decide_False (P := from = to)) by done. rewrite Hto.
      rewrite (decide_True (P := to = to)) by done.
      by rewrite (obj_get_own _ _ _ Hfrom). }
    rewrite Hv. unfold m1. rewrite rename_lookup.
    destruct (decide (to = k)) as [<-|Hk1].
    + rewrite (decide_False (P := from = to)) by done. by rewrite Hto.
    + destruct (decide (from = k)) as [<-|Hk2]; [done|].
      by destruct (own oo !! k).
Qed.

Lemma renameAt_roundtrip_witness :
  ∃ l hs,
    (let* renamed := At.renameAt "a" "d" 2 in At.renameAt "d" "a" renamed)
      evolve_store
    = Ret l (evolve_store ++ hs
             ++ [literal {[ "a" := VStr "a"; "b" := VBool true; "c" := VStr "abc" ]}]).
Proof.
  destruct (renameAt_roundtrip evolve_store "a" "d" 2
    (literal {[ "a" := VStr "a"; "b" := VBool true; "c" := VStr "abc" ]})
    (VStr "a") eq_refl eq_refl eq_refl) as (l & hs & r & E & _ & ->).
  by exists l, hs.
Defined.



(** X15: on an own field of a struct none of whose other fields is named
    after a member of [Object.prototype], [mapAt(prop, f)] and
    [evolve({[prop]: f})] build the same object. *)
Theorem mapAt_agrees_with_evolve (h : heap) (prop : string) (f : val → val) a oa :
  h !! a = Some oa → is_Some (own oa !! prop) →
  own_handlers_only ({[ prop := f ]} : gmap string (val → val)) oa →
  ∃ rest r,
    At.mapAt prop f a h = Ret (S (length h)) (h ++ [rest; r])
    ∧ evolve {[ prop := f ]} a h = Ret (length h) (h ++ [r]).
Proof.
  intros Ha [x Hx] Hplain.
  rewrite (mapAt_spec h prop f a oa Ha), replace_is_insert.
  rewrite (evolve_spec _ h a oa Ha Hplain).
  assert (Hm : map_imap (λ k v, Some (evolved {[ prop := f ]} k v)) (own oa)
               = <[prop := f (obj_get oa prop)]> (own oa)).
  { apply map_eq. intros k. rewrite map_lookup_imap, lookup_insert.
    unfold evolved. rewrite lookup_singleton.
    destruct (decide (prop = k)) as [<-|Hk].
    - by rewrite Hx, (obj_get_own _ _ _ Hx).
    - by destruct (own oa !! k). }
  rewrite Hm. by eexists _, _.
Qed.

Lemma mapAt_agrees_with_evolve_witness :
  ∃ rest r,
    At.mapAt "b" (λ _, VNum 7) 2 evolve_store = Ret 5 (evolve_store ++ [rest; r])
    ∧ evolve {[ "b" := λ _, VNum 7 ]} 2 evolve_store = Ret 4 (evolve_store ++ [r]).
Proof.
  refine (mapAt_agrees_with_evolve evolve_store "b" (λ _, VNum 7) 2 _ eq_refl _ _).
  - by eexists.
  - apply own_handlers_only_check, (bool_decide_unpack _). by vm_compute.
Defined.

(** X16: two [mapAt] on the same key compose: the object built by
    [mapAt(prop, g)] after [mapAt(prop, f)] is the one [mapAt(prop, g ∘ f)]
    builds; in particular the last of two [updateAt] wins. *)
Theorem mapAt_compose (h : heap) (prop : string) (f g : val → val) a oa :
  h !! a = Some oa →
  ∃ hs1 hs2 r,
    (let* b := At.mapAt prop f a in At.mapAt prop g b) h
    = Ret (length h + length hs1) (h ++ hs1 ++ [r])
    ∧ At.mapAt prop (λ v, g (f v)) a h
      = Ret (length h + length hs2) (h ++ hs2 ++ [r]).
Proof.
  intros Ha.
  erewrite bind_Ret; [|by apply mapAt_spec]. rewrite replace_is_insert.
  set (m1 := <[prop := f (obj_get oa prop)]> (own oa)).
  set (h1 := h ++ [literal (delete prop (own oa)); literal m1]).
  assert (Hl1 : h1 !! S (length h) = Some (literal m1)).
  { unfold h1. by rewrite (lookup_fresh1 h). }
  rewrite (mapAt_spec h1 prop g (S (length h)) (literal m1) Hl1), replace_is_insert.
  rewrite (mapAt_spec h prop (λ v, g (f v)) a oa Ha), replace_is_insert.
  assert (Hlen : length h1 = length h + 2) by (unfold h1; rewrite length_app; done).
  assert (Hv : obj_get (literal m1) prop = f (obj_get oa prop)).
  { apply obj_get_own. cbn [own literal]. unfold m1. apply lookup_insert_eq. }
  exists [literal (delete prop (own oa)); literal m1; literal (delete prop m1)],
    [literal (delete prop (own oa))],
    (literal (<[prop := g (obj_get (literal m1) prop)]> m1)).
  split.
  - rewrite Hlen. unfold h1. rewrite <- !app_assoc. cbn [length app]. f_equal. lia.
  - cbn [length app own literal]. rewrite Hv. unfold m1. rewrite insert_insert_eq.
    f_equal. lia.
Qed.

Lemma mapAt_compose_witness :
  ∃ hs1 hs2 r,
    (let* b := At.updateAt "b" (VNum 1) 2 in At.updateAt "b" (VNum 2) b) evolve_store
    = Ret (4 + length hs1) (evolve_store ++ hs1 ++ [r])
    ∧ At.updateAt "b" (VNum 2) 2 evolve_store
      = Ret (4 + length hs2) (evolve_store ++ hs2 ++ [r]).
Proof.
  exact (mapAt_compose evolve_store "b" (λ _, VNum 1) (λ _, VNum 2) 2 _ eq_refl).
Defined.

(** ** The do-notation helpers, [concat] and [parse] *)

(** X17: the four ways to set one field build the same object: [let], [set]
    and [setW] of the second listing and [updateAt] of the third each return
    a new plain object with the own fields of the input in which the key
    holds the given value, whether or not the input has the key. *)
Theorem set_agrees_with_updateAt (h : heap) (key : string) (value : val) o oo :
  h !! o = Some oo →
  ∃ rest r,
    r = literal (<[key := value]> (own oo))
    ∧ Do.letFn key value o h = Ret (length h) (h ++ [r])
    ∧ Do.set key value o h = Ret (length h) (h ++ [r])
    ∧ Do.setW key value o h = Ret (length h) (h ++ [r])
    ∧ At.updateAt key value o h = Ret (S (length h)) (h ++ [rest; r]).
Proof.
  intros Ho. eexists _, _. split; [reflexivity|].
  split; [by apply letFn_spec|]. split; [by apply (letFn_spec h key value o oo)|].
  split; [by apply (letFn_spec h key value o oo)|].
  unfold At.updateAt, At.modifyAt.
  by rewrite (mapAt_spec h key _ o oo Ho), replace_is_insert.
Qed.

Lemma set_agrees_with_updateAt_witness :
  ∃ rest,
    Do.set "b" VNull 2 evolve_store
    = Ret 4 (evolve_store
             ++ [literal {[ "b" := VNull; "a" := VStr "a"; "c" := VStr "abc" ]}])
    ∧ At.updateAt "b" VNull 2 evolve_store
      = Ret 5 (evolve_store
               ++ [rest; literal {[ "b" := VNull; "a" := VStr "a"; "c" := VStr "abc" ]}]).
Proof.
  destruct (set_agrees_with_updateAt evolve_store "b" VNull 2
    (literal {[ "a" := VStr "a"; "b" := VBool true; "c" := VStr "abc" ]}) eq_refl)
    as (rest & r & -> & _ & Eset & _ & Eupd).
  exists rest.
  assert (Hm : <["b" := VNull]>
                 (own (literal {[ "a" := VStr "a"; "b" := VBool true; "c" := VStr "abc" ]}))
               = ({[ "b" := VNull; "a" := VStr "a"; "c" := VStr "abc" ]} : gmap string val)).
  { by vm_compute. }
  rewrite Hm in Eset, Eupd. by split.
Defined.

(** X18: a do-notation chain [bindTo(a)], [let(b, ...)], [bind(c, fn)]
    builds one new object per stage and leaves the earlier stages as they
    were; the callback of [bind] receives the struct bound so far, and the
    final struct holds the three fields, a later key overwriting an equal
    earlier one. *)
Theorem do_notation_chain (h : heap) (a b c : string) (va vb : val) (fn : obj → val) :
  let s1 : gmap string val := {[ a := va ]} in
  let s2 : gmap string val := <[b := vb]> s1 in
  (let* x := Do.bindTo a va in
   let* y := Do.letFn b vb x in
   Do.bind c fn y) h
  = Ret (length h + 2)
        (h ++ [literal s1; literal s2; literal (<[c := fn (literal s2)]> s2)]).
Proof.
  intros s1 s2. unfold Do.bindTo.
  rewrite (bind_Ret _ _ _ _ _ (alloc_first _ h)).
  erewrite bind_Ret.
  2:{ apply (letFn_spec _ b vb (length h) (literal s1)). apply lookup_fresh0. }
  erewrite bind_spec.
  2:{ rewrite length_app. cbn [length]. rewrite Nat.add_1_r.
      rewrite <- app_assoc. apply (lookup_fresh1 h). }
  rewrite !length_app. cbn [length own literal]. rewrite <- !app_assoc.
  f_equal. lia.
Qed.

(** X19: on structs without a field named [__proto__], [concat] of
    [getAssignSemigroup] satisfies the semigroup laws on the objects it
    builds: it is associative, and idempotent (the concatenation of a struct
    with itself is a copy of its own fields). *)
Theorem concat_semigroup_laws (h : heap) x y z ox oy oz :
  h !! x = Some ox → h !! y = Some oy → h !! z = Some oz →
  own ox !! "__proto__" = None → own oy !! "__proto__" = None →
  own oz !! "__proto__" = None →
  ∃ yz xy r,
    (let* t := concat y z in concat x t) h = Ret (S (length h)) (h ++ [yz; r])
    ∧ (let* t := concat x y in concat t z) h = Ret (S (length h)) (h ++ [xy; r])
    ∧ concat x x h = Ret (length h) (h ++ [literal (own ox)]).
Proof.
  intros Hx Hy Hz Hpx Hpy Hpz.
  exists (literal (own oy ∪ own oz)), (literal (own ox ∪ own oy)),
    (literal (own ox ∪ (own oy ∪ own oz))).
  split; [|split].
  - erewrite bind_Ret; [|by apply concat_spec].
    erewrite concat_spec; [|by apply lookup_old|apply lookup_fresh0|done|].
    2:{ cbn [own literal]. by apply lookup_union_None. }
    rewrite length_app, <- app_assoc. cbn [length own literal app].
    f_equal. lia.
  - erewrite bind_Ret; [|by apply concat_spec].
    erewrite concat_spec; [|apply lookup_fresh0|by apply lookup_old| |done].
    2:{ cbn [own literal]. by apply lookup_union_None. }
    rewrite length_app, <- app_assoc. cbn [length own literal app].
    rewrite (assoc_L (∪)). f_equal. lia.
  - rewrite (concat_spec h x x ox ox Hx Hx Hpx Hpx).
    enough (Hm : own ox ∪ own ox = own ox) by (by rewrite Hm).
    apply map_eq. intros k. rewrite lookup_union. by destruct (own ox !! k).
Qed.

Lemma concat_semigroup_laws_witness :
  ∃ yz xy r,
    (let* t := concat 2 1 in concat 3 t) evolve_store
    = Ret 5 (evolve_store ++ [yz; r])
    ∧ (let* t := concat 3 2 in concat t 1) evolve_store
      = Ret 5 (evolve_store ++ [xy; r])
    ∧ own r = {[ "b" := VNum 1; "a" := VStr "a"; "c" := VStr "abc" ]}.
Proof.
  destruct (concat_semigroup_laws evolve_store 3 2 1 _ _ _ eq_refl eq_refl eq_refl
              eq_refl eq_refl eq_refl)
    as (yz & xy & r & E1 & E2 & _).
  exists yz, xy, r. split; [exact E1|]. split; [exact E2|].
  vm_compute in E1. injection E1 as _ <-. by vm_compute.
Defined.

(** X20: with parsers that never fail, and on a struct without a
    parser-less field named after a member of [Object.prototype], [parse] is
    [evolve]: if each parser is [right] after a function, [parse] returns
    [right] of a new object that equals the one [evolve] builds with these
    functions, and the error map it leaves behind is empty. *)
Theorem parse_total_is_evolve (g : gmap string (val → val)) (h : heap) fa o :
  h !! fa = Some o → own_handlers_only g o →
  ∃ r,
    parse ((λ gk v, E.right (gk v)) <$> g) fa h
    = Ret (E.right (VRef (S (length h)))) (h ++ [literal ∅; r])
    ∧ evolve g fa h = Ret (length h) (h ++ [r]).
Proof.
  intros Hfa Hg.
  rewrite (parse_spec _ h fa o Hfa), (evolve_spec g h fa o Hfa Hg).
  2:{ intros k Hk Hf. apply (Hg k Hk). rewrite lookup_fmap in Hf.
      by destruct (g !! k). }
  set (f := (λ gk v, E.right (gk v)) <$> g).
  assert (Hout : ∀ k v, field_outcome f k v = E.right (evolved g k v)).
  { intros k v. unfold field_outcome, evolved, f. rewrite lookup_fmap.
    by destruct (g !! k). }
  assert (Hs : successes f o = map_imap (λ k v, Some (evolved g k v)) (own o)).
  { unfold successes. apply map_imap_ext. intros k.
    destruct (own o !! k) as [v|]; [|done]. simpl. by rewrite Hout. }
  assert (Hf : failures f o = ∅).
  { apply map_empty. intros k. unfold failures. rewrite map_lookup_imap.
    destruct (own o !! k) as [v|]; [|done]. simpl. by rewrite Hout. }
  rewrite Hs, Hf.
  rewrite bool_decide_true.
  2:{ by rewrite <- !size_dom, imap_total_dom. }
  by eexists.
Qed.

Lemma parse_total_is_evolve_witness :
  ∃ r,
    parse ((λ gk v, E.right (gk v)) <$> evolve_handlers) 2 evolve_store
    = Ret (E.right (VRef 5)) (evolve_store ++ [literal ∅; r])
    ∧ evolve evolve_handlers 2 evolve_store = Ret 4 (evolve_store ++ [r]).
Proof.
  refine (parse_total_is_evolve evolve_handlers evolve_store 2 _ eq_refl _).
  apply own_handlers_only_check, (bool_decide_unpack _). by vm_compute.
Defined.

(** ** [traverseS] when the first field has no handler *)

Lemma traverseS_option_run_unhandled (O : Ord) (f : gmap string (val → option val))
    (h : heap) ta o k0 rest e :
  h !! ta = Some o → plain_struct f o →
  merge_sort (λ a b, compare O a b ≠ Gt) (own_keys o) = k0 :: rest →
  f !! k0 = None →
  as_effect O.Apply (obj_get o k0) h = Ret e h →
  let seed := match e with
              | Some b => Going {[ k0 := b ]}
              | None => Unseeded
              end in
  let t := foldl (λ t k, progress_step f o k t) seed rest in
  traverseS O O.Apply f ta h = Ret (progress_effect h t) (progress_store h t).
Proof.
  intros Hta Hplain Hks Hk0 He seed t. unfold traverseS.
  pose proof (λ k, sorted_keys_plain O f o (k0 :: rest) k Hplain Hks) as Hkey.
  erewrite bind_Ret; [|by apply keys_Ret]. rewrite Hks. cbn [hd tail].
  erewrite bind_Ret; [|by apply get_prop_ref].
  destruct (Hkey k0) as (_ & _ & ->); [by left|]. rewrite Hk0.
  rewrite (bind_Ret _ _ _ e h He).
  erewrite (bind_Ret _ _ h (progress_effect h seed) (progress_store h seed)).
  2:{ unfold seed. cbn [map O.Apply].
      destruct e as [b|]; [|done].
      unfold bind. by rewrite alloc_first. }
  apply (fold_of_abs (progress_store h) (progress_effect h) (progress_step f o)).
  intros k t' Hk. destruct (Hkey k) as (Hne & _ & ->); [by right|].
  destruct t' as [|m|m]; cbn [progress_effect progress_store progress_step].
  - destruct (f !! k) as [fk|]; cbn [map ap O.Apply]; [|done].
    erewrite bind_Ret; [|by apply get_prop_ref].
    by rewrite (bind_Ret _ _ _ None h).
  - destruct (f !! k) as [fk|]; cbn [map ap O.Apply]; [|done].
    erewrite bind_Ret; [|apply get_prop_ref, lookup_old, Hta].
    by rewrite (bind_Ret _ _ _ None (h ++ [literal m])).
  - destruct (f !! k) as [fk|]; cbn [map ap O.Apply].
    + erewrite bind_Ret; [|apply get_prop_ref, lookup_old, Hta].
      erewrite bind_Ret; [|reflexivity].
      destruct (fk (obj_get o k)) as [b|]; [|done].
      erewrite bind_Ret.
      2:{ erewrite bind_Ret; [|apply set_prop_ref; [apply lookup_fresh0|done]].
          reflexivity. }
      by rewrite insert_fresh0.
    + erewrite bind_Ret.
      2:{ erewrite bind_Ret; [|apply get_prop_ref, lookup_old, Hta].
          erewrite bind_Ret; [|apply set_prop_ref; [apply lookup_fresh0|done]].
          reflexivity. }
      by rewrite insert_fresh0.
Qed.

(** X21: under the optional effect, on a struct without a field named
    [__proto__] and without a handler-less field named after a member of
    [Object.prototype], when the first field in order has no handler,
    [traverseS] reads that field's value as if it were an optional
    container: a [null] or [undefined] value raises a [TypeError], and a
    boolean, number or string value is replaced by [undefined] in the result
    (the other fields being as their handlers, all succeeding, leave
    them). *)
Theorem traverseS_option_unhandled_first (O : Ord)
    (f : gmap string (val → option val)) (h : heap) ta o k0 rest v0 :
  h !! ta = Some o → plain_struct f o →
  merge_sort (λ a b, compare O a b ≠ Gt) (own_keys o) = k0 :: rest →
  f !! k0 = None → own o !! k0 = Some v0 →
  (nullish v0 = true → traverseS O O.Apply f ta h = Throw TypeError h)
  ∧ (primitive v0 = true →
     (∀ k v fk, own o !! k = Some v → f !! k = Some fk → is_Some (fk v)) →
     ∃ res,
       traverseS O O.Apply f ta h
       = Ret (Some (VRef (length h))) (h ++ [literal res])
       ∧ res !! k0 = Some VUndefined
       ∧ ∀ k v, k ≠ k0 → own o !! k = Some v →
           res !! k = match f !! k with Some fk => fk v | None => Some v end).
Proof.
  intros Hta Hplain Hks Hk0 Hv0. split.
  - intros Hnull. unfold traverseS.
    erewrite bind_Ret; [|by apply keys_Ret]. rewrite Hks. cbn [hd tail].
    erewrite bind_Ret; [|by apply get_prop_ref].
    destruct (sorted_keys_plain O f o (k0 :: rest) k0 Hplain Hks) as (_ & _ & ->);
      [by left|].
    rewrite Hk0, (obj_get_own _ _ _ Hv0).
    by destruct v0.
  - intros Hprim Hok.
    assert (Hperm : k0 :: rest ≡ₚ own_keys o).
    { rewrite <- Hks. apply merge_sort_Permutation. }
    assert (Hin : ∀ k, k ∈ k0 :: rest ↔ is_Some (own o !! k)).
    { intros k. by rewrite Hperm, own_keys_elem. }
    assert (Hnd : k0 ∉ rest).
    { assert (Hd : NoDup (k0 :: rest)).
      { rewrite Hperm. apply NoDup_fst_map_to_list. }
      by apply NoDup_cons in Hd as [? _]. }
    assert (He : as_effect O.Apply (obj_get o k0) h = Ret (Some VUndefined) h).
    { rewrite (obj_get_own _ _ _ Hv0). by destruct v0. }
    rewrite (traverseS_option_run_unhandled O f h ta o k0 rest _
               Hta Hplain Hks Hk0 He).
    rewrite progress_all_succeed.
    2:{ intros k fk Hk Hf.
        assert (Hk' : k ∈ k0 :: rest) by by right.
        apply Hin in Hk' as [v Hv]. rewrite (obj_get_own _ _ _ Hv). by eapply Hok. }
    cbn [progress_effect progress_store].
    eexists. split; [reflexivity|]. split.
    + rewrite assign_all_lookup, decide_False by done. apply lookup_singleton_eq.
    + intros k v Hk Hv. rewrite assign_all_lookup.
      assert (Hk' : k ∈ rest).
      { assert (Hk' : k ∈ k0 :: rest) by (apply Hin; eauto).
        by apply elem_of_cons in Hk' as [?|?]. }
      rewrite decide_True by done.
      unfold resolved. rewrite (obj_get_own _ _ _ Hv).
      destruct (f !! k) as [fk|] eqn:Ef; [|done].
      destruct (Hok k v fk Hv Ef) as [b Hb]. by rewrite Hb.
Qed.

Lemma traverseS_option_unhandled_first_witness :
  traverseS StringOrd O.Apply absent_b 3 traverse_store
  = Throw TypeError traverse_store
  ∧ ∃ res,
      traverseS StringOrd O.Apply increment_b 2 traverse_store
      = Ret (Some (VRef 4)) (traverse_store ++ [literal res])
      ∧ res !! "a" = Some VUndefined
      ∧ res !! "b" = Some (VNum 3).
Proof.
  split.
  - refine (proj1 (traverseS_option_unhandled_first StringOrd absent_b
              traverse_store 3 (literal {[ "a" := VNull; "b" := VNum 1 ]})
              "a" ["b"] VNull eq_refl _ _ eq_refl eq_refl) eq_refl).
    + apply plain_struct_check; [done|]. apply (bool_decide_unpack _). by vm_compute.
    + by vm_compute.
  - destruct (proj2 (traverseS_option_unhandled_first StringOrd increment_b
              traverse_store 2 (literal {[ "a" := VNum 1; "b" := VNum 2 ]})
              "a" ["b"] (VNum 1) eq_refl
              ltac:(apply plain_struct_check;
                    [done|apply (bool_decide_unpack _); by vm_compute])
              eq_refl eq_refl eq_refl) eq_refl)
      as (res & E & Ha & Hb).
    + intros k v fk Hv Hf. cbn [own literal] in Hv.
      apply lookup_insert_Some in Hv as [[<- <-]|[_ Hv]]; [done|].
      apply lookup_singleton_Some in Hv as [<- <-].
      unfold increment_b in Hf.
      apply lookup_singleton_Some in Hf as [_ <-]. by eexists.
    + exists res. split; [exact E|]. split; [exact Ha|].
      exact (Hb "b" (VNum 2) ltac:(done) eq_refl).
Defined.
